(** * A discrete-event simulator of a multi-server queueing system

    Shallow embedding of the C++ sources
      - random_generator.h   (RandomGenerator and its four distributions),
      - queue_disciplines.h  (namespace QueueDisciplines),
      - distributions.h      (namespace TestDistributions),
      - simulator.h / simple_simulator/simulator.cpp (Job, Event, FIFOQueue,
        Simulator),
      - Simulator/parallel_final.h (the pure part of the test harness),
    followed by the properties established about them.

    Modelling conventions.
      - [double] is modelled by the exact rationals [Q]; comparisons are the
        boolean ones of the code.  Rounding, infinities and NaN are outside
        this model.  The module [Double] repeats the engine on the binary64
        values of IEEE 754, where the effect of overflow on a run is
        computed; and the properties that overflow would break are stated
        for generators whose values lie within 2^960, under which every
        time stamp of a run stays within 2^987.
      - [int] counters are modelled by [Z].  A run performs at most
        [MAX_ITERATIONS] = 10^8 loop iterations, each of which increments a
        counter at most once, so no counter leaves the 32-bit range.
      - A thrown C++ exception is a value of [Result]: [Throw e].
      - [std::priority_queue] does not fix the order in which elements of
        equal key leave the queue.  The binary heap is abstracted to the list
        of its elements together with a tie-breaking oracle that selects,
        at every [pop], one of the elements of least key.  Every theorem about
        the simulator is stated for an arbitrary oracle.
      - The values produced by the standard library's random engines and
        distributions are read from a per-generator tape ([Source]); theorems
        quantify over the tape. *)

From Stdlib Require Import ZArith QArith Lqa Lia List Bool.
From Stdlib Require Import SpecFloat.
From stdpp Require Import base option list gmap strings.

(* ===================================================================== *)
(** * Exceptions                                                            *)
(* ===================================================================== *)

Inductive exception : Type :=
| invalid_argument
| out_of_range
| runtime_error.

Inductive Result (A : Type) : Type :=
| Ok (a : A)
| Throw (e : exception).
Arguments Ok {A} a.
Arguments Throw {A} e.

Definition bind {A B : Type} (m : Result A) (k : A -> Result B) : Result B :=
  match m with
  | Ok a => k a
  | Throw e => Throw e
  end.

Notation "'let!' x ':=' m 'in' k" := (bind m (fun x => k))
  (at level 10, x name, m at level 100, k at level 200).

Definition is_Ok {A : Type} (m : Result A) : bool :=
  match m with Ok _ => true | Throw _ => false end.

(* ===================================================================== *)
(** * Comparisons on [double]                                               *)
(* ===================================================================== *)

(** [x < y] *)
Definition Qlt_bool (x y : Q) : bool := negb (Qle_bool y x).

(* ===================================================================== *)
(** * random_generator.h                                                    *)
(* ===================================================================== *)

(** The private random source of a generator object: the engine
    ([std::mt19937_64], seeded from [std::random_device]) together with the
    distribution object it feeds.  [draws n] is the value the [n]-th call
    [distribution_(generator_)] returns and [used] counts the calls made. *)
Record Source : Type := mkSource {
  draws : nat -> Q;
  used : nat
}.

Definition seed (rd : nat -> Q) : Source := mkSource rd 0.

(** One call [distribution_(generator_)]. *)
Definition draw (s : Source) : Q * Source :=
  (draws s (used s), mkSource (draws s) (S (used s))).

Inductive RandomGenerator : Type :=
| ExponentialGenerator (lambda_ : Q) (generator_ : Source)
| UniformGenerator (a_ b_ : Q) (generator_ : Source)
| DeterministicGenerator (value_ : Q)
| ErlangGenerator (k_ : Z) (lambda_ : Q) (generator_ : Source).

(** Constructors, with the checks of the C++ constructors. *)
Definition new_ExponentialGenerator (lambda : Q) (rd : nat -> Q)
  : Result RandomGenerator :=
  if Qle_bool lambda 0 then Throw invalid_argument
  else Ok (ExponentialGenerator lambda (seed rd)).

Definition new_UniformGenerator (a b : Q) (rd : nat -> Q)
  : Result RandomGenerator :=
  if Qle_bool b a then Throw invalid_argument
  else Ok (UniformGenerator a b (seed rd)).

Definition new_DeterministicGenerator (value : Q) : Result RandomGenerator :=
  Ok (DeterministicGenerator value).

Definition new_ErlangGenerator (k : Z) (lambda : Q) (rd : nat -> Q)
  : Result RandomGenerator :=
  if (k <=? 0)%Z then Throw invalid_argument
  else if Qle_bool lambda 0 then Throw invalid_argument
  else Ok (ErlangGenerator k lambda (seed rd)).

(** The loop [for (int i = 0; i < k_; i++) sum += exp_dist_(generator_);]
    of [ErlangGenerator::generate], [n] iterations left. *)
Fixpoint erlang_loop (n : nat) (sum : Q) (s : Source) : Q * Source :=
  match n with
  | O => (sum, s)
  | S n' => let (x, s') := draw s in erlang_loop n' (sum + x)%Q s'
  end.

Definition generate (g : RandomGenerator) : Q * RandomGenerator :=
  match g with
  | ExponentialGenerator lambda s =>
      let (x, s') := draw s in (x, ExponentialGenerator lambda s')
  | UniformGenerator a b s =>
      let (x, s') := draw s in (x, UniformGenerator a b s')
  | DeterministicGenerator v => (v, DeterministicGenerator v)
  | ErlangGenerator k lambda s =>
      let (x, s') := erlang_loop (Z.to_nat k) 0%Q s in
      (x, ErlangGenerator k lambda s')
  end.

Definition mean (g : RandomGenerator) : Q :=
  match g with
  | ExponentialGenerator lambda _ => (1 / lambda)%Q
  | UniformGenerator a b _ => ((a + b) / 2)%Q
  | DeterministicGenerator v => v
  | ErlangGenerator k lambda _ => (inject_Z k / lambda)%Q
  end.

Definition variance (g : RandomGenerator) : Q :=
  match g with
  | ExponentialGenerator lambda _ => (1 / (lambda * lambda))%Q
  | UniformGenerator a b _ => (((b - a) * (b - a)) / 12)%Q
  | DeterministicGenerator _ => 0%Q
  | ErlangGenerator k lambda _ => (inject_Z k / (lambda * lambda))%Q
  end.

(** The first [n] values returned by successive calls of [generate]. *)
Fixpoint samples (n : nat) (g : RandomGenerator) : list Q :=
  match n with
  | O => []
  | S n' => let (x, g') := generate g in x :: samples n' g'
  end.

(** What the C++ standard promises about the values a distribution object
    returns: [std::exponential_distribution] yields non-negative values and
    [std::uniform_real_distribution(a, b)] values of [[a, b)]. *)
Definition conforming (g : RandomGenerator) : Prop :=
  match g with
  | ExponentialGenerator _ s => forall n, (0 <= draws s n)%Q
  | UniformGenerator a b s => forall n, (a <= draws s n)%Q /\ (draws s n < b)%Q
  | DeterministicGenerator _ => True
  | ErlangGenerator _ _ s => forall n, (0 <= draws s n)%Q
  end.

(** [clone()]: a generator of the same class and parameters is constructed
    and seeded from a fresh [std::random_device] ([rd]); then
    [clone->generator_ = generator_] replaces its engine by a copy of the
    engine of this object.  The distribution objects of this header keep no
    state between calls, so the values the clone returns are those of the
    copied engine. *)
Definition clone (g : RandomGenerator) (rd : nat -> Q)
  : Result RandomGenerator :=
  match g with
  | ExponentialGenerator lambda_ generator_ =>
      let! c := new_ExponentialGenerator lambda_ rd in
      match c with
      | ExponentialGenerator l _ => Ok (ExponentialGenerator l generator_)
      | _ => Ok c
      end
  | UniformGenerator a_ b_ generator_ =>
      let! c := new_UniformGenerator a_ b_ rd in
      match c with
      | UniformGenerator a b _ => Ok (UniformGenerator a b generator_)
      | _ => Ok c
      end
  | DeterministicGenerator value_ => new_DeterministicGenerator value_
  | ErlangGenerator k_ lambda_ generator_ =>
      let! c := new_ErlangGenerator k_ lambda_ rd in
      match c with
      | ErlangGenerator k l _ => Ok (ErlangGenerator k l generator_)
      | _ => Ok c
      end
  end.

(** [GeneratorFactory] *)
Definition create_exponential (lambda : Q) (rd : nat -> Q)
  : Result RandomGenerator :=
  new_ExponentialGenerator lambda rd.

Definition create_uniform (a b : Q) (rd : nat -> Q) : Result RandomGenerator :=
  new_UniformGenerator a b rd.

Definition create_deterministic (value : Q) : Result RandomGenerator :=
  new_DeterministicGenerator value.

Definition create_erlang (k : Z) (lambda : Q) (rd : nat -> Q)
  : Result RandomGenerator :=
  new_ErlangGenerator k lambda rd.

(* ===================================================================== *)
(** * distributions.h                                                    *)
(* ===================================================================== *)

Module TestDistributions.
Record DistributionConfig : Type := mkDistributionConfig {
  name : string;
  arrival_gen : RandomGenerator;
  service_gen : RandomGenerator;
  mean_service_time : Q;
  arrival_rate : Q
}.

(** [DistributionCollection::get_all_distributions]; [rd i] is what the
    random device yields for the [i]-th generator constructed. *)
Definition get_all_distributions (lambda : Q) (rd : nat -> nat -> Q)
  : Result (list DistributionConfig) :=
  let mu := 1%Q in
  let! arrival1 := create_exponential lambda (rd 0%nat) in
  let! service1 := create_exponential mu (rd 1%nat) in
  let distributions :=
    [mkDistributionConfig "Exponential (M/M/1)" arrival1 service1 1 lambda] in
  let a := (1 # 2)%Q in
  let b := (3 # 2)%Q in
  let uniform_mean := ((a + b) / 2)%Q in
  let! arrival2 := create_exponential lambda (rd 2%nat) in
  let! service2 := create_uniform a b (rd 3%nat) in
  let distributions :=
    distributions
    ++ [mkDistributionConfig "Uniform [0.5,1.5] (M/U/1)" arrival2 service2
          uniform_mean lambda] in
  let! arrival3 := create_exponential lambda (rd 4%nat) in
  let! service3 := create_deterministic 1 in
  let distributions :=
    distributions
    ++ [mkDistributionConfig "Deterministic (M/D/1)" arrival3 service3 1
          lambda] in
  let k := 2%Z in
  let erlang_lambda := (inject_Z k / mu)%Q in
  let! arrival4 := create_exponential lambda (rd 5%nat) in
  let! service4 := create_erlang k erlang_lambda (rd 6%nat) in
  let distributions :=
    distributions
    ++ [mkDistributionConfig "Erlang(k=2) (M/E2/1)" arrival4 service4 1
          lambda] in
  let! arrival5 := create_exponential lambda (rd 7%nat) in
  let! service5 := create_exponential (3 # 2) (rd 8%nat) in
  let distributions :=
    distributions
    ++ [mkDistributionConfig "Hyper-Exponential (M/H2/1)" arrival5 service5 1
          lambda] in
  Ok distributions.

(** [DistributionCollection::get_exponential] *)
Definition get_exponential (lambda : Q) (rd : nat -> nat -> Q)
  : Result DistributionConfig :=
  let! arrival := create_exponential lambda (rd 0%nat) in
  let! service := create_exponential 1 (rd 1%nat) in
  Ok (mkDistributionConfig "Exponential" arrival service 1 lambda).
End TestDistributions.

(* ===================================================================== *)
(** * std::priority_queue                                                   *)
(* ===================================================================== *)

(** [std::priority_queue<A, std::vector<A>, std::greater<A>>]: [top] is an
    element that is not greater than any other one.  Which of several such
    elements is returned depends on the layout of the heap; [tie] decides it,
    as a function of the number of [pop]s made so far. *)
Record priority_queue (A : Type) : Type := mkPQ {
  elems : list A;
  tie : nat -> nat;
  pops : nat
}.
Arguments mkPQ {A} _ _ _.
Arguments elems {A} _.
Arguments tie {A} _.
Arguments pops {A} _.

Section PriorityQueue.
Context {A : Type}.
(** [operator>] of the element type *)
Variable gt : A -> A -> bool.

Definition pq_new (t : nat -> nat) : priority_queue A := mkPQ [] t 0.

Definition pq_empty (q : priority_queue A) : bool :=
  match elems q with [] => true | _ => false end.

Definition pq_size (q : priority_queue A) : nat := length (elems q).

Definition pq_push (x : A) (q : priority_queue A) : priority_queue A :=
  mkPQ (elems q ++ [x]) (tie q) (pops q).

(** [x] may be at the top of a heap holding [l] *)
Definition is_top (l : list A) (x : A) : bool :=
  forallb (fun y => negb (gt x y)) l.

(** positions of the elements that may be at the top *)
Definition tops (l : list A) : list nat :=
  List.filter (fun i => match l !! i with
                        | Some x => is_top l x
                        | None => false
                        end) (seq 0 (length l)).

(** the position [top()] reads and [pop()] removes *)
Definition pq_choice (q : priority_queue A) : option nat :=
  match tops (elems q) with
  | [] => None
  | i0 :: c => Some (nth (tie q (pops q) mod length (i0 :: c)) (i0 :: c) i0)
  end.

Definition pq_top (q : priority_queue A) : option A :=
  match pq_choice q with
  | Some i => elems q !! i
  | None => None
  end.

Definition pq_pop (q : priority_queue A) : priority_queue A :=
  match pq_choice q with
  | Some i => mkPQ (delete i (elems q)) (tie q) (S (pops q))
  | None => q
  end.

(** [while (!q.empty()) q.pop();] *)
Definition pq_clear (q : priority_queue A) : priority_queue A :=
  mkPQ [] (tie q) (pops q + length (elems q)).
End PriorityQueue.

(** [static_cast<int>] of an unsigned size: reduction to the 32-bit
    two's-complement range. *)
Definition to_int (z : Z) : Z := ((z + 2 ^ 31) mod 2 ^ 32 - 2 ^ 31)%Z.
Arguments to_int : simpl never.

(* ===================================================================== *)
(** * queue_disciplines.h                                                   *)
(* ===================================================================== *)

Module QueueDisciplines.
Section Strategies.
Context {T : Type}.

(** ** FIFOStrategy: a [std::queue<T>], front of the queue first *)
Definition FIFOStrategy : Type := list T.

Definition FIFO_push (item : T) (q : FIFOStrategy) : FIFOStrategy :=
  q ++ [item].

Definition FIFO_pop (q : FIFOStrategy) : Result (T * FIFOStrategy) :=
  match q with
  | [] => Throw runtime_error
  | x :: q' => Ok (x, q')
  end.

(** ** PriorityStrategy *)
Record PriorityItem : Type := mkPriorityItem {
  item : T;
  priority : Z
}.

(** [PriorityItem::operator>] *)
Definition PriorityItem_gt (a b : PriorityItem) : bool :=
  (priority b <? priority a)%Z.

Definition PriorityStrategy : Type := priority_queue PriorityItem.

Definition Priority_push (x : T) (q : PriorityStrategy) : PriorityStrategy :=
  let pitem := mkPriorityItem x (to_int (Z.of_nat (pq_size q))) in
  pq_push pitem q.

Definition Priority_pop (q : PriorityStrategy)
  : Result (T * PriorityStrategy) :=
  if pq_empty q then Throw runtime_error
  else match pq_top PriorityItem_gt q with
       | Some p => Ok (item p, pq_pop PriorityItem_gt q)
       | None => Throw runtime_error
       end.

(** ** RoundRobinStrategy *)
Record RoundRobinStrategy : Type := mkRoundRobin {
  queues_ : list (list T);
  current_queue_ : nat
}.

Definition new_RoundRobinStrategy (num_queues : nat)
  : Result RoundRobinStrategy :=
  if (num_queues =? 0)%nat then Throw invalid_argument
  else Ok (mkRoundRobin (replicate num_queues []) 0).

Definition RoundRobin_push (x : T) (r : RoundRobinStrategy)
  : RoundRobinStrategy :=
  mkRoundRobin (alter (fun q => q ++ [x]) (current_queue_ r) (queues_ r))
               ((current_queue_ r + 1) mod length (queues_ r)).

(** The loop of [pop]: [n] iterations left, loop variable [i]. *)
Fixpoint RoundRobin_scan (n i : nat) (r : RoundRobinStrategy)
  : Result (T * RoundRobinStrategy) :=
  match n with
  | O => Throw runtime_error
  | S n' =>
      let idx := ((current_queue_ r + i) mod length (queues_ r))%nat in
      match queues_ r !! idx with
      | Some (x :: q') =>
          Ok (x, mkRoundRobin (<[idx := q']> (queues_ r))
                              ((idx + 1) mod length (queues_ r)))
      | _ => RoundRobin_scan n' (S i) r
      end
  end.

Definition RoundRobin_pop (r : RoundRobinStrategy)
  : Result (T * RoundRobinStrategy) :=
  RoundRobin_scan (length (queues_ r)) 0 r.

Definition RoundRobin_empty (r : RoundRobinStrategy) : bool :=
  forallb (fun q => match q with [] => true | _ => false end) (queues_ r).

(** ** Schedules of operations and the items their [pop]s return *)
Inductive op : Type :=
| Push (x : T)
| Pop.

Fixpoint FIFO_run (ops : list op) (q : FIFOStrategy) : list (Result T) :=
  match ops with
  | [] => []
  | Push x :: ops' => FIFO_run ops' (FIFO_push x q)
  | Pop :: ops' =>
      match FIFO_pop q with
      | Ok (x, q') => Ok x :: FIFO_run ops' q'
      | Throw e => Throw e :: FIFO_run ops' q
      end
  end.

Fixpoint Priority_run (ops : list op) (q : PriorityStrategy)
  : list (Result T) :=
  match ops with
  | [] => []
  | Push x :: ops' => Priority_run ops' (Priority_push x q)
  | Pop :: ops' =>
      match Priority_pop q with
      | Ok (x, q') => Ok x :: Priority_run ops' q'
      | Throw e => Throw e :: Priority_run ops' q
      end
  end.

(** The items returned by the [pop]s of a schedule, paired with the
    sub-queue each [push] stored its item in. *)
Fixpoint RoundRobin_run (ops : list op) (r : RoundRobinStrategy)
  : list nat * list (Result T) :=
  match ops with
  | [] => ([], [])
  | Push x :: ops' =>
      let (ds, os) := RoundRobin_run ops' (RoundRobin_push x r) in
      (current_queue_ r :: ds, os)
  | Pop :: ops' =>
      match RoundRobin_pop r with
      | Ok (x, r') =>
          let (ds, os) := RoundRobin_run ops' r' in (ds, Ok x :: os)
      | Throw e =>
          let (ds, os) := RoundRobin_run ops' r in (ds, Throw e :: os)
      end
  end.

(** ** The round-robin discipline as the specification words it

    Pushes go to the sub-queues in cyclic order; a pop scans from the
    sub-queue after the one served last (from the first one before any
    pop), returns the front of the first non-empty sub-queue and moves
    past it. *)
Record RoundRobinSpec : Type := mkRoundRobinSpec {
  sub_queues : list (list T);
  push_index : nat;
  scan_index : nat
}.

Definition RoundRobinSpec_new (k : nat) : RoundRobinSpec :=
  mkRoundRobinSpec (replicate k []) 0 0.

Definition RoundRobinSpec_push (x : T) (r : RoundRobinSpec)
  : RoundRobinSpec :=
  mkRoundRobinSpec (alter (fun q => q ++ [x]) (push_index r) (sub_queues r))
                   ((push_index r + 1) mod length (sub_queues r))
                   (scan_index r).

Fixpoint RoundRobinSpec_scan (n i : nat) (r : RoundRobinSpec)
  : Result (T * RoundRobinSpec) :=
  match n with
  | O => Throw runtime_error
  | S n' =>
      let idx := ((scan_index r + i) mod length (sub_queues r))%nat in
      match sub_queues r !! idx with
      | Some (x :: q') =>
          Ok (x, mkRoundRobinSpec (<[idx := q']> (sub_queues r))
                                  (push_index r)
                                  ((idx + 1) mod length (sub_queues r)))
      | _ => RoundRobinSpec_scan n' (S i) r
      end
  end.

Definition RoundRobinSpec_pop (r : RoundRobinSpec)
  : Result (T * RoundRobinSpec) :=
  RoundRobinSpec_scan (length (sub_queues r)) 0 r.

Fixpoint RoundRobinSpec_run (ops : list op) (r : RoundRobinSpec)
  : list nat * list (Result T) :=
  match ops with
  | [] => ([], [])
  | Push x :: ops' =>
      let (ds, os) := RoundRobinSpec_run ops' (RoundRobinSpec_push x r) in
      (push_index r :: ds, os)
  | Pop :: ops' =>
      match RoundRobinSpec_pop r with
      | Ok (x, r') =>
          let (ds, os) := RoundRobinSpec_run ops' r' in (ds, Ok x :: os)
      | Throw e =>
          let (ds, os) := RoundRobinSpec_run ops' r in (ds, Throw e :: os)
      end
  end.
(** ** The other members of the strategies *)

Definition FIFO_empty (q : FIFOStrategy) : bool :=
  match q with [] => true | _ => false end.

Definition FIFO_size (q : FIFOStrategy) : nat := length q.

(** [clone()] makes an empty strategy: the items are not copied *)
Definition FIFO_clone (q : FIFOStrategy) : FIFOStrategy := [].

(** ** LIFOStrategy: a [std::vector<T>] used as a stack, top at the back *)
Definition LIFOStrategy : Type := list T.

Definition LIFO_push (item : T) (stack_ : LIFOStrategy) : LIFOStrategy :=
  stack_ ++ [item].

Definition LIFO_pop (stack_ : LIFOStrategy) : Result (T * LIFOStrategy) :=
  match last stack_ with
  | None => Throw runtime_error
  | Some item => Ok (item, removelast stack_)
  end.

Definition LIFO_empty (stack_ : LIFOStrategy) : bool :=
  match stack_ with [] => true | _ => false end.

Definition LIFO_size (stack_ : LIFOStrategy) : nat := length stack_.

Definition LIFO_clone (stack_ : LIFOStrategy) : LIFOStrategy := [].

(** ** RandomStrategy

    [rng_] is the engine ([std::mt19937], seeded from [std::random_device]):
    [rng_ n] is what the [n]-th call [dist(rng_)] would return on an
    unbounded range, and [rng_used] counts the calls made.  A
    [std::uniform_int_distribution<size_t>(0, size - 1)] returns a value of
    [0 .. size - 1]: the engine's value reduced modulo [size]. *)
Record RandomStrategy : Type := mkRandom {
  items_ : list T;
  rng_ : nat -> nat;
  rng_used : nat
}.

Definition new_RandomStrategy (rd : nat -> nat) : RandomStrategy :=
  mkRandom [] rd 0.

Definition Random_push (x : T) (r : RandomStrategy) : RandomStrategy :=
  mkRandom (items_ r ++ [x]) (rng_ r) (rng_used r).

Definition Random_pop (r : RandomStrategy) : Result (T * RandomStrategy) :=
  match items_ r with
  | [] => Throw runtime_error
  | _ =>
      let idx := (rng_ r (rng_used r) mod length (items_ r))%nat in
      match items_ r !! idx, last (items_ r) with
      | Some x, Some back =>
          Ok (x, mkRandom (removelast (<[idx := back]> (items_ r)))
                          (rng_ r) (S (rng_used r)))
      | _, _ => Throw runtime_error
      end
  end.

Definition Random_empty (r : RandomStrategy) : bool :=
  match items_ r with [] => true | _ => false end.

Definition Random_size (r : RandomStrategy) : nat := length (items_ r).

Definition Random_clone (r : RandomStrategy) (rd : nat -> nat)
  : RandomStrategy :=
  new_RandomStrategy rd.

Definition Priority_empty (q : PriorityStrategy) : bool := pq_empty q.

Definition Priority_size (q : PriorityStrategy) : nat := pq_size q.

Definition Priority_clone (q : PriorityStrategy) (heap : nat -> nat)
  : PriorityStrategy :=
  pq_new heap.

(** The loop [for (const auto& q : queues_) total += q.size();] *)
Definition RoundRobin_size (r : RoundRobinStrategy) : nat :=
  fold_left (fun total q => (total + length q)%nat) (queues_ r) 0%nat.

Definition RoundRobin_clone (r : RoundRobinStrategy)
  : Result (RoundRobinStrategy) :=
  new_RoundRobinStrategy (length (queues_ r)).

(** ** QueueStrategy: the abstract base class, as the sum of its five
    implementations; a call of a virtual member function dispatches on the
    class of the object. *)
Inductive QueueStrategy : Type :=
| of_FIFO (q : FIFOStrategy)
| of_LIFO (q : LIFOStrategy)
| of_Random (q : RandomStrategy)
| of_Priority (q : PriorityStrategy)
| of_RoundRobin (q : RoundRobinStrategy).

Definition QueueStrategy_push (x : T) (s : QueueStrategy) : QueueStrategy :=
  match s with
  | of_FIFO q => of_FIFO (FIFO_push x q)
  | of_LIFO q => of_LIFO (LIFO_push x q)
  | of_Random q => of_Random (Random_push x q)
  | of_Priority q => of_Priority (Priority_push x q)
  | of_RoundRobin q => of_RoundRobin (RoundRobin_push x q)
  end.

Definition QueueStrategy_pop (s : QueueStrategy)
  : Result (T * QueueStrategy) :=
  match s with
  | of_FIFO q => let! r := FIFO_pop q in Ok (fst r, of_FIFO (snd r))
  | of_LIFO q => let! r := LIFO_pop q in Ok (fst r, of_LIFO (snd r))
  | of_Random q => let! r := Random_pop q in Ok (fst r, of_Random (snd r))
  | of_Priority q =>
      let! r := Priority_pop q in Ok (fst r, of_Priority (snd r))
  | of_RoundRobin q =>
      let! r := RoundRobin_pop q in Ok (fst r, of_RoundRobin (snd r))
  end.

Definition QueueStrategy_empty (s : QueueStrategy) : bool :=
  match s with
  | of_FIFO q => FIFO_empty q
  | of_LIFO q => LIFO_empty q
  | of_Random q => Random_empty q
  | of_Priority q => Priority_empty q
  | of_RoundRobin q => RoundRobin_empty q
  end.

Definition QueueStrategy_size (s : QueueStrategy) : nat :=
  match s with
  | of_FIFO q => FIFO_size q
  | of_LIFO q => LIFO_size q
  | of_Random q => Random_size q
  | of_Priority q => Priority_size q
  | of_RoundRobin q => RoundRobin_size q
  end.

Definition QueueStrategy_name (s : QueueStrategy) : string :=
  match s with
  | of_FIFO _ => "FIFO"
  | of_LIFO _ => "LIFO"
  | of_Random _ => "RANDOM"
  | of_Priority _ => "PRIORITY"
  | of_RoundRobin _ => "ROUND_ROBIN"
  end.

(** [rd] and [heap] are what the random device and the heap of the new
    object will yield, where it has one. *)
Definition QueueStrategy_clone (s : QueueStrategy) (rd heap : nat -> nat)
  : Result QueueStrategy :=
  match s with
  | of_FIFO q => Ok (of_FIFO (FIFO_clone q))
  | of_LIFO q => Ok (of_LIFO (LIFO_clone q))
  | of_Random q => Ok (of_Random (Random_clone q rd))
  | of_Priority q => Ok (of_Priority (Priority_clone q heap))
  | of_RoundRobin q => let! r := RoundRobin_clone q in Ok (of_RoundRobin r)
  end.

(** ** QueueStrategyFactory *)
Inductive QueueType : Type := FIFO | LIFO | RANDOM | PRIORITY | ROUND_ROBIN.

Definition create (type : QueueType) (round_robin_queues : nat)
  (rd heap : nat -> nat) : Result QueueStrategy :=
  match type with
  | FIFO => Ok (of_FIFO [])
  | LIFO => Ok (of_LIFO [])
  | RANDOM => Ok (of_Random (new_RandomStrategy rd))
  | PRIORITY => Ok (of_Priority (pq_new heap))
  | ROUND_ROBIN =>
      let! r := new_RoundRobinStrategy round_robin_queues in
      Ok (of_RoundRobin r)
  end.

Definition type_to_string (type : QueueType) : string :=
  match type with
  | FIFO => "FIFO"
  | LIFO => "LIFO"
  | RANDOM => "RANDOM"
  | PRIORITY => "PRIORITY"
  | ROUND_ROBIN => "ROUND_ROBIN"
  end.

Definition get_all_types : list QueueType :=
  [FIFO; LIFO; RANDOM; PRIORITY; ROUND_ROBIN].

Fixpoint LIFO_run (ops : list op) (q : LIFOStrategy)
  : list (Result T) :=
  match ops with
  | [] => []
  | Push x :: ops' => LIFO_run ops' (LIFO_push x q)
  | Pop :: ops' =>
      match LIFO_pop q with
      | Ok (x, q') => Ok x :: LIFO_run ops' q'
      | Throw e => Throw e :: LIFO_run ops' q
      end
  end.
End Strategies.
Arguments FIFOStrategy : clear implicits.
Arguments PriorityItem : clear implicits.
Arguments PriorityStrategy : clear implicits.
Arguments RoundRobinStrategy : clear implicits.
Arguments RoundRobinSpec : clear implicits.
Arguments op : clear implicits.
Arguments LIFOStrategy : clear implicits.
Arguments RandomStrategy : clear implicits.
Arguments QueueStrategy : clear implicits.
End QueueDisciplines.

(* ===================================================================== *)
(** * simulator.h                                                           *)
(* ===================================================================== *)

Record Job : Type := mkJob {
  Job_id : Z;
  arrival_time : Q;
  service_time : Q;
  start_time : Q;
  finish_time : Q
}.

(** [Job()] *)
Definition default_Job : Job := mkJob (-1) 0 0 (-1) (-1).

(** [Job(_id, arrival, service)] *)
Definition new_Job (_id : Z) (arrival service : Q) : Job :=
  mkJob _id arrival service (-1) (-1).

Definition wait_time (j : Job) : Q :=
  if Qle_bool 0 (start_time j) then (start_time j - arrival_time j)%Q else 0%Q.

Definition system_time (j : Job) : Q :=
  if Qle_bool 0 (finish_time j) then (finish_time j - arrival_time j)%Q
  else 0%Q.

Definition set_start_time (t : Q) (j : Job) : Job :=
  mkJob (Job_id j) (arrival_time j) (service_time j) t (finish_time j).

Definition set_finish_time (t : Q) (j : Job) : Job :=
  mkJob (Job_id j) (arrival_time j) (service_time j) (start_time j) t.

Inductive EventType : Type := ARRIVAL | DEPARTURE.

Record Event : Type := mkEvent {
  time : Q;
  type : EventType;
  job_id : Z;
  core_id : Z
}.

(** [Event(t, tp)] *)
Definition Event_of_type (t : Q) (tp : EventType) : Event :=
  mkEvent t tp (-1) (-1).

(** [Event(t, jid, cid)] *)
Definition Event_departure (t : Q) (jid cid : Z) : Event :=
  mkEvent t DEPARTURE jid cid.

(** [Event::operator>] *)
Definition Event_gt (a b : Event) : bool := Qlt_bool (time b) (time a).

(** [FIFOQueue]: a [std::queue<Job>] *)
Definition FIFOQueue : Type := list Job.

Definition FIFOQueue_push (job : Job) (q : FIFOQueue) : FIFOQueue := q ++ [job].

Definition FIFOQueue_pop (q : FIFOQueue) : Result (Job * FIFOQueue) :=
  match q with
  | [] => Throw runtime_error
  | job :: q' => Ok (job, q')
  end.

Definition FIFOQueue_empty (q : FIFOQueue) : bool :=
  match q with [] => true | _ => false end.

Record Simulator : Type := mkSimulator {
  current_time_ : Q;
  jobs_completed_ : Z;
  jobs_lost_ : Z;
  next_job_id_ : Z;
  total_arrivals_ : Z;
  arrival_generator_ : RandomGenerator;
  service_generator_ : RandomGenerator;
  num_cores_ : Z;
  buffer_capacity_ : Z;
  event_queue_ : priority_queue Event;
  job_queue_ : FIFOQueue;
  cores_busy_ : list bool;
  cores_finish_time_ : list Q;
  cores_current_job_ : list Z;
  active_jobs_ : gmap Z Job;
  wait_times_ : list Q;
  system_times_ : list Q;
  total_busy_time_ : Q;
  last_busy_check_time_ : Q;
  (** specification only: the events the main loop has processed since the
      last [initialize], oldest first *)
  history_ : list Event
}.

(** ** Assignments to single data members *)

Definition set_current_time (v : Q) (s : Simulator) : Simulator :=
  mkSimulator v (jobs_completed_ s) (jobs_lost_ s) (next_job_id_ s)
    (total_arrivals_ s) (arrival_generator_ s) (service_generator_ s)
    (num_cores_ s) (buffer_capacity_ s) (event_queue_ s) (job_queue_ s)
    (cores_busy_ s) (cores_finish_time_ s) (cores_current_job_ s)
    (active_jobs_ s) (wait_times_ s) (system_times_ s) (total_busy_time_ s)
    (last_busy_check_time_ s) (history_ s).

Definition set_jobs_completed (v : Z) (s : Simulator) : Simulator :=
  mkSimulator (current_time_ s) v (jobs_lost_ s) (next_job_id_ s)
    (total_arrivals_ s) (arrival_generator_ s) (service_generator_ s)
    (num_cores_ s) (buffer_capacity_ s) (event_queue_ s) (job_queue_ s)
    (cores_busy_ s) (cores_finish_time_ s) (cores_current_job_ s)
    (active_jobs_ s) (wait_times_ s) (system_times_ s) (total_busy_time_ s)
    (last_busy_check_time_ s) (history_ s).

Definition set_jobs_lost (v : Z) (s : Simulator) : Simulator :=
  mkSimulator (current_time_ s) (jobs_completed_ s) v (next_job_id_ s)
    (total_arrivals_ s) (arrival_generator_ s) (service_generator_ s)
    (num_cores_ s) (buffer_capacity_ s) (event_queue_ s) (job_queue_ s)
    (cores_busy_ s) (cores_finish_time_ s) (cores_current_job_ s)
    (active_jobs_ s) (wait_times_ s) (system_times_ s) (total_busy_time_ s)
    (last_busy_check_time_ s) (history_ s).

Definition set_next_job_id (v : Z) (s : Simulator) : Simulator :=
  mkSimulator (current_time_ s) (jobs_completed_ s) (jobs_lost_ s) v
    (total_arrivals_ s) (arrival_generator_ s) (service_generator_ s)
    (num_cores_ s) (buffer_capacity_ s) (event_queue_ s) (job_queue_ s)
    (cores_busy_ s) (cores_finish_time_ s) (cores_current_job_ s)
    (active_jobs_ s) (wait_times_ s) (system_times_ s) (total_busy_time_ s)
    (last_busy_check_time_ s) (history_ s).

Definition set_total_arrivals (v : Z) (s : Simulator) : Simulator :=
  mkSimulator (current_time_ s) (jobs_completed_ s) (jobs_lost_ s)
    (next_job_id_ s) v (arrival_generator_ s) (service_generator_ s)
    (num_cores_ s) (buffer_capacity_ s) (event_queue_ s) (job_queue_ s)
    (cores_busy_ s) (cores_finish_time_ s) (cores_current_job_ s)
    (active_jobs_ s) (wait_times_ s) (system_times_ s) (total_busy_time_ s)
    (last_busy_check_time_ s) (history_ s).

Definition set_arrival_generator (v : RandomGenerator) (s : Simulator)
  : Simulator :=
  mkSimulator (current_time_ s) (jobs_completed_ s) (jobs_lost_ s)
    (next_job_id_ s) (total_arrivals_ s) v (service_generator_ s)
    (num_cores_ s) (buffer_capacity_ s) (event_queue_ s) (job_queue_ s)
    (cores_busy_ s) (cores_finish_time_ s) (cores_current_job_ s)
    (active_jobs_ s) (wait_times_ s) (system_times_ s) (total_busy_time_ s)
    (last_busy_check_time_ s) (history_ s).

Definition set_service_generator (v : RandomGenerator) (s : Simulator)
  : Simulator :=
  mkSimulator (current_time_ s) (jobs_completed_ s) (jobs_lost_ s)
    (next_job_id_ s) (total_arrivals_ s) (arrival_generator_ s) v
    (num_cores_ s) (buffer_capacity_ s) (event_queue_ s) (job_queue_ s)
    (cores_busy_ s) (cores_finish_time_ s) (cores_current_job_ s)
    (active_jobs_ s) (wait_times_ s) (system_times_ s) (total_busy_time_ s)
    (last_busy_check_time_ s) (history_ s).

Definition set_event_queue (v : priority_queue Event) (s : Simulator)
  : Simulator :=
  mkSimulator (current_time_ s) (jobs_completed_ s) (jobs_lost_ s)
    (next_job_id_ s) (total_arrivals_ s) (arrival_generator_ s)
    (service_generator_ s) (num_cores_ s) (buffer_capacity_ s) v
    (job_queue_ s) (cores_busy_ s) (cores_finish_time_ s)
    (cores_current_job_ s) (active_jobs_ s) (wait_times_ s) (system_times_ s)
    (total_busy_time_ s) (last_busy_check_time_ s) (history_ s).

Definition set_job_queue (v : FIFOQueue) (s : Simulator) : Simulator :=
  mkSimulator (current_time_ s) (jobs_completed_ s) (jobs_lost_ s)
    (next_job_id_ s) (total_arrivals_ s) (arrival_generator_ s)
    (service_generator_ s) (num_cores_ s) (buffer_capacity_ s)
    (event_queue_ s) v (cores_busy_ s) (cores_finish_time_ s)
    (cores_current_job_ s) (active_jobs_ s) (wait_times_ s) (system_times_ s)
    (total_busy_time_ s) (last_busy_check_time_ s) (history_ s).

Definition set_cores (busy : list bool) (finish : list Q) (job : list Z)
  (s : Simulator) : Simulator :=
  mkSimulator (current_time_ s) (jobs_completed_ s) (jobs_lost_ s)
    (next_job_id_ s) (total_arrivals_ s) (arrival_generator_ s)
    (service_generator_ s) (num_cores_ s) (buffer_capacity_ s)
    (event_queue_ s) (job_queue_ s) busy finish job
    (active_jobs_ s) (wait_times_ s) (system_times_ s)
    (total_busy_time_ s) (last_busy_check_time_ s) (history_ s).

Definition set_active_jobs (v : gmap Z Job) (s : Simulator) : Simulator :=
  mkSimulator (current_time_ s) (jobs_completed_ s) (jobs_lost_ s)
    (next_job_id_ s) (total_arrivals_ s) (arrival_generator_ s)
    (service_generator_ s) (num_cores_ s) (buffer_capacity_ s)
    (event_queue_ s) (job_queue_ s) (cores_busy_ s) (cores_finish_time_ s)
    (cores_current_job_ s) v (wait_times_ s) (system_times_ s)
    (total_busy_time_ s) (last_busy_check_time_ s) (history_ s).

Definition set_wait_times (v : list Q) (s : Simulator) : Simulator :=
  mkSimulator (current_time_ s) (jobs_completed_ s) (jobs_lost_ s)
    (next_job_id_ s) (total_arrivals_ s) (arrival_generator_ s)
    (service_generator_ s) (num_cores_ s) (buffer_capacity_ s)
    (event_queue_ s) (job_queue_ s) (cores_busy_ s) (cores_finish_time_ s)
    (cores_current_job_ s) (active_jobs_ s) v (system_times_ s)
    (total_busy_time_ s) (last_busy_check_time_ s) (history_ s).

Definition set_system_times (v : list Q) (s : Simulator) : Simulator :=
  mkSimulator (current_time_ s) (jobs_completed_ s) (jobs_lost_ s)
    (next_job_id_ s) (total_arrivals_ s) (arrival_generator_ s)
    (service_generator_ s) (num_cores_ s) (buffer_capacity_ s)
    (event_queue_ s) (job_queue_ s) (cores_busy_ s) (cores_finish_time_ s)
    (cores_current_job_ s) (active_jobs_ s) (wait_times_ s) v
    (total_busy_time_ s) (last_busy_check_time_ s) (history_ s).

Definition set_busy_time (total last : Q) (s : Simulator) : Simulator :=
  mkSimulator (current_time_ s) (jobs_completed_ s) (jobs_lost_ s)
    (next_job_id_ s) (total_arrivals_ s) (arrival_generator_ s)
    (service_generator_ s) (num_cores_ s) (buffer_capacity_ s)
    (event_queue_ s) (job_queue_ s) (cores_busy_ s) (cores_finish_time_ s)
    (cores_current_job_ s) (active_jobs_ s) (wait_times_ s) (system_times_ s)
    total last (history_ s).

Definition set_history (v : list Event) (s : Simulator) : Simulator :=
  mkSimulator (current_time_ s) (jobs_completed_ s) (jobs_lost_ s)
    (next_job_id_ s) (total_arrivals_ s) (arrival_generator_ s)
    (service_generator_ s) (num_cores_ s) (buffer_capacity_ s)
    (event_queue_ s) (job_queue_ s) (cores_busy_ s) (cores_finish_time_ s)
    (cores_current_job_ s) (active_jobs_ s) (wait_times_ s) (system_times_ s)
    (total_busy_time_ s) (last_busy_check_time_ s) v.

(* ===================================================================== *)
(** * simple_simulator/simulator.cpp                                        *)
(* ===================================================================== *)

(** [Simulator::Simulator]; [heap] is the tie-breaking oracle of the event
    queue the object owns. *)
Definition new_Simulator (arrival_gen service_gen : RandomGenerator)
  (num_cores buffer_cap : Z) (heap : nat -> nat) : Result Simulator :=
  if (num_cores <=? 0)%Z then Throw invalid_argument
  else Ok (mkSimulator 0 0 0 0 0 arrival_gen service_gen num_cores buffer_cap
             (pq_new heap) []
             (replicate (Z.to_nat num_cores) false)
             (replicate (Z.to_nat num_cores) 0%Q)
             (replicate (Z.to_nat num_cores) (-1)%Z)
             ∅ [] [] 0 0 []).

Definition initialize (s : Simulator) : Simulator :=
  mkSimulator 0 0 0 0 0 (arrival_generator_ s) (service_generator_ s)
    (num_cores_ s) (buffer_capacity_ s)
    (pq_clear (event_queue_ s)) []
    (replicate (length (cores_busy_ s)) false)
    (replicate (length (cores_finish_time_ s)) 0%Q)
    (replicate (length (cores_current_job_ s)) (-1)%Z)
    ∅ [] [] 0 0 [].

Definition count_busy_cores (s : Simulator) : Z :=
  fold_left (fun count (busy : bool) => if busy then (count + 1)%Z else count)
            (cores_busy_ s) 0%Z.

Definition update_busy_statistics (s : Simulator) : Simulator :=
  if Qlt_bool (last_busy_check_time_ s) (current_time_ s) then
    let time_since_last_check :=
      (current_time_ s - last_busy_check_time_ s)%Q in
    let busy_cores := count_busy_cores s in
    set_busy_time
      (total_busy_time_ s + time_since_last_check * inject_Z busy_cores)%Q
      (current_time_ s) s
  else s.

Definition schedule_next_arrival (s : Simulator) : Simulator :=
  let (interval, g) := generate (arrival_generator_ s) in
  let s := set_arrival_generator g s in
  let arrival_time := (current_time_ s + interval)%Q in
  set_event_queue (pq_push (Event_of_type arrival_time ARRIVAL) (event_queue_ s))
                  s.

Definition schedule_departure (job_id core_id : Z) (service_time : Q)
  (s : Simulator) : Simulator :=
  let departure_time := (current_time_ s + service_time)%Q in
  set_event_queue
    (pq_push (Event_departure departure_time job_id core_id) (event_queue_ s)) s.

(** The loop of [find_free_core]: [n] iterations left, loop variable [i]. *)
Fixpoint find_free_core_loop (n : nat) (i : Z) (busy : list bool) : Z :=
  match n with
  | O => (-1)%Z
  | S n' =>
      match busy !! Z.to_nat i with
      | Some false => i
      | _ => find_free_core_loop n' (i + 1)%Z busy
      end
  end.

Definition find_free_core (s : Simulator) : Z :=
  find_free_core_loop (Z.to_nat (num_cores_ s)) 0%Z (cores_busy_ s).

Definition occupy_core (core_id job_id : Z) (finish_time : Q) (s : Simulator)
  : Result Simulator :=
  if (core_id <? 0)%Z || (num_cores_ s <=? core_id)%Z then Throw out_of_range
  else
    Ok (set_cores (<[Z.to_nat core_id := true]> (cores_busy_ s))
                  (<[Z.to_nat core_id := finish_time]> (cores_finish_time_ s))
                  (<[Z.to_nat core_id := job_id]> (cores_current_job_ s)) s).

Definition release_core (core_id : Z) (s : Simulator) : Result Simulator :=
  if (core_id <? 0)%Z || (num_cores_ s <=? core_id)%Z then Throw out_of_range
  else
    Ok (set_cores (<[Z.to_nat core_id := false]> (cores_busy_ s))
                  (<[Z.to_nat core_id := 0%Q]> (cores_finish_time_ s))
                  (<[Z.to_nat core_id := (-1)%Z]> (cores_current_job_ s)) s).

(** [active_jobs_[key]]: the entry, default-constructed when absent *)
Definition at_key (m : gmap Z Job) (key : Z) : Job :=
  match m !! key with
  | Some job => job
  | None => default_Job
  end.

Definition add_job (job : Job) (s : Simulator) : Simulator :=
  set_active_jobs (<[Job_id job := job]> (active_jobs_ s)) s.

Definition record_wait_time (t : Q) (s : Simulator) : Simulator :=
  set_wait_times (wait_times_ s ++ [t]) s.

Definition record_system_time (t : Q) (s : Simulator) : Simulator :=
  set_system_times (system_times_ s ++ [t]) s.

Definition buffer_full (s : Simulator) : bool :=
  if (buffer_capacity_ s =? -1)%Z then false
  else (buffer_capacity_ s <=? to_int (Z.of_nat (length (job_queue_ s))))%Z.

Definition process_arrival (s : Simulator) : Result Simulator :=
  let s := set_total_arrivals (total_arrivals_ s + 1)%Z s in
  let (service_time, g) := generate (service_generator_ s) in
  let s := set_service_generator g s in
  let new_job := new_Job (next_job_id_ s) (current_time_ s) service_time in
  let s := set_next_job_id (next_job_id_ s + 1)%Z s in
  let s := add_job new_job s in
  let free_core := find_free_core s in
  let! s :=
    (if negb (free_core =? -1)%Z then
       let started :=
         set_start_time (current_time_ s)
                        (at_key (active_jobs_ s) (Job_id new_job)) in
       let s :=
         set_active_jobs (<[Job_id new_job := started]> (active_jobs_ s)) s in
       let! s := occupy_core free_core (Job_id new_job)
                             (current_time_ s + service_time)%Q s in
       Ok (schedule_departure (Job_id new_job) free_core service_time s)
     else if buffer_full s then
       let s := set_jobs_lost (jobs_lost_ s + 1)%Z s in
       Ok (set_active_jobs (delete (Job_id new_job) (active_jobs_ s)) s)
     else
       Ok (set_job_queue (FIFOQueue_push new_job (job_queue_ s)) s)) in
  Ok (schedule_next_arrival s).

Definition process_departure (job_id core_id : Z) (s : Simulator)
  : Result Simulator :=
  match active_jobs_ s !! job_id with
  | None => Ok s
  | Some found =>
      let job := set_finish_time (current_time_ s) found in
      let s := set_active_jobs (<[job_id := job]> (active_jobs_ s)) s in
      let s := record_wait_time (wait_time job) s in
      let s := record_system_time (system_time job) s in
      let! s := release_core core_id s in
      let s := set_jobs_completed (jobs_completed_ s + 1)%Z s in
      let s := set_active_jobs (delete job_id (active_jobs_ s)) s in
      if negb (FIFOQueue_empty (job_queue_ s)) then
        match FIFOQueue_pop (job_queue_ s) with
        | Throw e => Throw e
        | Ok (next_job, q) =>
            let s := set_job_queue q s in
            match active_jobs_ s !! Job_id next_job with
            | Some waiting =>
                let job_to_start := set_start_time (current_time_ s) waiting in
                let s :=
                  set_active_jobs
                    (<[Job_id next_job := job_to_start]> (active_jobs_ s)) s in
                let service_time := service_time job_to_start in
                let! s := occupy_core core_id (Job_id job_to_start)
                                      (current_time_ s + service_time)%Q s in
                Ok (schedule_departure (Job_id job_to_start) core_id
                                       service_time s)
            | None => Ok s
            end
        end
      else Ok s
  end.

(** One iteration of the main loop, after the iteration count was checked.
    [top()] on an empty queue is excluded by the loop condition. *)
Definition loop_body (s : Simulator) : Result Simulator :=
  match pq_top Event_gt (event_queue_ s) with
  | None => Throw runtime_error
  | Some next_event =>
      let s := set_event_queue (pq_pop Event_gt (event_queue_ s)) s in
      let s := set_history (history_ s ++ [next_event]) s in
      let s := set_current_time (time next_event) s in
      let s := update_busy_statistics s in
      match type next_event with
      | ARRIVAL => process_arrival s
      | DEPARTURE =>
          process_departure (job_id next_event) (core_id next_event) s
      end
  end.

Definition MAX_ITERATIONS : Z := 100000000.

(** [while (!event_queue_.empty() && continue) { if (++iteration_count >
    MAX_ITERATIONS) break; ... }] with [fuel] iterations left before the
    [break]. *)
Fixpoint main_loop (continue : Simulator -> bool) (fuel : nat) (s : Simulator)
  : Result Simulator :=
  if negb (pq_empty (event_queue_ s)) && continue s then
    match fuel with
    | O => Ok s
    | S fuel' => let! s' := loop_body s in main_loop continue fuel' s'
    end
  else Ok s.

Definition run (simulation_time : Q) (s : Simulator) : Result Simulator :=
  let s := initialize s in
  let s := schedule_next_arrival s in
  let! s := main_loop (fun s => Qlt_bool (current_time_ s) simulation_time)
                      (Z.to_nat MAX_ITERATIONS) s in
  Ok (update_busy_statistics s).

Definition run_until_jobs (jobs_to_process : Z) (s : Simulator)
  : Result Simulator :=
  let s := initialize s in
  let s := schedule_next_arrival s in
  let! s := main_loop (fun s => (jobs_completed_ s <? jobs_to_process)%Z)
                      (Z.to_nat MAX_ITERATIONS) s in
  Ok (update_busy_statistics s).

(** ** Statistics *)

(** [sum / v.size()] over the loop [for (double time : v) sum += time;] *)
Definition average (v : list Q) : Q :=
  (fold_left Qplus v 0 / inject_Z (Z.of_nat (length v)))%Q.

Definition avg_wait_time (s : Simulator) : Q :=
  match wait_times_ s with
  | [] => 0%Q
  | _ => average (wait_times_ s)
  end.

Definition avg_system_time (s : Simulator) : Q :=
  match system_times_ s with
  | [] => 0%Q
  | _ => average (system_times_ s)
  end.




Definition loss_probability (s : Simulator) : Q :=
  if (total_arrivals_ s =? 0)%Z then 0%Q
  else (inject_Z (jobs_lost_ s) / inject_Z (total_arrivals_ s))%Q.

(** ** Getters *)

Definition current_time (s : Simulator) : Q := current_time_ s.
Definition jobs_completed (s : Simulator) : Z := jobs_completed_ s.
Definition jobs_lost (s : Simulator) : Z := jobs_lost_ s.
Definition total_arrivals (s : Simulator) : Z := total_arrivals_ s.
Definition jobs_in_system (s : Simulator) : Z :=
  to_int (Z.of_nat (size (active_jobs_ s))).
Definition queue_length (s : Simulator) : Z :=
  to_int (Z.of_nat (length (job_queue_ s))).
Definition is_server_busy (s : Simulator) : bool :=
  (0 <? count_busy_cores s)%Z.

(** ** Further statistics *)

(** [*std::min_element(first, last)] on a non-empty range whose first
    element is [smallest] and whose other elements are [l]: the first least
    element for [<]. *)
Fixpoint min_element (smallest : Q) (l : list Q) : Q :=
  match l with
  | [] => smallest
  | x :: l' => min_element (if Qlt_bool x smallest then x else smallest) l'
  end.

Definition min_wait_time (s : Simulator) : Q :=
  match wait_times_ s with
  | [] => 0%Q
  | first :: rest => min_element first rest
  end.

(* ===================================================================== *)
(** * Simulator/parallel_final.h                                         *)
(* ===================================================================== *)

(** [ParallelFinal::string_to_queue_type] of parallel_final.h *)
Definition string_to_queue_type (str : string) : QueueDisciplines.QueueType :=
  if String.eqb str "FIFO" then QueueDisciplines.FIFO
  else if String.eqb str "LIFO" then QueueDisciplines.LIFO
  else if String.eqb str "RANDOM" || String.eqb str "RAND"
       then QueueDisciplines.RANDOM
  else if String.eqb str "PRIORITY" then QueueDisciplines.PRIORITY
  else if String.eqb str "ROUND_ROBIN" || String.eqb str "RoundRobin"
       then QueueDisciplines.ROUND_ROBIN
  else QueueDisciplines.FIFO.

(* ===================================================================== *)
(** * The engine on IEEE 754 doubles                                        *)
(* ===================================================================== *)

(** The embedding above computes with exact rationals.  This module is the
    same code with [double] as the binary64 format of IEEE 754, rounding to
    nearest (ties to even), infinities and NaN included, so that the effect
    of overflow on a run can be computed. *)
Module Double.

Definition double : Type := spec_float.

Definition prec : Z := 53.
Definition emax : Z := 1024.

Definition add : double -> double -> double := SFadd prec emax.
Definition sub : double -> double -> double := SFsub prec emax.
Definition mul : double -> double -> double := SFmul prec emax.
Definition div : double -> double -> double := SFdiv prec emax.
Definition abs : double -> double := SFabs.
Definition ltb : double -> double -> bool := SFltb.
Definition leb : double -> double -> bool := SFleb.
Definition eqb : double -> double -> bool := SFeqb.

(** The conversion of an integer to [double] *)
Definition of_int (z : Z) : double := binary_normalize prec emax z 0 false.

Definition zero : double := S754_zero false.
Definition one : double := Eval vm_compute in of_int 1.
Definition minus_one : double := Eval vm_compute in of_int (-1).
Definition infinity : double := S754_infinity false.
Definition nan : double := S754_nan.

(** [x] is neither infinite nor NaN *)
Definition is_finite (x : double) : bool :=
  match x with
  | S754_zero _ => true
  | S754_finite _ _ _ => true
  | _ => false
  end.

(** ** random_generator.h *)

Record Source : Type := mkSource {
  draws : nat -> double;
  used : nat
}.

Definition seed (rd : nat -> double) : Source := mkSource rd 0.

Definition draw (s : Source) : double * Source :=
  (draws s (used s), mkSource (draws s) (S (used s))).

Inductive RandomGenerator : Type :=
| ExponentialGenerator (lambda_ : double) (generator_ : Source)
| UniformGenerator (a_ b_ : double) (generator_ : Source)
| DeterministicGenerator (value_ : double)
| ErlangGenerator (k_ : Z) (lambda_ : double) (generator_ : Source).

Fixpoint erlang_loop (n : nat) (sum : double) (s : Source)
  : double * Source :=
  match n with
  | O => (sum, s)
  | S n' => let (x, s') := draw s in erlang_loop n' (add sum x) s'
  end.

Definition generate (g : RandomGenerator) : double * RandomGenerator :=
  match g with
  | ExponentialGenerator lambda s =>
      let (x, s') := draw s in (x, ExponentialGenerator lambda s')
  | UniformGenerator a b s =>
      let (x, s') := draw s in (x, UniformGenerator a b s')
  | DeterministicGenerator v => (v, DeterministicGenerator v)
  | ErlangGenerator k lambda s =>
      let (x, s') := erlang_loop (Z.to_nat k) zero s in
      (x, ErlangGenerator k lambda s')
  end.

Definition mean (g : RandomGenerator) : double :=
  match g with
  | ExponentialGenerator lambda _ => div one lambda
  | UniformGenerator a b _ => div (add a b) (of_int 2)
  | DeterministicGenerator v => v
  | ErlangGenerator k lambda _ => div (of_int k) lambda
  end.

(** ** simulator.h *)

Record Job : Type := mkJob {
  Job_id : Z;
  arrival_time : double;
  service_time : double;
  start_time : double;
  finish_time : double
}.

(** [Job()] *)
Definition default_Job : Job := mkJob (-1) zero zero minus_one minus_one.

(** [Job(_id, arrival, service)] *)
Definition new_Job (_id : Z) (arrival service : double) : Job :=
  mkJob _id arrival service minus_one minus_one.

Definition wait_time (j : Job) : double :=
  if leb zero (start_time j) then sub (start_time j) (arrival_time j)
  else zero.

Definition system_time (j : Job) : double :=
  if leb zero (finish_time j) then sub (finish_time j) (arrival_time j)
  else zero.

Definition set_start_time (t : double) (j : Job) : Job :=
  mkJob (Job_id j) (arrival_time j) (service_time j) t (finish_time j).

Definition set_finish_time (t : double) (j : Job) : Job :=
  mkJob (Job_id j) (arrival_time j) (service_time j) (start_time j) t.

Record Event : Type := mkEvent {
  time : double;
  type : EventType;
  job_id : Z;
  core_id : Z
}.

(** [Event(t, tp)] *)
Definition Event_of_type (t : double) (tp : EventType) : Event :=
  mkEvent t tp (-1) (-1).

(** [Event(t, jid, cid)] *)
Definition Event_departure (t : double) (jid cid : Z) : Event :=
  mkEvent t DEPARTURE jid cid.

(** [Event::operator>] *)
Definition Event_gt (a b : Event) : bool := ltb (time b) (time a).

(** [FIFOQueue]: a [std::queue<Job>] *)
Definition FIFOQueue : Type := list Job.

Definition FIFOQueue_push (job : Job) (q : FIFOQueue) : FIFOQueue := q ++ [job].

Definition FIFOQueue_pop (q : FIFOQueue) : Result (Job * FIFOQueue) :=
  match q with
  | [] => Throw runtime_error
  | job :: q' => Ok (job, q')
  end.

Definition FIFOQueue_empty (q : FIFOQueue) : bool :=
  match q with [] => true | _ => false end.

Record Simulator : Type := mkSimulator {
  current_time_ : double;
  jobs_completed_ : Z;
  jobs_lost_ : Z;
  next_job_id_ : Z;
  total_arrivals_ : Z;
  arrival_generator_ : RandomGenerator;
  service_generator_ : RandomGenerator;
  num_cores_ : Z;
  buffer_capacity_ : Z;
  event_queue_ : priority_queue Event;
  job_queue_ : FIFOQueue;
  cores_busy_ : list bool;
  cores_finish_time_ : list double;
  cores_current_job_ : list Z;
  active_jobs_ : gmap Z Job;
  wait_times_ : list double;
  system_times_ : list double;
  total_busy_time_ : double;
  last_busy_check_time_ : double;
  (** specification only: the events the main loop has processed since the
      last [initialize], oldest first *)
  history_ : list Event
}.

(** ** Assignments to single data members *)

Definition set_current_time (v : double) (s : Simulator) : Simulator :=
  mkSimulator v (jobs_completed_ s) (jobs_lost_ s) (next_job_id_ s)
    (total_arrivals_ s) (arrival_generator_ s) (service_generator_ s)
    (num_cores_ s) (buffer_capacity_ s) (event_queue_ s) (job_queue_ s)
    (cores_busy_ s) (cores_finish_time_ s) (cores_current_job_ s)
    (active_jobs_ s) (wait_times_ s) (system_times_ s) (total_busy_time_ s)
    (last_busy_check_time_ s) (history_ s).

Definition set_jobs_completed (v : Z) (s : Simulator) : Simulator :=
  mkSimulator (current_time_ s) v (jobs_lost_ s) (next_job_id_ s)
    (total_arrivals_ s) (arrival_generator_ s) (service_generator_ s)
    (num_cores_ s) (buffer_capacity_ s) (event_queue_ s) (job_queue_ s)
    (cores_busy_ s) (cores_finish_time_ s) (cores_current_job_ s)
    (active_jobs_ s) (wait_times_ s) (system_times_ s) (total_busy_time_ s)
    (last_busy_check_time_ s) (history_ s).

Definition set_jobs_lost (v : Z) (s : Simulator) : Simulator :=
  mkSimulator (current_time_ s) (jobs_completed_ s) v (next_job_id_ s)
    (total_arrivals_ s) (arrival_generator_ s) (service_generator_ s)
    (num_cores_ s) (buffer_capacity_ s) (event_queue_ s) (job_queue_ s)
    (cores_busy_ s) (cores_finish_time_ s) (cores_current_job_ s)
    (active_jobs_ s) (wait_times_ s) (system_times_ s) (total_busy_time_ s)
    (last_busy_check_time_ s) (history_ s).

Definition set_next_job_id (v : Z) (s : Simulator) : Simulator :=
  mkSimulator (current_time_ s) (jobs_completed_ s) (jobs_lost_ s) v
    (total_arrivals_ s) (arrival_generator_ s) (service_generator_ s)
    (num_cores_ s) (buffer_capacity_ s) (event_queue_ s) (job_queue_ s)
    (cores_busy_ s) (cores_finish_time_ s) (cores_current_job_ s)
    (active_jobs_ s) (wait_times_ s) (system_times_ s) (total_busy_time_ s)
    (last_busy_check_time_ s) (history_ s).

Definition set_total_arrivals (v : Z) (s : Simulator) : Simulator :=
  mkSimulator (current_time_ s) (jobs_completed_ s) (jobs_lost_ s)
    (next_job_id_ s) v (arrival_generator_ s) (service_generator_ s)
    (num_cores_ s) (buffer_capacity_ s) (event_queue_ s) (job_queue_ s)
    (cores_busy_ s) (cores_finish_time_ s) (cores_current_job_ s)
    (active_jobs_ s) (wait_times_ s) (system_times_ s) (total_busy_time_ s)
    (last_busy_check_time_ s) (history_ s).

Definition set_arrival_generator (v : RandomGenerator) (s : Simulator)
  : Simulator :=
  mkSimulator (current_time_ s) (jobs_completed_ s) (jobs_lost_ s)
    (next_job_id_ s) (total_arrivals_ s) v (service_generator_ s)
    (num_cores_ s) (buffer_capacity_ s) (event_queue_ s) (job_queue_ s)
    (cores_busy_ s) (cores_finish_time_ s) (cores_current_job_ s)
    (active_jobs_ s) (wait_times_ s) (system_times_ s) (total_busy_time_ s)
    (last_busy_check_time_ s) (history_ s).

Definition set_service_generator (v : RandomGenerator) (s : Simulator)
  : Simulator :=
  mkSimulator (current_time_ s) (jobs_completed_ s) (jobs_lost_ s)
    (next_job_id_ s) (total_arrivals_ s) (arrival_generator_ s) v
    (num_cores_ s) (buffer_capacity_ s) (event_queue_ s) (job_queue_ s)
    (cores_busy_ s) (cores_finish_time_ s) (cores_current_job_ s)
    (active_jobs_ s) (wait_times_ s) (system_times_ s) (total_busy_time_ s)
    (last_busy_check_time_ s) (history_ s).

Definition set_event_queue (v : priority_queue Event) (s : Simulator)
  : Simulator :=
  mkSimulator (current_time_ s) (jobs_completed_ s) (jobs_lost_ s)
    (next_job_id_ s) (total_arrivals_ s) (arrival_generator_ s)
    (service_generator_ s) (num_cores_ s) (buffer_capacity_ s) v
    (job_queue_ s) (cores_busy_ s) (cores_finish_time_ s)
    (cores_current_job_ s) (active_jobs_ s) (wait_times_ s) (system_times_ s)
    (total_busy_time_ s) (last_busy_check_time_ s) (history_ s).

Definition set_job_queue (v : FIFOQueue) (s : Simulator) : Simulator :=
  mkSimulator (current_time_ s) (jobs_completed_ s) (jobs_lost_ s)
    (next_job_id_ s) (total_arrivals_ s) (arrival_generator_ s)
    (service_generator_ s) (num_cores_ s) (buffer_capacity_ s)
    (event_queue_ s) v (cores_busy_ s) (cores_finish_time_ s)
    (cores_current_job_ s) (active_jobs_ s) (wait_times_ s) (system_times_ s)
    (total_busy_time_ s) (last_busy_check_time_ s) (history_ s).

Definition set_cores (busy : list bool) (finish : list double) (job : list Z)
  (s : Simulator) : Simulator :=
  mkSimulator (current_time_ s) (jobs_completed_ s) (jobs_lost_ s)
    (next_job_id_ s) (total_arrivals_ s) (arrival_generator_ s)
    (service_generator_ s) (num_cores_ s) (buffer_capacity_ s)
    (event_queue_ s) (job_queue_ s) busy finish job
    (active_jobs_ s) (wait_times_ s) (system_times_ s)
    (total_busy_time_ s) (last_busy_check_time_ s) (history_ s).

Definition set_active_jobs (v : gmap Z Job) (s : Simulator) : Simulator :=
  mkSimulator (current_time_ s) (jobs_completed_ s) (jobs_lost_ s)
    (next_job_id_ s) (total_arrivals_ s) (arrival_generator_ s)
    (service_generator_ s) (num_cores_ s) (buffer_capacity_ s)
    (event_queue_ s) (job_queue_ s) (cores_busy_ s) (cores_finish_time_ s)
    (cores_current_job_ s) v (wait_times_ s) (system_times_ s)
    (total_busy_time_ s) (last_busy_check_time_ s) (history_ s).

Definition set_wait_times (v : list double) (s : Simulator) : Simulator :=
  mkSimulator (current_time_ s) (jobs_completed_ s) (jobs_lost_ s)
    (next_job_id_ s) (total_arrivals_ s) (arrival_generator_ s)
    (service_generator_ s) (num_cores_ s) (buffer_capacity_ s)
    (event_queue_ s) (job_queue_ s) (cores_busy_ s) (cores_finish_time_ s)
    (cores_current_job_ s) (active_jobs_ s) v (system_times_ s)
    (total_busy_time_ s) (last_busy_check_time_ s) (history_ s).

Definition set_system_times (v : list double) (s : Simulator) : Simulator :=
  mkSimulator (current_time_ s) (jobs_completed_ s) (jobs_lost_ s)
    (next_job_id_ s) (total_arrivals_ s) (arrival_generator_ s)
    (service_generator_ s) (num_cores_ s) (buffer_capacity_ s)
    (event_queue_ s) (job_queue_ s) (cores_busy_ s) (cores_finish_time_ s)
    (cores_current_job_ s) (active_jobs_ s) (wait_times_ s) v
    (total_busy_time_ s) (last_busy_check_time_ s) (history_ s).

Definition set_busy_time (total last : double) (s : Simulator) : Simulator :=
  mkSimulator (current_time_ s) (jobs_completed_ s) (jobs_lost_ s)
    (next_job_id_ s) (total_arrivals_ s) (arrival_generator_ s)
    (service_generator_ s) (num_cores_ s) (buffer_capacity_ s)
    (event_queue_ s) (job_queue_ s) (cores_busy_ s) (cores_finish_time_ s)
    (cores_current_job_ s) (active_jobs_ s) (wait_times_ s) (system_times_ s)
    total last (history_ s).

Definition set_history (v : list Event) (s : Simulator) : Simulator :=
  mkSimulator (current_time_ s) (jobs_completed_ s) (jobs_lost_ s)
    (next_job_id_ s) (total_arrivals_ s) (arrival_generator_ s)
    (service_generator_ s) (num_cores_ s) (buffer_capacity_ s)
    (event_queue_ s) (job_queue_ s) (cores_busy_ s) (cores_finish_time_ s)
    (cores_current_job_ s) (active_jobs_ s) (wait_times_ s) (system_times_ s)
    (total_busy_time_ s) (last_busy_check_time_ s) v.

Definition new_Simulator (arrival_gen service_gen : RandomGenerator)
  (num_cores buffer_cap : Z) (heap : nat -> nat) : Result Simulator :=
  if (num_cores <=? 0)%Z then Throw invalid_argument
  else Ok (mkSimulator zero 0 0 0 0 arrival_gen service_gen num_cores buffer_cap
             (pq_new heap) []
             (replicate (Z.to_nat num_cores) false)
             (replicate (Z.to_nat num_cores) zero)
             (replicate (Z.to_nat num_cores) (-1)%Z)
             ∅ [] [] zero zero []).

Definition initialize (s : Simulator) : Simulator :=
  mkSimulator zero 0 0 0 0 (arrival_generator_ s) (service_generator_ s)
    (num_cores_ s) (buffer_capacity_ s)
    (pq_clear (event_queue_ s)) []
    (replicate (length (cores_busy_ s)) false)
    (replicate (length (cores_finish_time_ s)) zero)
    (replicate (length (cores_current_job_ s)) (-1)%Z)
    ∅ [] [] zero zero [].

Definition count_busy_cores (s : Simulator) : Z :=
  fold_left (fun count (busy : bool) => if busy then (count + 1)%Z else count)
            (cores_busy_ s) 0%Z.

Definition update_busy_statistics (s : Simulator) : Simulator :=
  if ltb (last_busy_check_time_ s) (current_time_ s) then
    let time_since_last_check :=
      sub (current_time_ s) (last_busy_check_time_ s) in
    let busy_cores := count_busy_cores s in
    set_busy_time
      (add (total_busy_time_ s)
           (mul time_since_last_check (of_int busy_cores)))
      (current_time_ s) s
  else s.

Definition schedule_next_arrival (s : Simulator) : Simulator :=
  let (interval, g) := generate (arrival_generator_ s) in
  let s := set_arrival_generator g s in
  let arrival_time := add (current_time_ s) interval in
  set_event_queue (pq_push (Event_of_type arrival_time ARRIVAL) (event_queue_ s))
                  s.

Definition schedule_departure (job_id core_id : Z) (service_time : double)
  (s : Simulator) : Simulator :=
  let departure_time := add (current_time_ s) service_time in
  set_event_queue
    (pq_push (Event_departure departure_time job_id core_id) (event_queue_ s)) s.

Definition find_free_core (s : Simulator) : Z :=
  find_free_core_loop (Z.to_nat (num_cores_ s)) 0%Z (cores_busy_ s).

Definition occupy_core (core_id job_id : Z) (finish_time : double)
  (s : Simulator) : Result Simulator :=
  if (core_id <? 0)%Z || (num_cores_ s <=? core_id)%Z then Throw out_of_range
  else
    Ok (set_cores (<[Z.to_nat core_id := true]> (cores_busy_ s))
                  (<[Z.to_nat core_id := finish_time]> (cores_finish_time_ s))
                  (<[Z.to_nat core_id := job_id]> (cores_current_job_ s)) s).

Definition release_core (core_id : Z) (s : Simulator) : Result Simulator :=
  if (core_id <? 0)%Z || (num_cores_ s <=? core_id)%Z then Throw out_of_range
  else
    Ok (set_cores (<[Z.to_nat core_id := false]> (cores_busy_ s))
                  (<[Z.to_nat core_id := zero]> (cores_finish_time_ s))
                  (<[Z.to_nat core_id := (-1)%Z]> (cores_current_job_ s)) s).

(** [active_jobs_[key]]: the entry, default-constructed when absent *)
Definition at_key (m : gmap Z Job) (key : Z) : Job :=
  match m !! key with
  | Some job => job
  | None => default_Job
  end.

Definition add_job (job : Job) (s : Simulator) : Simulator :=
  set_active_jobs (<[Job_id job := job]> (active_jobs_ s)) s.

Definition record_wait_time (t : double) (s : Simulator) : Simulator :=
  set_wait_times (wait_times_ s ++ [t]) s.

Definition record_system_time (t : double) (s : Simulator) : Simulator :=
  set_system_times (system_times_ s ++ [t]) s.

Definition buffer_full (s : Simulator) : bool :=
  if (buffer_capacity_ s =? -1)%Z then false
  else (buffer_capacity_ s <=? to_int (Z.of_nat (length (job_queue_ s))))%Z.

Definition process_arrival (s : Simulator) : Result Simulator :=
  let s := set_total_arrivals (total_arrivals_ s + 1)%Z s in
  let (service_time, g) := generate (service_generator_ s) in
  let s := set_service_generator g s in
  let new_job := new_Job (next_job_id_ s) (current_time_ s) service_time in
  let s := set_next_job_id (next_job_id_ s + 1)%Z s in
  let s := add_job new_job s in
  let free_core := find_free_core s in
  let! s :=
    (if negb (free_core =? -1)%Z then
       let started :=
         set_start_time (current_time_ s)
                        (at_key (active_jobs_ s) (Job_id new_job)) in
       let s :=
         set_active_jobs (<[Job_id new_job := started]> (active_jobs_ s)) s in
       let! s := occupy_core free_core (Job_id new_job)
                             (add (current_time_ s) service_time) s in
       Ok (schedule_departure (Job_id new_job) free_core service_time s)
     else if buffer_full s then
       let s := set_jobs_lost (jobs_lost_ s + 1)%Z s in
       Ok (set_active_jobs (delete (Job_id new_job) (active_jobs_ s)) s)
     else
       Ok (set_job_queue (FIFOQueue_push new_job (job_queue_ s)) s)) in
  Ok (schedule_next_arrival s).

Definition process_departure (job_id core_id : Z) (s : Simulator)
  : Result Simulator :=
  match active_jobs_ s !! job_id with
  | None => Ok s
  | Some found =>
      let job := set_finish_time (current_time_ s) found in
      let s := set_active_jobs (<[job_id := job]> (active_jobs_ s)) s in
      let s := record_wait_time (wait_time job) s in
      let s := record_system_time (system_time job) s in
      let! s := release_core core_id s in
      let s := set_jobs_completed (jobs_completed_ s + 1)%Z s in
      let s := set_active_jobs (delete job_id (active_jobs_ s)) s in
      if negb (FIFOQueue_empty (job_queue_ s)) then
        match FIFOQueue_pop (job_queue_ s) with
        | Throw e => Throw e
        | Ok (next_job, q) =>
            let s := set_job_queue q s in
            match active_jobs_ s !! Job_id next_job with
            | Some waiting =>
                let job_to_start := set_start_time (current_time_ s) waiting in
                let s :=
                  set_active_jobs
                    (<[Job_id next_job := job_to_start]> (active_jobs_ s)) s in
                let service_time := service_time job_to_start in
                let! s := occupy_core core_id (Job_id job_to_start)
                                      (add (current_time_ s) service_time) s in
                Ok (schedule_departure (Job_id job_to_start) core_id
                                       service_time s)
            | None => Ok s
            end
        end
      else Ok s
  end.

(** One iteration of the main loop, after the iteration count was checked.
    [top()] on an empty queue is excluded by the loop condition. *)
Definition loop_body (s : Simulator) : Result Simulator :=
  match pq_top Event_gt (event_queue_ s) with
  | None => Throw runtime_error
  | Some next_event =>
      let s := set_event_queue (pq_pop Event_gt (event_queue_ s)) s in
      let s := set_history (history_ s ++ [next_event]) s in
      let s := set_current_time (time next_event) s in
      let s := update_busy_statistics s in
      match type next_event with
      | ARRIVAL => process_arrival s
      | DEPARTURE =>
          process_departure (job_id next_event) (core_id next_event) s
      end
  end.

(** [while (!event_queue_.empty() && continue) { if (++iteration_count >
    MAX_ITERATIONS) break; ... }] with [fuel] iterations left before the
    [break]. *)
Fixpoint main_loop (continue : Simulator -> bool) (fuel : nat) (s : Simulator)
  : Result Simulator :=
  if negb (pq_empty (event_queue_ s)) && continue s then
    match fuel with
    | O => Ok s
    | S fuel' => let! s' := loop_body s in main_loop continue fuel' s'
    end
  else Ok s.

Definition run (simulation_time : double) (s : Simulator) : Result Simulator :=
  let s := initialize s in
  let s := schedule_next_arrival s in
  let! s := main_loop (fun s => ltb (current_time_ s) simulation_time)
                      (Z.to_nat MAX_ITERATIONS) s in
  Ok (update_busy_statistics s).

Definition run_until_jobs (jobs_to_process : Z) (s : Simulator)
  : Result Simulator :=
  let s := initialize s in
  let s := schedule_next_arrival s in
  let! s := main_loop (fun s => (jobs_completed_ s <? jobs_to_process)%Z)
                      (Z.to_nat MAX_ITERATIONS) s in
  Ok (update_busy_statistics s).

(** ** Statistics *)

(** [sum / v.size()] over the loop [for (double time : v) sum += time;] *)
Definition average (v : list double) : double :=
  div (fold_left add v zero) (of_int (Z.of_nat (length v))).

Definition avg_wait_time (s : Simulator) : double :=
  match wait_times_ s with
  | [] => zero
  | _ => average (wait_times_ s)
  end.

Definition avg_system_time (s : Simulator) : double :=
  match system_times_ s with
  | [] => zero
  | _ => average (system_times_ s)
  end.

(** [avg_queue_length()] *)
Definition avg_queue_length (s : Simulator) : double :=
  if eqb (current_time_ s) zero then zero
  else
    let arrival_intensity := div one (mean (arrival_generator_ s)) in
    mul arrival_intensity (avg_wait_time s).

(** [std::max(a, b)]: [(a < b) ? b : a] *)
Definition max (a b : double) : double := if ltb a b then b else a.

(** The literals [0.001] and [100] *)
Definition thousandth : double := Eval vm_compute in div one (of_int 1000).
Definition hundred : double := Eval vm_compute in of_int 100.

(** The three numbers [print_statistics] prints under the heading of
    Little's formula: [lambdaW], [L_approx] and the deviation in per cent,
    [abs(L_approx - lambdaW) / max(L_approx, 0.001) * 100]. *)
Definition little_check (s : Simulator) : double * double * double :=
  let arrival_intensity := div one (mean (arrival_generator_ s)) in
  let lambdaW := mul arrival_intensity (avg_wait_time s) in
  let L_approx := avg_queue_length s in
  (lambdaW, L_approx,
   mul (div (abs (sub L_approx lambdaW)) (max L_approx thousandth)) hundred).

End Double.

(* ===================================================================== *)
(** * Vocabulary of the statements                                          *)
(* ===================================================================== *)

Import QueueDisciplines.
Import TestDistributions.

(** The greatest lower bound the code guarantees for the values of a
    generator. *)
Definition lower_bound (g : RandomGenerator) : Q :=
  match g with
  | ExponentialGenerator _ _ => 0
  | UniformGenerator a _ _ => a
  | DeterministicGenerator v => v
  | ErlangGenerator _ _ _ => 0
  end.

(** Two generator objects of the same distribution and parameters. *)
Definition same_distribution (g g' : RandomGenerator) : Prop :=
  match g, g' with
  | ExponentialGenerator l _, ExponentialGenerator l' _ => l' = l
  | UniformGenerator a b _, UniformGenerator a' b' _ => a' = a /\ b' = b
  | DeterministicGenerator v, DeterministicGenerator v' => v' = v
  | ErlangGenerator k l _, ErlangGenerator k' l' _ => k' = k /\ l' = l
  | _, _ => False
  end.

(** The sample variance as the specification words it. *)
Definition Qsum (v : list Q) : Q := fold_right Qplus 0%Q v.

Definition arithmetic_mean (v : list Q) : Q :=
  (Qsum v / inject_Z (Z.of_nat (length v)))%Q.



(** A schedule on which the code and the worded discipline part ways. *)
Definition interleaved_schedule : list (op nat) :=
  [Push 1; Push 2; Push 3; Push 4; Pop; Push 5; Pop]%nat.

(** A schedule on which the priority discipline is not first-in first-out:
    item 4 is pushed when one item is buffered and so gets key 1, below the
    key 2 of item 3, which was pushed earlier and is still waiting. *)
Definition refill_schedule : list (op nat) :=
  [Push 1; Push 2; Push 3; Pop; Pop; Push 4; Pop]%nat.

(** Schedules in which no [Push] follows a [Pop] that left items buffered,
    until the buffer has run empty again.  [n] items are buffered, and
    [popped] tells whether one was popped since the buffer was last empty. *)
Fixpoint batched {T : Type} (n : nat) (popped : bool) (ops : list (op T))
  : bool :=
  match ops with
  | [] => true
  | Push _ :: ops' => negb popped && batched (S n) false ops'
  | Pop :: ops' =>
      match n with
      | O => batched O false ops'
      | S n' => batched n' (negb (n' =? 0)%nat) ops'
      end
  end.

(** The buffered items [ps] hold the items [f], oldest first, under the
    consecutive keys [lo], [lo + 1], ... *)
Fixpoint keyed {T : Type} (lo : Z) (ps : list (PriorityItem T)) (f : list T)
  : Prop :=
  match ps, f with
  | [], [] => True
  | p :: ps', x :: f' => item p = x /\ priority p = lo /\ keyed (lo + 1) ps' f'
  | _, _ => False
  end.

#[global] Instance EventType_eq_dec : EqDecision EventType.
Proof. solve_decision. Defined.

(** The departure events among the events of a timeline. *)
Definition departures (l : list Event) : list Event :=
  filter (fun e => type e = DEPARTURE) l.

Definition pending_departures (s : Simulator) : list Event :=
  departures (elems (event_queue_ s)).

Definition count_true (l : list bool) : Z :=
  fold_left (fun count (busy : bool) => if busy then (count + 1)%Z else count)
            l 0%Z.

(** The state of servers, buffer, job table and counters agrees with the
    departure events [D] that are due. *)
Record bookkeeping (D : list Event) (s : Simulator) : Prop := mkBookkeeping {
  bk_cores : (0 < num_cores_ s)%Z;
  bk_busy_length : length (cores_busy_ s) = Z.to_nat (num_cores_ s);
  bk_keys : forall k j, active_jobs_ s !! k = Some j ->
                        (k < next_job_id_ s)%Z /\ Job_id j = k;
  bk_core_once : NoDup (core_id <$> D);
  bk_job_once : NoDup ((job_id <$> D) ++ (Job_id <$> job_queue_ s));
  bk_serving : forall e, e ∈ D ->
                         (0 <= core_id e < num_cores_ s)%Z /\
                         cores_busy_ s !! Z.to_nat (core_id e) = Some true /\
                         is_Some (active_jobs_ s !! job_id e);
  bk_waiting : forall j, j ∈ job_queue_ s ->
                         is_Some (active_jobs_ s !! Job_id j);
  bk_busy_count : count_busy_cores s = Z.of_nat (length D);
  bk_size : size (active_jobs_ s) = (length D + length (job_queue_ s))%nat;
  bk_counters : (jobs_completed_ s + jobs_lost_ s
                 + Z.of_nat (size (active_jobs_ s)) = total_arrivals_ s)%Z;
  bk_completed : (0 <= jobs_completed_ s)%Z;
  bk_lost : (0 <= jobs_lost_ s)%Z;
  bk_arrivals : (total_arrivals_ s <= Z.of_nat (length (history_ s)))%Z
}.

(** An event boundary as the engine maintains it. *)
Definition consistent (s : Simulator) : Prop :=
  bookkeeping (pending_departures s) s.

(** A simulator between two runs: what [initialize] keeps. *)
Definition configured (s : Simulator) : Prop :=
  (0 < num_cores_ s)%Z /\
  length (cores_busy_ s) = Z.to_nat (num_cores_ s).

(** The states at the event boundaries of the runs of [s0]: the state the
    main loop starts from, and the state after every further iteration. *)
Inductive boundary (s0 : Simulator) : Simulator -> Prop :=
| boundary_start : boundary s0 (schedule_next_arrival (initialize s0))
| boundary_step s s' :
    boundary s0 s -> loop_body s = Ok s' -> boundary s0 s'.

(** The state in which the event [e], just popped, is handled. *)
Definition popped (e : Event) (s : Simulator) : Simulator :=
  update_busy_statistics
    (set_current_time (time e)
       (set_history (history_ s ++ [e])
          (set_event_queue (pq_pop Event_gt (event_queue_ s)) s))).

(** Completed, lost and present jobs add up to the arrivals; the jobs
    present are those in service and those buffered; and within the iteration
    cap the getter [jobs_in_system] returns their number. *)
Definition counter_equation (s : Simulator) : Prop :=
  (jobs_completed s + jobs_lost s + Z.of_nat (size (active_jobs_ s))
   = total_arrivals s)%Z /\
  (Z.of_nat (size (active_jobs_ s))
   = count_busy_cores s + Z.of_nat (length (job_queue_ s)))%Z /\
  ((Z.of_nat (length (history_ s)) <= MAX_ITERATIONS)%Z ->
   (jobs_completed s + jobs_lost s + jobs_in_system s = total_arrivals s)%Z /\
   jobs_in_system s = (count_busy_cores s + queue_length s)%Z).

(** A simulator as the constructor returns it for one core, a buffer of one
    job, arrivals every time unit and a service time of three. *)
Definition demo_engine : Simulator :=
  mkSimulator 0 0 0 0 0 (DeterministicGenerator 1) (DeterministicGenerator 3)
    1 1 (pq_new (fun n => n)) [] [false] [0%Q] [(-1)%Z] ∅ [] [] 0 0 [].

(** What the getters return, for evaluating concrete runs. *)
Definition observe (r : Result Simulator) : option (Z * Z * Z * Z * Z * Z) :=
  match r with
  | Ok s => Some (total_arrivals s, jobs_completed s, jobs_lost s,
                  jobs_in_system s, count_busy_cores s, queue_length s)
  | Throw _ => None
  end.

(** The completed and the lost jobs are among the arrivals, and with the
    unbounded buffer no job is lost. *)
Definition losses_bounded (s0 s : Simulator) : Prop :=
  (jobs_completed s + jobs_lost s <= total_arrivals s)%Z /\
  (buffer_capacity_ s0 = (-1)%Z -> jobs_lost s = 0%Z).

(** A single server with the unbounded buffer, overloaded: arrivals every
    time unit, service time three. *)
Definition overloaded_engine : Simulator :=
  mkSimulator 0 0 0 0 0 (DeterministicGenerator 1) (DeterministicGenerator 3)
    1 (-1) (pq_new (fun n => n)) [] [false] [0%Q] [(-1)%Z] ∅ [] [] 0 0 [].

(** A value read off a result. *)
Definition on_result {A B : Type} (f : A -> B) (r : Result A) : option B :=
  match r with
  | Ok a => Some (f a)
  | Throw _ => None
  end.

(** The events the time-bounded loop has processed: every one but the last
    has a timestamp below the bound, and the clock stands at the timestamp of
    the last one. *)
Definition processed_below (T : Q) (l : list Event) : Prop :=
  forall i e, l !! i = Some e -> (S i < length l)%nat -> (time e < T)%Q.

Definition clock_of (l : list Event) (otherwise : Q) : Q :=
  match last l with
  | Some e => time e
  | None => otherwise
  end.

(** One server, unbounded buffer, an arrival every five time units and a
    service time of one. *)
Definition late_engine : Simulator :=
  mkSimulator 0 0 0 0 0 (DeterministicGenerator 5) (DeterministicGenerator 1)
    1 (-1) (pq_new (fun n => n)) [] [false] [0%Q] [(-1)%Z] ∅ [] [] 0 0 [].

(** The part of the state that waiting times depend on. *)
Record view : Type := mkView {
  v_clock : Q;
  v_timeline : list Event;
  v_buffer : list Job;
  v_table : gmap Z Job;
  v_waits : list Q
}.

Definition view_of (s : Simulator) : view :=
  mkView (current_time_ s) (elems (event_queue_ s)) (job_queue_ s)
         (active_jobs_ s) (wait_times_ s).

(** Deterministic(d) arrivals, Deterministic(v) service, one core, unbounded
    buffer. *)
Definition det_config (d v : Q) (s : Simulator) : Prop :=
  arrival_generator_ s = DeterministicGenerator d /\
  service_generator_ s = DeterministicGenerator v /\
  num_cores_ s = 1%Z /\ buffer_capacity_ s = (-1)%Z.

(** [x] is an earliest event of the timeline [l], and [rest] are the
    others. *)
Definition earliest (x : Event) (rest l : list Event) : Prop :=
  l ≡ₚ x :: rest /\ forall e, e ∈ l -> (time x <= time e)%Q.

(** The four ways in which one iteration of the main loop changes the view:
    an arrival is served at once, an arrival is buffered, a departure leaves
    the server idle, a departure starts the job at the head of the buffer. *)
Inductive det_step (d v : Q) (w : view) : view -> Prop :=
| step_served (a : Event) (rest : list Event) (id c : Z) :
    earliest a rest (v_timeline w) -> type a = ARRIVAL ->
    departures (v_timeline w) = [] ->
    det_step d v w
      (mkView (time a)
         (rest ++ [Event_departure (time a + v) id c;
                   Event_of_type (time a + d) ARRIVAL])
         (v_buffer w)
         (<[id := mkJob id (time a) v (time a) (-1)]> (v_table w))
         (v_waits w))
| step_buffered (a x : Event) (rest : list Event) (id : Z) :
    earliest a rest (v_timeline w) -> type a = ARRIVAL ->
    departures (v_timeline w) = [x] ->
    det_step d v w
      (mkView (time a)
         (rest ++ [Event_of_type (time a + d) ARRIVAL])
         (v_buffer w ++ [new_Job id (time a) v])
         (<[id := new_Job id (time a) v]> (v_table w))
         (v_waits w))
| step_idle (x : Event) (rest : list Event) (job : Job) :
    earliest x rest (v_timeline w) -> type x = DEPARTURE ->
    departures (v_timeline w) = [x] ->
    v_table w !! job_id x = Some job -> v_buffer w = [] ->
    det_step d v w
      (mkView (time x) rest []
         (delete (job_id x) (v_table w))
         (v_waits w ++ [wait_time (set_finish_time (time x) job)]))
| step_next (x : Event) (rest : list Event) (job head waiting : Job)
    (q : list Job) :
    earliest x rest (v_timeline w) -> type x = DEPARTURE ->
    departures (v_timeline w) = [x] ->
    v_table w !! job_id x = Some job -> v_buffer w = head :: q ->
    delete (job_id x) (v_table w) !! Job_id head = Some waiting ->
    det_step d v w
      (mkView (time x)
         (rest ++ [Event_departure (time x + service_time waiting)
                                   (Job_id waiting) (core_id x)])
         q
         (<[Job_id head := set_start_time (time x) waiting]>
            (delete (job_id x) (v_table w)))
         (v_waits w ++ [wait_time (set_finish_time (time x) job)])).

(** Every recorded waiting time is zero. *)
Definition waits_zero (w : view) : Prop :=
  Forall (fun x => x == 0)%Q (v_waits w).

Definition before_zero (v : Q) (w : view) : Prop :=
  (forall e, e ∈ v_timeline w -> (time e < 0)%Q) /\
  (forall k j, v_table w !! k = Some j ->
               (start_time j < 0)%Q /\ service_time j = v) /\
  waits_zero w.

Definition on_time (d v : Q) (w : view) : Prop :=
  exists a,
    type a = ARRIVAL /\
    v_timeline w ≡ₚ a :: departures (v_timeline w) /\
    (forall x, x ∈ departures (v_timeline w) ->
               (time x <= time a)%Q /\ ((v < d)%Q -> (time x < time a)%Q)) /\
    (v_buffer w <> [] ->
     (v == d)%Q /\
     exists x, departures (v_timeline w) = [x] /\
               (time a == time x + d)%Q /\
               forall j job, j ∈ v_buffer w ->
                             v_table w !! Job_id j = Some job ->
                             (arrival_time job == time x)%Q) /\
    ((2 <= length (v_buffer w))%nat -> (d == 0)%Q) /\
    (forall k j, v_table w !! k = Some j ->
                 (wait_time j == 0)%Q /\ service_time j = v) /\
    waits_zero w.

(** The invariant of the deterministic single server, by the sign of the
    inter-arrival time. *)
Definition punctual (d v : Q) (w : view) : Prop :=
  ((d < 0)%Q /\ before_zero v w) \/ ((0 <= d)%Q /\ on_time d v w).

(** No job has waited: every recorded waiting time is zero, and so is their
    average, also in lowest terms. *)
Definition never_waited (s : Simulator) : Prop :=
  Forall (fun x => x == 0)%Q (wait_times_ s) /\
  (avg_wait_time s == 0)%Q /\ Qred (avg_wait_time s) = 0%Q.

(** One server, unbounded buffer, and a service time equal to the
    inter-arrival time; the heap releases the later-pushed of two events of
    equal timestamp first, so that arrivals overtake departures. *)
Definition tied_engine : Simulator :=
  mkSimulator 0 0 0 0 0 (DeterministicGenerator 1) (DeterministicGenerator 1)
    1 (-1) (pq_new (fun n => n)) [] [false] [0%Q] [(-1)%Z] ∅ [] [] 0 0 [].

(** ** Vocabulary of the further properties *)

(** The states in which [process_arrival] leaves the simulator [s]: the new
    job is served at once on the free core found, it is lost, or it is
    buffered.  [st] is the service time drawn, [ia] the next inter-arrival
    time. *)
Definition arrival_served (s : Simulator) : Simulator :=
  let st := fst (generate (service_generator_ s)) in
  let ia := fst (generate (arrival_generator_ s)) in
  let t := current_time_ s in
  let id := next_job_id_ s in
  let c := find_free_core s in
  mkSimulator t (jobs_completed_ s) (jobs_lost_ s) (id + 1)
    (total_arrivals_ s + 1)
    (snd (generate (arrival_generator_ s)))
    (snd (generate (service_generator_ s)))
    (num_cores_ s) (buffer_capacity_ s)
    (pq_push (Event_of_type (t + ia) ARRIVAL)
       (pq_push (Event_departure (t + st) id c) (event_queue_ s)))
    (job_queue_ s)
    (<[Z.to_nat c := true]> (cores_busy_ s))
    (<[Z.to_nat c := (t + st)%Q]> (cores_finish_time_ s))
    (<[Z.to_nat c := id]> (cores_current_job_ s))
    (<[id := mkJob id t st t (-1)]> (active_jobs_ s))
    (wait_times_ s) (system_times_ s) (total_busy_time_ s)
    (last_busy_check_time_ s) (history_ s).

Definition arrival_lost (s : Simulator) : Simulator :=
  let ia := fst (generate (arrival_generator_ s)) in
  let t := current_time_ s in
  let id := next_job_id_ s in
  mkSimulator t (jobs_completed_ s) (jobs_lost_ s + 1) (id + 1)
    (total_arrivals_ s + 1)
    (snd (generate (arrival_generator_ s)))
    (snd (generate (service_generator_ s)))
    (num_cores_ s) (buffer_capacity_ s)
    (pq_push (Event_of_type (t + ia) ARRIVAL) (event_queue_ s))
    (job_queue_ s) (cores_busy_ s) (cores_finish_time_ s)
    (cores_current_job_ s)
    (delete id (active_jobs_ s))
    (wait_times_ s) (system_times_ s) (total_busy_time_ s)
    (last_busy_check_time_ s) (history_ s).

Definition arrival_buffered (s : Simulator) : Simulator :=
  let st := fst (generate (service_generator_ s)) in
  let ia := fst (generate (arrival_generator_ s)) in
  let t := current_time_ s in
  let id := next_job_id_ s in
  mkSimulator t (jobs_completed_ s) (jobs_lost_ s) (id + 1)
    (total_arrivals_ s + 1)
    (snd (generate (arrival_generator_ s)))
    (snd (generate (service_generator_ s)))
    (num_cores_ s) (buffer_capacity_ s)
    (pq_push (Event_of_type (t + ia) ARRIVAL) (event_queue_ s))
    (job_queue_ s ++ [new_Job id t st])
    (cores_busy_ s) (cores_finish_time_ s) (cores_current_job_ s)
    (<[id := new_Job id t st]> (active_jobs_ s))
    (wait_times_ s) (system_times_ s) (total_busy_time_ s)
    (last_busy_check_time_ s) (history_ s).

(** The states in which [process_departure] leaves the simulator when the
    job [job] found under [j] has finished on core [c]: the core stays idle,
    or the job [waiting], found under the identifier of the head of the
    buffer, starts on it. *)
Definition departure_idle (j c : Z) (job : Job) (q : FIFOQueue)
  (s : Simulator) : Simulator :=
  let t := current_time_ s in
  let done := set_finish_time t job in
  mkSimulator t (jobs_completed_ s + 1) (jobs_lost_ s) (next_job_id_ s)
    (total_arrivals_ s) (arrival_generator_ s) (service_generator_ s)
    (num_cores_ s) (buffer_capacity_ s) (event_queue_ s) q
    (<[Z.to_nat c := false]> (cores_busy_ s))
    (<[Z.to_nat c := 0%Q]> (cores_finish_time_ s))
    (<[Z.to_nat c := (-1)%Z]> (cores_current_job_ s))
    (delete j (active_jobs_ s))
    (wait_times_ s ++ [wait_time done])
    (system_times_ s ++ [system_time done])
    (total_busy_time_ s) (last_busy_check_time_ s) (history_ s).

Definition departure_next (j c : Z) (job head waiting : Job) (q : FIFOQueue)
  (s : Simulator) : Simulator :=
  let t := current_time_ s in
  let done := set_finish_time t job in
  mkSimulator t (jobs_completed_ s + 1) (jobs_lost_ s) (next_job_id_ s)
    (total_arrivals_ s) (arrival_generator_ s) (service_generator_ s)
    (num_cores_ s) (buffer_capacity_ s)
    (pq_push (Event_departure (t + service_time waiting) (Job_id waiting) c)
       (event_queue_ s))
    q
    (<[Z.to_nat c := true]> (cores_busy_ s))
    (<[Z.to_nat c := (t + service_time waiting)%Q]> (cores_finish_time_ s))
    (<[Z.to_nat c := Job_id waiting]> (cores_current_job_ s))
    (<[Job_id head := set_start_time t waiting]>
       (delete j (active_jobs_ s)))
    (wait_times_ s ++ [wait_time done])
    (system_times_ s ++ [system_time done])
    (total_busy_time_ s) (last_busy_check_time_ s) (history_ s).

(** How the main loop handles the event [e] it has popped, in the state [p]
    reached by advancing the clock to [e]: the five branches of
    [process_arrival] and [process_departure] that a run takes. *)
Inductive handled (e : Event) (p : Simulator) : Simulator -> Prop :=
| handled_served :
    type e = ARRIVAL ->
    (0 <= find_free_core p < num_cores_ p)%Z ->
    cores_busy_ p !! Z.to_nat (find_free_core p) = Some false ->
    active_jobs_ p !! next_job_id_ p = None ->
    handled e p (arrival_served p)
| handled_lost :
    type e = ARRIVAL ->
    find_free_core p = (-1)%Z -> buffer_full p = true ->
    active_jobs_ p !! next_job_id_ p = None ->
    handled e p (arrival_lost p)
| handled_buffered :
    type e = ARRIVAL ->
    find_free_core p = (-1)%Z -> buffer_full p = false ->
    active_jobs_ p !! next_job_id_ p = None ->
    handled e p (arrival_buffered p)
| handled_idle (job : Job) :
    type e = DEPARTURE ->
    active_jobs_ p !! job_id e = Some job ->
    (0 <= core_id e < num_cores_ p)%Z ->
    cores_busy_ p !! Z.to_nat (core_id e) = Some true ->
    job_queue_ p = [] ->
    handled e p (departure_idle (job_id e) (core_id e) job [] p)
| handled_next (job head waiting : Job) (q : FIFOQueue) :
    type e = DEPARTURE ->
    active_jobs_ p !! job_id e = Some job ->
    (0 <= core_id e < num_cores_ p)%Z ->
    cores_busy_ p !! Z.to_nat (core_id e) = Some true ->
    job_queue_ p = head :: q ->
    active_jobs_ p !! Job_id head = Some waiting ->
    Job_id head <> job_id e -> Job_id waiting = Job_id head ->
    handled e p
      (departure_next (job_id e) (core_id e) job head waiting q p).

(** The arrival events among the events of a timeline. *)
Definition arrivals (l : list Event) : list Event :=
  filter (fun e => type e = ARRIVAL) l.

(** What every event boundary of a run keeps, whatever the generators. *)
Record regular (s : Simulator) : Prop := mkRegular {
  rg_ids : next_job_id_ s = total_arrivals_ s;
  rg_samples : length (wait_times_ s) = length (system_times_ s) /\
               Z.of_nat (length (wait_times_ s)) = jobs_completed_ s;
  rg_next_arrival : length (arrivals (elems (event_queue_ s))) = 1%nat;
  rg_arrivals : total_arrivals_ s = Z.of_nat (length (arrivals (history_ s)));
  rg_completed :
    jobs_completed_ s = Z.of_nat (length (departures (history_ s)));
  rg_work : job_queue_ s <> [] -> count_busy_cores s = num_cores_ s;
  rg_capacity : (0 <= buffer_capacity_ s < 2 ^ 31)%Z ->
                (Z.of_nat (length (job_queue_ s)) <= buffer_capacity_ s)%Z
}.

(** A generator that returns no negative value. *)
Definition non_negative (g : RandomGenerator) : Prop :=
  conforming g /\ (0 <= lower_bound g)%Q.

(** The events of [l] are in the order of their timestamps. *)
Definition chronological (l : list Event) : Prop :=
  forall i j e e', (i < j)%nat -> l !! i = Some e -> l !! j = Some e' ->
                   (time e <= time e')%Q.

(** The clock of a simulation driven by non-negative inter-arrival and
    service times. *)
Record timely (s : Simulator) : Prop := mkTimely {
  tm_arrival_generator : non_negative (arrival_generator_ s);
  tm_service_generator : non_negative (service_generator_ s);
  tm_clock : (0 <= current_time_ s)%Q;
  tm_pending : forall e, e ∈ elems (event_queue_ s) ->
                         (current_time_ s <= time e)%Q;
  tm_history : forall e, e ∈ history_ s ->
                         (0 <= time e)%Q /\ (time e <= current_time_ s)%Q;
  tm_chronological : chronological (history_ s);
  tm_service : forall k j, active_jobs_ s !! k = Some j ->
                           (0 <= service_time j)%Q
}.

(** The timestamps of the jobs in the table, and the samples recorded for
    the completed ones. *)
Record jobs_timed (s : Simulator) : Prop := mkJobsTimed {
  jt_arrived : forall k j, active_jobs_ s !! k = Some j ->
                           (0 <= arrival_time j)%Q /\
                           (arrival_time j <= current_time_ s)%Q;
  jt_serving : forall e j, e ∈ pending_departures s ->
                           active_jobs_ s !! job_id e = Some j ->
                           (0 <= start_time j)%Q /\
                           (arrival_time j <= start_time j)%Q /\
                           (time e == start_time j + service_time j)%Q;
  jt_samples : Forall2 (fun w u => 0 <= w /\ w <= u)%Q
                       (wait_times_ s) (system_times_ s)
}.

(** A job waits in the buffer only while every core is busy. *)
Definition work_conserving (s : Simulator) : Prop :=
  job_queue_ s <> [] ->
  count_busy_cores s = num_cores_ s /\ find_free_core s = (-1)%Z /\
  is_server_busy s = true.

(** The buffer of an engine configured as [s0] holds no more jobs than its
    capacity. *)
Definition within_capacity (s0 s : Simulator) : Prop :=
  (Z.of_nat (length (job_queue_ s)) <= buffer_capacity_ s0)%Z /\
  (0 <= queue_length s <= buffer_capacity_ s0)%Z.

(** The timeline holds the next arrival and one departure for every busy
    core, and nothing else. *)
Definition next_arrival_pending (s : Simulator) : Prop :=
  length (arrivals (elems (event_queue_ s))) = 1%nat /\
  Z.of_nat (length (pending_departures s)) = count_busy_cores s /\
  Z.of_nat (pq_size (event_queue_ s)) = (1 + count_busy_cores s)%Z /\
  (Z.of_nat (pq_size (event_queue_ s)) <= 1 + num_cores_ s)%Z /\
  pq_empty (event_queue_ s) = false.

(** The counters count the events processed: an arrival for every arrival
    event, a completion for every departure event; job identifiers are the
    arrival numbers. *)
Definition counts_events (s : Simulator) : Prop :=
  total_arrivals s = Z.of_nat (length (arrivals (history_ s))) /\
  jobs_completed s = Z.of_nat (length (departures (history_ s))) /\
  (total_arrivals s + jobs_completed s = Z.of_nat (length (history_ s)))%Z /\
  next_job_id_ s = total_arrivals s.

(** One waiting time and one system time is recorded for every completed
    job. *)
Definition sampled_once (s : Simulator) : Prop :=
  Z.of_nat (length (wait_times_ s)) = jobs_completed s /\
  Z.of_nat (length (system_times_ s)) = jobs_completed s.

(** The processed events are in the order of their timestamps, none of them
    negative, the clock stands at or after all of them, and no pending event
    is due before the clock. *)
Definition in_time_order (s : Simulator) : Prop :=
  chronological (history_ s) /\
  (0 <= current_time s)%Q /\
  (forall e, e ∈ history_ s -> (0 <= time e)%Q /\ (time e <= current_time s)%Q) /\
  (forall e, e ∈ elems (event_queue_ s) -> (current_time s <= time e)%Q).

(** Sample by sample, a completed job has waited a non-negative time that is
    no longer than the time it has spent in the system. *)
Definition waits_within_sojourns (s : Simulator) : Prop :=
  Forall2 (fun w u => 0 <= w /\ w <= u)%Q (wait_times_ s) (system_times_ s) /\
  (0 <= min_wait_time s)%Q /\
  (0 <= avg_wait_time s)%Q /\ (avg_wait_time s <= avg_system_time s)%Q.

(** The estimate of the loss probability is a probability. *)
Definition loss_is_probability (s : Simulator) : Prop :=
  (0 <= jobs_lost s <= total_arrivals s)%Z /\
  (0 <= loss_probability s)%Q /\ (loss_probability s <= 1)%Q.

(** The first idle core, if there is one. *)
Definition first_idle_core (s : Simulator) (c : Z) : Prop :=
  (0 <= c < num_cores_ s)%Z /\
  cores_busy_ s !! Z.to_nat c = Some false /\
  forall j, (0 <= j < c)%Z -> cores_busy_ s !! Z.to_nat j = Some true.

(** The cores of [s'] are those of [s], but for core [c], which is busy when
    [b] is [true] and idle otherwise. *)
Definition core_set (c : Z) (b : bool) (s s' : Simulator) : Prop :=
  cores_busy_ s' !! Z.to_nat c = Some b /\
  (forall c', (0 <= c')%Z -> c' <> c ->
              cores_busy_ s' !! Z.to_nat c' = cores_busy_ s !! Z.to_nat c' /\
              cores_finish_time_ s' !! Z.to_nat c'
              = cores_finish_time_ s !! Z.to_nat c' /\
              cores_current_job_ s' !! Z.to_nat c'
              = cores_current_job_ s !! Z.to_nat c') /\
  num_cores_ s' = num_cores_ s /\
  length (cores_busy_ s') = length (cores_busy_ s).

(** The configuration of [s] is that of [s0]: the cores, the capacity of the
    buffer, the distributions and their parameters, and the heap of the
    event queue. *)
Definition same_setup (s0 s : Simulator) : Prop :=
  configured s /\
  num_cores_ s = num_cores_ s0 /\
  buffer_capacity_ s = buffer_capacity_ s0 /\
  same_distribution (arrival_generator_ s0) (arrival_generator_ s) /\
  same_distribution (service_generator_ s0) (service_generator_ s) /\
  mean (arrival_generator_ s) = mean (arrival_generator_ s0) /\
  mean (service_generator_ s) = mean (service_generator_ s0) /\
  tie (event_queue_ s) = tie (event_queue_ s0).

(** The buffer holds its jobs in the order of their arrival, and every job
    in service has arrived before every job in the buffer. *)
Definition first_come_first_served (s : Simulator) : Prop :=
  (forall i j a b, (i < j)%nat ->
                   job_queue_ s !! i = Some a -> job_queue_ s !! j = Some b ->
                   (Job_id a < Job_id b)%Z) /\
  (forall e j, e ∈ pending_departures s -> j ∈ job_queue_ s ->
               (job_id e < Job_id j)%Z) /\
  (forall j, j ∈ job_queue_ s -> (0 <= Job_id j < next_job_id_ s)%Z).

(** The items a strategy holds. *)
Definition contents {T : Type} (s : QueueStrategy T) : list T :=
  match s with
  | of_FIFO q => q
  | of_LIFO q => q
  | of_Random q => items_ q
  | of_Priority q => item <$> elems q
  | of_RoundRobin q => concat (queues_ q)
  end.

(** The cursor of a round-robin strategy points at one of its sub-queues. *)
Definition well_formed {T : Type} (s : QueueStrategy T) : Prop :=
  match s with
  | of_RoundRobin q => (current_queue_ q < length (queues_ q))%nat
  | _ => True
  end.

(** The results of [n] pops on a strategy that releases its items in the
    order [l]: the first [n] items, then [runtime_error]s. *)
Definition released {T : Type} (n : nat) (l : list T) : list (Result T) :=
  (Ok <$> take n l) ++ replicate (n - length l) (Throw runtime_error).

(** The number of sub-queues of a strategy, for a round-robin one. *)
Definition sub_queue_count {T : Type} (s : QueueStrategy T) : nat :=
  match s with
  | of_RoundRobin q => length (queues_ q)
  | _ => 0%nat
  end.

(** A round-robin strategy with two sub-queues, one item in the first and
    the cursor at the second. *)
Definition two_queues : QueueStrategy nat :=
  of_RoundRobin (mkRoundRobin [[1%nat]; []] 1).

#[global] Instance QueueType_eq_dec : EqDecision QueueType.
Proof. solve_decision. Defined.

(** The parameters of a generator pass the checks of its constructor. *)
Definition valid (g : RandomGenerator) : Prop :=
  match g with
  | ExponentialGenerator l _ => (0 < l)%Q
  | UniformGenerator a b _ => (a < b)%Q
  | DeterministicGenerator _ => True
  | ErlangGenerator k l _ => (0 < k)%Z /\ (0 < l)%Q
  end.

(** The source of a generator after [n] further draws. *)
Definition advance (n : nat) (s : Source) : Source :=
  mkSource (draws s) (used s + n).

(** A configuration whose generators pass the checks of their constructors,
    with Poisson arrivals of the rate declared. *)
Definition well_configured (lambda : Q) (c : DistributionConfig) : Prop :=
  arrival_rate c = lambda /\
  valid (arrival_gen c) /\ valid (service_gen c) /\
  (mean (arrival_gen c) == 1 / lambda)%Q /\
  (mean_service_time c == 1)%Q.

(** The service generator has the mean service time declared. *)
Definition mean_as_declared (c : DistributionConfig) : Prop :=
  (mean (service_gen c) == mean_service_time c)%Q.

(** ** Capacities, magnitudes and doubles *)



(** The simulator [s] with the buffer capacity [c] instead of its own. *)
Definition with_capacity (c : Z) (s : Simulator) : Simulator :=
  mkSimulator (current_time_ s) (jobs_completed_ s) (jobs_lost_ s)
    (next_job_id_ s) (total_arrivals_ s) (arrival_generator_ s)
    (service_generator_ s) (num_cores_ s) c (event_queue_ s) (job_queue_ s)
    (cores_busy_ s) (cores_finish_time_ s) (cores_current_job_ s)
    (active_jobs_ s) (wait_times_ s) (system_times_ s) (total_busy_time_ s)
    (last_busy_check_time_ s) (history_ s).

(** Every arrival was counted, and each one that did not get a core was
    counted as lost: the lost jobs are the arrivals less the jobs that were
    completed or are in service. *)
Definition lost_when_busy (s : Simulator) : Prop :=
  total_arrivals s = Z.of_nat (length (arrivals (history_ s))) /\
  jobs_lost s
  = (total_arrivals s - jobs_completed s - count_busy_cores s)%Z.

(** The buffer is full and empty at once, and a job that arrives while no
    core is free is lost. *)
Definition no_buffer (s : Simulator) : Prop :=
  buffer_full s = true /\ job_queue_ s = [] /\ queue_length s = 0%Z /\
  lost_when_busy s /\
  forall e, pq_top Event_gt (event_queue_ s) = Some e ->
            type e = ARRIVAL -> find_free_core s = (-1)%Z ->
            exists s', loop_body s = Ok s' /\
                       jobs_lost s' = (jobs_lost s + 1)%Z /\
                       total_arrivals s' = (total_arrivals s + 1)%Z /\
                       count_busy_cores s' = count_busy_cores s /\
                       queue_length s' = 0%Z.

(** One core, a capacity of -5, arrivals every time unit and a service time
    of three. *)
Definition negative_engine : Simulator :=
  mkSimulator 0 0 0 0 0 (DeterministicGenerator 1) (DeterministicGenerator 3)
    1 (-5) (pq_new (fun n => n)) [] [false] [0%Q] [(-1)%Z] ∅ [] [] 0 0 [].

(** Magnitudes.  [x] lies within [b] of zero. *)
Definition within (b x : Q) : Prop := (- b <= x)%Q /\ (x <= b)%Q.

(** A bound on the values of the generators under which no time stamp of a
    run leaves the range of [double]: a run performs at most [MAX_ITERATIONS]
    < 2^27 iterations, each of which advances the time stamps by at most one
    generated value, so that with values within [scale] = 2^960 every time
    stamp stays within 2^987. *)
Definition scale : Q := inject_Z (2 ^ 960).

(** The magnitude that [n] values within [scale] can add up to. *)
Definition reach (n : nat) : Q := (inject_Z (Z.of_nat n) * scale)%Q.

(** Every value the generator returns lies within [scale]. *)
Definition moderate (g : RandomGenerator) : Prop :=
  forall n, Forall (within scale) (samples n g).

(** The time stamps after [length (history_ s)] iterations. *)
Record on_scale (s : Simulator) : Prop := mkOnScale {
  sc_arrival_generator : moderate (arrival_generator_ s);
  sc_service_generator : moderate (service_generator_ s);
  sc_clock : within (reach (length (history_ s))) (current_time_ s);
  sc_pending : forall e, e ∈ elems (event_queue_ s) ->
                         within (reach (S (length (history_ s)))) (time e);
  sc_history : forall e, e ∈ history_ s ->
                         within (reach (length (history_ s))) (time e);
  sc_service : forall k j, active_jobs_ s !! k = Some j ->
                           within scale (service_time j)
}.

(** Every time stamp of the state lies within 2^987, far inside the range of
    [double]. *)
Definition in_double_range (s : Simulator) : Prop :=
  within (inject_Z (2 ^ 987)) (current_time s) /\
  (forall e, e ∈ history_ s -> within (inject_Z (2 ^ 987)) (time e)) /\
  (forall e, e ∈ elems (event_queue_ s) ->
             within (inject_Z (2 ^ 987)) (time e)).

(** The busy time is accounted for up to the clock: the test of
    [update_busy_statistics] fails. *)
Definition up_to_date (s : Simulator) : Prop :=
  Qlt_bool (last_busy_check_time_ s) (current_time_ s) = false.

(** The double 2^1023. *)
Definition huge : Double.double := S754_finite false 4503599627370496 971.

(** The simulator on doubles that the constructor returns for one core, the
    unbounded buffer and Deterministic(2^1023) arrivals and service. *)
Definition overflowing_engine : Double.Simulator :=
  Double.mkSimulator Double.zero 0 0 0 0
    (Double.DeterministicGenerator huge) (Double.DeterministicGenerator huge)
    1 (-1) (pq_new (fun n => n)) [] [false] [Double.zero] [(-1)%Z] ∅ [] []
    Double.zero Double.zero [].

(** The double nearest to 0.1, and the simulator on doubles for one core,
    the unbounded buffer and Deterministic(0.1) arrivals and service. *)
Definition tenth : Double.double :=
  Eval vm_compute in Double.div Double.one (Double.of_int 10).

Definition tied_engine_on_doubles : Double.Simulator :=
  Double.mkSimulator Double.zero 0 0 0 0
    (Double.DeterministicGenerator tenth) (Double.DeterministicGenerator tenth)
    1 (-1) (pq_new (fun n => n)) [] [false] [Double.zero] [(-1)%Z] ∅ [] []
    Double.zero Double.zero [].

(** The engine on doubles with one waiting time recorded and the clock at
    1. *)
Definition sampled_engine : Double.Simulator :=
  Double.mkSimulator Double.one 1 0 1 1
    (Double.DeterministicGenerator Double.one)
    (Double.DeterministicGenerator Double.one)
    1 (-1) (pq_new (fun n => n)) [] [false] [Double.zero] [(-1)%Z] ∅
    [Double.one] [Double.one] Double.zero Double.zero [].

(* ===================================================================== *)
(** * Properties of the priority queue                                      *)
(* ===================================================================== *)

Section PriorityQueueFacts.
Context {A : Type} (gt : A -> A -> bool).

Lemma is_top_spec (l : list A) (x : A) :
  is_top gt l x = true <-> forall y, y ∈ l -> gt x y = false.
Proof.
  unfold is_top. rewrite forallb_forall. split.
  - intros H y Hy. apply list_elem_of_In in Hy.
    specialize (H y Hy). now apply negb_true_iff in H.
  - intros H y Hy. apply negb_true_iff, H. now apply list_elem_of_In.
Qed.

Lemma tops_spec (l : list A) (i : nat) :
  In i (tops gt l) <-> exists x, l !! i = Some x /\ is_top gt l x = true.
Proof.
  unfold tops. rewrite filter_In, in_seq. split.
  - intros [_ H]. destruct (l !! i) as [x|] eqn:E; [eauto | discriminate].
  - intros (x & E & H). rewrite E. split; [|exact H].
    apply lookup_lt_Some in E. lia.
Qed.

Lemma pq_choice_spec (q : priority_queue A) (i : nat) :
  pq_choice gt q = Some i ->
  exists x, elems q !! i = Some x /\ is_top gt (elems q) x = true.
Proof.
  unfold pq_choice. destruct (tops gt (elems q)) as [|i0 c] eqn:E; [discriminate|].
  intros H.
  assert (Hi : i = nth (tie q (pops q) mod length (i0 :: c)) (i0 :: c) i0)
    by congruence.
  apply tops_spec. rewrite E, Hi.
  apply nth_In, Nat.mod_upper_bound. discriminate.
Qed.

(** What [top] followed by [pop] does: an element that no other element
    is smaller than leaves the queue. *)
Lemma pq_top_pop (q : priority_queue A) (x : A) :
  pq_top gt q = Some x ->
  exists i, elems q !! i = Some x /\ is_top gt (elems q) x = true /\
            pq_pop gt q = mkPQ (delete i (elems q)) (tie q) (S (pops q)).
Proof.
  unfold pq_top, pq_pop. destruct (pq_choice gt q) as [i|] eqn:E; [|discriminate].
  intros Hx. exists i. destruct (pq_choice_spec _ _ E) as (y & Hy & Htop).
  rewrite Hx in Hy. injection Hy as ->. auto.
Qed.

Lemma pq_top_elems (q : priority_queue A) (x : A) :
  pq_top gt q = Some x ->
  elems q ≡ₚ x :: elems (pq_pop gt q) /\
  forall y, y ∈ elems q -> gt x y = false.
Proof.
  intros H. destruct (pq_top_pop _ _ H) as (i & Hi & Htop & ->). simpl. split.
  - now apply delete_Permutation.
  - now apply is_top_spec.
Qed.

Lemma pq_pop_tie (q : priority_queue A) : tie (pq_pop gt q) = tie q.
Proof. unfold pq_pop. now destruct (pq_choice gt q). Qed.

(** A comparison that is total and transitive has a least element in every
    non-empty list, so [top] is defined on every non-empty queue. *)
Hypothesis gt_total : forall x y, gt x y = false \/ gt y x = false.
Hypothesis gt_trans :
  forall x y z, gt x y = false -> gt y z = false -> gt x z = false.

Lemma least_exists (l : list A) :
  l <> [] -> exists x, x ∈ l /\ is_top gt l x = true.
Proof.
  induction l as [|a l IH]; [congruence|]. intros _.
  destruct l as [|b l].
  - exists a. split; [constructor|]. apply is_top_spec.
    intros y Hy. apply list_elem_of_singleton in Hy as ->.
    now destruct (gt_total a a).
  - destruct IH as (m & Hm & Htop); [discriminate|].
    rewrite is_top_spec in Htop.
    destruct (gt a m) eqn:Ham.
    + exists m. split; [now constructor|]. apply is_top_spec.
      intros y Hy. apply elem_of_cons in Hy as [->|Hy]; [|now apply Htop].
      destruct (gt_total a m) as [H|H]; congruence.
    + exists a. split; [constructor|]. apply is_top_spec.
      intros y Hy. apply elem_of_cons in Hy as [->|Hy].
      * now destruct (gt_total a a).
      * apply gt_trans with m; auto.
Qed.

Lemma pq_top_is_Some (q : priority_queue A) :
  pq_empty q = false -> exists x, pq_top gt q = Some x.
Proof.
  unfold pq_empty. intros Hne.
  destruct (least_exists (elems q)) as (m & Hm & Htop).
  { now destruct (elems q). }
  apply list_elem_of_lookup in Hm as [j Hj].
  assert (Hin : In j (tops gt (elems q))) by (apply tops_spec; eauto).
  unfold pq_top.
  destruct (pq_choice gt q) as [i|] eqn:E.
  - destruct (pq_choice_spec _ _ E) as (x & Hx & _). eauto.
  - unfold pq_choice in E. destruct (tops gt (elems q)); [destruct Hin | discriminate].
Qed.
End PriorityQueueFacts.

(* ===================================================================== *)
(** * Comparisons                                                           *)
(* ===================================================================== *)

Lemma Qlt_bool_true (x y : Q) : Qlt_bool x y = true <-> (x < y)%Q.
Proof.
  unfold Qlt_bool. rewrite negb_true_iff. split.
  - intros H. apply Qnot_le_lt. intros Hle.
    apply Qle_bool_iff in Hle. congruence.
  - intros H. destruct (Qle_bool y x) eqn:E; [|reflexivity].
    apply Qle_bool_iff in E. lra.
Qed.

Lemma Qlt_bool_false (x y : Q) : Qlt_bool x y = false <-> (y <= x)%Q.
Proof.
  unfold Qlt_bool. rewrite negb_false_iff. apply Qle_bool_iff.
Qed.

Lemma Qle_bool_false (x y : Q) : Qle_bool x y = false <-> (y < x)%Q.
Proof.
  rewrite <- Qlt_bool_true. unfold Qlt_bool.
  now destruct (Qle_bool x y).
Qed.

(* ===================================================================== *)
(** * Construction                                                          *)
(* ===================================================================== *)

Lemma new_Simulator_cases ag sg num_cores buffer_cap heap :
  ((num_cores <= 0)%Z /\
   new_Simulator ag sg num_cores buffer_cap heap = Throw invalid_argument) \/
  ((0 < num_cores)%Z /\
   new_Simulator ag sg num_cores buffer_cap heap
   = Ok (mkSimulator 0 0 0 0 0 ag sg num_cores buffer_cap (pq_new heap) []
           (replicate (Z.to_nat num_cores) false)
           (replicate (Z.to_nat num_cores) 0%Q)
           (replicate (Z.to_nat num_cores) (-1)%Z) ∅ [] [] 0 0 [])).
Proof.
  unfold new_Simulator. destruct (Z.leb_spec num_cores 0); [left|right]; auto.
Qed.

Lemma new_ExponentialGenerator_cases lambda rd :
  ((lambda <= 0)%Q /\
   new_ExponentialGenerator lambda rd = Throw invalid_argument) \/
  ((0 < lambda)%Q /\
   new_ExponentialGenerator lambda rd
   = Ok (ExponentialGenerator lambda (seed rd))).
Proof.
  unfold new_ExponentialGenerator. destruct (Qle_bool lambda 0) eqn:E.
  - left. split; [now apply Qle_bool_iff | reflexivity].
  - right. split; [now apply Qle_bool_false | reflexivity].
Qed.

Lemma new_UniformGenerator_cases a b rd :
  ((b <= a)%Q /\ new_UniformGenerator a b rd = Throw invalid_argument) \/
  ((a < b)%Q /\
   new_UniformGenerator a b rd = Ok (UniformGenerator a b (seed rd))).
Proof.
  unfold new_UniformGenerator. destruct (Qle_bool b a) eqn:E.
  - left. split; [now apply Qle_bool_iff | reflexivity].
  - right. split; [now apply Qle_bool_false | reflexivity].
Qed.

Lemma new_ErlangGenerator_cases k lambda rd :
  (((k <= 0)%Z \/ (lambda <= 0)%Q) /\
   new_ErlangGenerator k lambda rd = Throw invalid_argument) \/
  (((0 < k)%Z /\ (0 < lambda)%Q) /\
   new_ErlangGenerator k lambda rd = Ok (ErlangGenerator k lambda (seed rd))).
Proof.
  unfold new_ErlangGenerator. destruct (Z.leb_spec k 0); [left; auto|].
  destruct (Qle_bool lambda 0) eqn:E.
  - left. split; [right; now apply Qle_bool_iff | reflexivity].
  - right. split; [split; [lia | now apply Qle_bool_false] | reflexivity].
Qed.

(** C8.  Construction raises [invalid_argument], and yields no object,
    exactly when the arguments are invalid: a simulator with
    [num_cores <= 0], an exponential generator with [lambda <= 0], a uniform
    generator with [a >= b], an Erlang generator with [k <= 0] or
    [lambda <= 0].  Every other argument combination yields an object (and a
    deterministic generator is always constructed); a simulator so
    constructed has [num_cores] idle cores. *)
Theorem construction_fails_exactly_on_invalid_arguments :
  (forall ag sg num_cores buffer_cap heap,
      (new_Simulator ag sg num_cores buffer_cap heap = Throw invalid_argument
       <-> (num_cores <= 0)%Z) /\
      ((exists s, new_Simulator ag sg num_cores buffer_cap heap = Ok s /\
                  num_cores_ s = num_cores /\
                  buffer_capacity_ s = buffer_cap /\
                  cores_busy_ s = replicate (Z.to_nat num_cores) false)
       <-> (0 < num_cores)%Z)) /\
  (forall lambda rd,
      (new_ExponentialGenerator lambda rd = Throw invalid_argument
       <-> (lambda <= 0)%Q) /\
      (new_ExponentialGenerator lambda rd
       = Ok (ExponentialGenerator lambda (seed rd)) <-> (0 < lambda)%Q)) /\
  (forall a b rd,
      (new_UniformGenerator a b rd = Throw invalid_argument <-> (b <= a)%Q) /\
      (new_UniformGenerator a b rd = Ok (UniformGenerator a b (seed rd))
       <-> (a < b)%Q)) /\
  (forall k lambda rd,
      (new_ErlangGenerator k lambda rd = Throw invalid_argument
       <-> (k <= 0)%Z \/ (lambda <= 0)%Q) /\
      (new_ErlangGenerator k lambda rd = Ok (ErlangGenerator k lambda (seed rd))
       <-> (0 < k)%Z /\ (0 < lambda)%Q)) /\
  (forall v, new_DeterministicGenerator v = Ok (DeterministicGenerator v)).
Proof.
  split; [|split; [|split; [|split]]].
  - intros ag sg n cap heap.
    destruct (new_Simulator_cases ag sg n cap heap) as [[H ->]|[H ->]].
    + split; [tauto|]. split; [|lia]. intros (s & Hs & _). discriminate.
    + split; [split; [discriminate|lia]|]. split; [tauto|].
      intros _. eexists. repeat split.
  - intros lambda rd.
    destruct (new_ExponentialGenerator_cases lambda rd) as [[H ->]|[H ->]].
    + split; [tauto|]. split; [discriminate|lra].
    + split; [|tauto]. split; [discriminate|lra].
  - intros a b rd.
    destruct (new_UniformGenerator_cases a b rd) as [[H ->]|[H ->]].
    + split; [tauto|]. split; [discriminate|lra].
    + split; [|tauto]. split; [discriminate|lra].
  - intros k lambda rd.
    destruct (new_ErlangGenerator_cases k lambda rd) as [[H ->]|[[Hk Hl] ->]].
    + split; [tauto|]. split; [discriminate|]. intros [Hk Hl].
      destruct H; [lia|lra].
    + split; [|tauto]. split; [discriminate|]. intros [H|H]; [lia|lra].
  - reflexivity.
Qed.

(* ===================================================================== *)
(** * The values a generator returns                                        *)
(* ===================================================================== *)

Lemma erlang_loop_draws n sum s : draws (snd (erlang_loop n sum s)) = draws s.
Proof.
  revert sum s. induction n as [|n IH]; intros sum s; simpl; [reflexivity|].
  now rewrite IH.
Qed.

Lemma erlang_loop_lower n sum s :
  (forall i, 0 <= draws s i)%Q -> (sum <= fst (erlang_loop n sum s))%Q.
Proof.
  revert sum s. induction n as [|n IH]; intros sum s H; simpl; [lra|].
  specialize (IH (sum + draws s (used s))%Q (mkSource (draws s) (S (used s))) H).
  specialize (H (used s)). lra.
Qed.

Lemma generate_conforming g : conforming g -> conforming (snd (generate g)).
Proof.
  destruct g as [l s|a b s|v|k l s]; simpl; auto.
  intros H. destruct (erlang_loop (Z.to_nat k) 0 s) as [x s'] eqn:E. simpl.
  intros n. replace (draws s') with (draws (snd (erlang_loop (Z.to_nat k) 0 s))).
  - rewrite erlang_loop_draws. apply H.
  - now rewrite E.
Qed.

Lemma generate_lower_bound g :
  lower_bound (snd (generate g)) = lower_bound g.
Proof.
  destruct g as [l s|a b s|v|k l s]; simpl; auto.
  now destruct (erlang_loop (Z.to_nat k) 0 s).
Qed.

Lemma generate_range g :
  conforming g ->
  (lower_bound g <= fst (generate g))%Q /\
  match g with
  | UniformGenerator _ b _ => (fst (generate g) < b)%Q
  | DeterministicGenerator v => fst (generate g) = v
  | _ => True
  end.
Proof.
  destruct g as [l s|a b s|v|k l s]; simpl; intros H.
  - split; [apply H|exact I].
  - apply H.
  - split; [lra|reflexivity].
  - split; [|exact I].
    pose proof (erlang_loop_lower (Z.to_nat k) 0 s H) as Hl.
    now destruct (erlang_loop (Z.to_nat k) 0 s).
Qed.

Lemma generate_kind g : same_distribution g (snd (generate g)).
Proof.
  destruct g as [l s|a b s|v|k l s]; simpl; auto.
  now destruct (erlang_loop (Z.to_nat k) 0 s).
Qed.


(** A deterministic generator returns its parameter, of either sign. *)
Lemma deterministic_generator_negative_sample :
  new_DeterministicGenerator (-1) = Ok (DeterministicGenerator (-1)) /\
  samples 2 (DeterministicGenerator (-1)) = [(-1)%Q; (-1)%Q].
Proof. split; reflexivity. Qed.

(* ===================================================================== *)
(** * Sample variance                                                       *)
(* ===================================================================== *)

Lemma fold_left_Qplus (v : list Q) (a : Q) :
  (fold_left Qplus v a == a + Qsum v)%Q.
Proof.
  revert a. induction v as [|x v IH]; intros a; simpl.
  - ring.
  - rewrite IH. unfold Qsum. simpl. ring.
Qed.

Lemma average_arithmetic_mean (v : list Q) :
  (average v == arithmetic_mean v)%Q.
Proof.
  unfold average, arithmetic_mean. rewrite fold_left_Qplus.
  now rewrite Qplus_0_l.
Qed.





(* ===================================================================== *)
(** * Queue disciplines                                                     *)
(* ===================================================================== *)

(** ** Round robin *)

(** C7, evaluated.  With two sub-queues, after four pushes and one pop
    (which serves sub-queue 0) the code stores the fifth item in sub-queue 1,
    not in sub-queue 0 as the cyclic order of pushes requires, and its second
    pop scans from sub-queue 0, not from sub-queue 1 (the one after the
    sub-queue served last): it returns 3 where the worded discipline
    returns 2.  Both follow from [push] and [pop] sharing the one index
    [current_queue_]. *)
Theorem RoundRobin_shared_cursor :
  @new_RoundRobinStrategy nat 2 = Ok (mkRoundRobin [[]; []] 0) /\
  RoundRobin_run interleaved_schedule (mkRoundRobin [[]; []] 0)
  = ([0; 1; 0; 1; 1], [Ok 1; Ok 3])%nat /\
  RoundRobinSpec_run interleaved_schedule (RoundRobinSpec_new 2)
  = ([0; 1; 0; 1; 0], [Ok 1; Ok 2])%nat.
Proof. repeat split. Qed.

(** Without interleaving the two agree: pushes alone are stored cyclically. *)
Lemma RoundRobin_push_only (T : Type) (xs : list T) (r : RoundRobinStrategy T) :
  fst (RoundRobin_run (map Push xs) r)
  = map (fun i => (current_queue_ r + i) mod length (queues_ r))%nat
        (seq 0 (length xs))
  \/ (length (queues_ r) <= current_queue_ r)%nat.
Proof.
  destruct (Nat.le_gt_cases (length (queues_ r)) (current_queue_ r)) as [H|H];
    [now right|left].
  revert r H. induction xs as [|x xs IH]; intros r H; simpl; [reflexivity|].
  specialize (IH (RoundRobin_push x r)).
  destruct (RoundRobin_run (map Push xs) (RoundRobin_push x r)) as [ds os].
  simpl in *. rewrite Nat.add_0_r, (Nat.mod_small _ _ H). f_equal.
  rewrite IH.
  - rewrite length_alter, <- seq_shift, map_map.
    apply map_ext. intros i.
    rewrite Nat.Div0.add_mod_idemp_l. f_equal. lia.
  - rewrite length_alter. apply Nat.mod_upper_bound. lia.
Qed.

Lemma RoundRobin_scan_Throw (T : Type) (n i : nat) (r : RoundRobinStrategy T)
  (e : exception) :
  RoundRobin_scan n i r = Throw e ->
  forall j, (i <= j < i + n)%nat ->
            queues_ r !! ((current_queue_ r + j) mod length (queues_ r))%nat
            ≠ None ->
            queues_ r !! ((current_queue_ r + j) mod length (queues_ r))%nat
            = Some [].
Proof.
  revert i. induction n as [|n IH]; intros i H j Hj Hin; [lia|].
  simpl in H.
  destruct (queues_ r !! ((current_queue_ r + i) mod length (queues_ r))%nat)
    as [[|x q]|] eqn:E; try discriminate.
  - destruct (Nat.eq_dec i j) as [<-|Hne]; [exact E|].
    apply (IH (S i) H); [lia|exact Hin].
  - destruct (Nat.eq_dec i j) as [<-|Hne]; [congruence|].
    apply (IH (S i) H); [lia|exact Hin].
Qed.

(** [pop] fails only when every sub-queue is empty. *)
Lemma RoundRobin_pop_Throw (T : Type) (r : RoundRobinStrategy T) (e : exception) :
  RoundRobin_pop r = Throw e -> RoundRobin_empty r = true.
Proof.
  intros H. unfold RoundRobin_empty. apply forallb_forall. intros q Hq.
  apply list_elem_of_In, list_elem_of_lookup in Hq as [j Hj].
  pose proof (lookup_lt_Some _ _ _ Hj) as Hlt.
  set (k := length (queues_ r)) in *. set (c := current_queue_ r).
  set (i := (if (c mod k <=? j) then j - c mod k else j + k - c mod k)%nat).
  assert (Hc : (c mod k < k)%nat) by (apply Nat.mod_upper_bound; lia).
  assert (Hi : (i < k)%nat).
  { unfold i. destruct (Nat.leb_spec (c mod k) j); lia. }
  assert (Hmod : ((c + i) mod k = j)%nat).
  { rewrite <- Nat.Div0.add_mod_idemp_l.
    unfold i. destruct (Nat.leb_spec (c mod k) j).
    - replace (c mod k + (j - c mod k))%nat with j by lia.
      now apply Nat.mod_small.
    - replace (c mod k + (j + k - c mod k))%nat with (j + 1 * k)%nat by lia.
      rewrite Nat.Div0.mod_add. now apply Nat.mod_small. }
  unfold RoundRobin_pop in H.
  pose proof (RoundRobin_scan_Throw T _ _ r e H i) as Hs.
  fold k c in Hs. rewrite Hmod, Hj in Hs.
  assert (Some q = Some []) as [= ->] by (apply Hs; [lia|discriminate]).
  reflexivity.
Qed.

(** ** Priority *)

Section PriorityFacts.
Context {T : Type}.
Implicit Types (ps : list (PriorityItem T)) (f : list T)
  (q : PriorityStrategy T).

Lemma to_int_small (z : Z) : (0 <= z < 2 ^ 31)%Z -> to_int z = z.
Proof. intros H. unfold to_int. rewrite Z.mod_small; lia. Qed.

Lemma keyed_length lo ps f : keyed lo ps f -> length ps = length f.
Proof.
  revert lo f. induction ps as [|p ps IH]; intros lo [|x f] H; simpl in *;
    try tauto.
  destruct H as (_ & _ & H). f_equal. eauto.
Qed.

Lemma keyed_lower lo ps f :
  keyed lo ps f -> forall y, y ∈ ps -> (lo <= priority y)%Z.
Proof.
  revert lo f. induction ps as [|p ps IH]; intros lo [|x f] H y Hy;
    simpl in *; try tauto.
  - inversion Hy.
  - destruct H as (_ & Hp & H). apply elem_of_cons in Hy as [->|Hy]; [lia|].
    specialize (IH _ _ H y Hy). lia.
Qed.

Lemma keyed_push lo ps f x :
  keyed lo ps f ->
  keyed lo (ps ++ [mkPriorityItem x (lo + Z.of_nat (length ps))]) (f ++ [x]).
Proof.
  revert lo f. induction ps as [|p ps IH]; intros lo [|y f] H;
    try (simpl in H; tauto).
  - simpl. repeat split. lia.
  - destruct H as (Hi & Hp & H). cbn [app keyed].
    split; [exact Hi|]. split; [exact Hp|].
    replace (lo + Z.of_nat (length (p :: ps)))%Z
      with (lo + 1 + Z.of_nat (length ps))%Z by (simpl length; lia).
    now apply IH.
Qed.

Lemma filter_none (P : nat -> bool) (l : list nat) :
  (forall i, In i l -> P i = false) -> List.filter P l = [].
Proof.
  induction l as [|a l IH]; intros H; simpl; [reflexivity|].
  rewrite (H a) by now left. apply IH. intros i Hi. apply H. now right.
Qed.

Lemma filter_seq_first (P : nat -> bool) (n : nat) :
  P 0%nat = true -> (forall i, (1 <= i < S n)%nat -> P i = false) ->
  List.filter P (seq 0 (S n)) = [0%nat].
Proof.
  intros H0 H. change (seq 0 (S n)) with (0%nat :: seq 1 n).
  cbn [List.filter]. rewrite H0. f_equal. apply filter_none.
  intros i Hi. apply in_seq in Hi. apply H. lia.
Qed.

(** With consecutive keys the oldest item is the only one that may be at the
    top of the heap. *)
Lemma keyed_tops lo p ps x f :
  keyed lo (p :: ps) (x :: f) -> tops PriorityItem_gt (p :: ps) = [0%nat].
Proof.
  intros (Hi & Hp & H). unfold tops.
  change (length (p :: ps)) with (S (length ps)).
  apply filter_seq_first.
  - change ((p :: ps) !! 0%nat) with (Some p).
    apply is_top_spec. intros y Hy. unfold PriorityItem_gt.
    apply Z.ltb_ge. apply elem_of_cons in Hy as [->|Hy]; [lia|].
    pose proof (keyed_lower _ _ _ H y Hy). lia.
  - intros i Hin.
    destruct ((p :: ps) !! i) as [y|] eqn:E; [|reflexivity].
    destruct i as [|i]; [lia|]. simpl in E.
    apply not_true_is_false. intros Hy. rewrite is_top_spec in Hy.
    specialize (Hy p (list_elem_of_here _ _)). unfold PriorityItem_gt in Hy.
    apply Z.ltb_ge in Hy.
    pose proof (keyed_lower _ _ _ H y (list_elem_of_lookup_2 _ _ _ E)). lia.
Qed.

Lemma Priority_pop_keyed lo q x f :
  keyed lo (elems q) (x :: f) ->
  exists q', Priority_pop q = Ok (x, q') /\ keyed (lo + 1) (elems q') f.
Proof.
  intros H. destruct (elems q) as [|p ps] eqn:E; [contradiction|].
  pose proof (keyed_tops _ _ _ _ _ H) as Ht.
  destruct H as (Hi & Hp & H).
  unfold Priority_pop, pq_empty, pq_top, pq_pop, pq_choice.
  rewrite E, Ht. simpl length. rewrite Nat.mod_1_r. simpl.
  rewrite Hi. eexists. split; [reflexivity|exact H].
Qed.

Lemma Priority_pop_empty q :
  elems q = [] -> Priority_pop q = Throw runtime_error.
Proof. intros H. unfold Priority_pop, pq_empty. now rewrite H. Qed.

Lemma Priority_push_keyed q f x :
  keyed 0 (elems q) f -> (Z.of_nat (length f) < 2 ^ 31)%Z ->
  keyed 0 (elems (Priority_push x q)) (f ++ [x]).
Proof.
  intros H Hlen. unfold Priority_push, pq_push, pq_size. simpl.
  pose proof (keyed_length _ _ _ H) as Hl.
  rewrite to_int_small by lia.
  now apply (keyed_push 0).
Qed.

Lemma Priority_run_keyed (ops : list (op T)) :
  forall lo q f popped,
    keyed lo (elems q) f ->
    (popped = false -> lo = 0%Z) ->
    batched (length f) popped ops = true ->
    (Z.of_nat (length f + length ops) < 2 ^ 31)%Z ->
    Priority_run ops q = FIFO_run ops f.
Proof.
  induction ops as [|[x|] ops IH]; intros lo q f popped H Hlo Hb Hlen;
    simpl in Hb |- *; simpl length in Hlen; [reflexivity| |].
  - apply andb_true_iff in Hb as [Hp Hb]. apply negb_true_iff in Hp.
    rewrite (Hlo Hp) in H.
    apply (IH 0%Z _ _ false).
    + apply Priority_push_keyed; [exact H|lia].
    + reflexivity.
    + unfold FIFO_push. rewrite length_app. simpl length.
      now rewrite Nat.add_1_r.
    + unfold FIFO_push. rewrite length_app. simpl length. lia.
  - destruct f as [|x f].
    + assert (Hq : elems q = []).
      { simpl in H. destruct (elems q); [reflexivity|contradiction]. }
      rewrite (Priority_pop_empty _ Hq). simpl. f_equal.
      apply (IH 0%Z _ _ false); auto.
      * rewrite Hq. exact I.
      * simpl length in *. lia.
    + destruct (Priority_pop_keyed _ _ _ _ H) as (q' & -> & H').
      simpl. f_equal. simpl length in Hlen, Hb.
      destruct f as [|y f].
      * apply (IH 0%Z _ _ false); auto; [|simpl length; lia].
        simpl in H'. destruct (elems q'); [exact I|contradiction].
      * apply (IH (lo + 1)%Z _ _ true); auto; [discriminate|].
        simpl length in *. lia.
Qed.
End PriorityFacts.

(** C5, as the code has it.  [push] keys an item with the number of items
    buffered at that moment, and [pop] returns an item of least key.  For
    every schedule in which no push follows a pop that left items buffered
    (in particular when all pushes precede all pops), and for every layout of
    the heap, the pops return what a FIFO discipline returns. *)
Theorem Priority_is_FIFO_on_batched_schedules (T : Type) (heap : nat -> nat)
  (ops : list (op T)) :
  batched 0 false ops = true ->
  (Z.of_nat (length ops) < 2 ^ 31)%Z ->
  Priority_run ops (pq_new heap) = FIFO_run ops [].
Proof.
  intros Hb Hlen. apply (Priority_run_keyed ops 0%Z _ _ false); auto.
  exact I.
Qed.

Lemma Priority_is_FIFO_on_batched_schedules_witness :
  Priority_run [Push 7; Push 8; Pop; Pop; Pop; Push 9; Pop]%nat
               (pq_new (fun n => n))
  = FIFO_run [Push 7; Push 8; Pop; Pop; Pop; Push 9; Pop]%nat [].
Proof.
  apply Priority_is_FIFO_on_batched_schedules; [reflexivity|].
  vm_compute. reflexivity.
Defined.

(** Whatever the layout of the heap, the third pop of [refill_schedule]
    returns item 4, pushed last, while item 3 is still buffered. *)
Lemma Priority_refill (heap : nat -> nat) :
  Priority_run refill_schedule (pq_new heap) = [Ok 1; Ok 2; Ok 4]%nat /\
  FIFO_run refill_schedule [] = [Ok 1; Ok 2; Ok 3]%nat /\
  map priority
      (elems (Priority_push 4 (mkPQ [mkPriorityItem 3 2] heap 2)))%nat
  = [2; 1]%Z.
Proof.
  vm_compute. repeat split.
Qed.

(** C5, as stated, fails: the pops of the priority discipline are not those
    of FIFO on every schedule. *)
Lemma Priority_is_not_FIFO :
  ~ (forall (heap : nat -> nat) (ops : list (op nat)),
        Priority_run ops (pq_new heap) = FIFO_run ops []).
Proof.
  intros H. specialize (H (fun _ => 0%nat) refill_schedule).
  destruct (Priority_refill (fun _ => 0%nat)) as (Hp & Hf & _).
  assert (Hne : [Ok 1; Ok 2; Ok 4]%nat = [@Ok nat 1; Ok 2; Ok 3]%nat)
    by (rewrite <- Hp, <- Hf; exact H).
  congruence.
Qed.

(* ===================================================================== *)
(** * The simulator: bookkeeping invariant                                  *)
(* ===================================================================== *)

Lemma count_true_acc (l : list bool) (a : Z) :
  fold_left (fun count (busy : bool) => if busy then (count + 1)%Z else count)
            l a = (a + count_true l)%Z.
Proof.
  unfold count_true. revert a. induction l as [|b l IH]; intros a; simpl.
  - lia.
  - rewrite IH, (IH (if b then _ else _)). destruct b; lia.
Qed.

Lemma count_true_cons (b : bool) (l : list bool) :
  count_true (b :: l) = ((if b then 1 else 0) + count_true l)%Z.
Proof. unfold count_true at 1. simpl. rewrite count_true_acc. now destruct b. Qed.

Lemma count_true_insert (l : list bool) (i : nat) (b b0 : bool) :
  l !! i = Some b0 ->
  count_true (<[i := b]> l)
  = (count_true l - (if b0 then 1 else 0) + (if b then 1 else 0))%Z.
Proof.
  revert i. induction l as [|a l IH]; intros [|i] H; simpl in *; try discriminate.
  - injection H as ->. rewrite !count_true_cons. lia.
  - rewrite !count_true_cons, (IH i H). lia.
Qed.

Lemma count_true_replicate (n : nat) : count_true (replicate n false) = 0%Z.
Proof.
  induction n as [|n IH]; [reflexivity|]. simpl.
  now rewrite count_true_cons, IH.
Qed.

Lemma find_free_core_loop_spec (n : nat) (i : Z) (busy : list bool) :
  (0 <= i)%Z ->
  (find_free_core_loop n i busy = (-1)%Z /\
   forall j, (i <= j < i + Z.of_nat n)%Z -> busy !! Z.to_nat j ≠ Some false) \/
  ((i <= find_free_core_loop n i busy < i + Z.of_nat n)%Z /\
   busy !! Z.to_nat (find_free_core_loop n i busy) = Some false).
Proof.
  revert i. induction n as [|n IH]; intros i Hi; simpl.
  - left. split; [reflexivity|]. intros j Hj. lia.
  - destruct (busy !! Z.to_nat i) as [[|]|] eqn:E.
    + destruct (IH (i + 1)%Z ltac:(lia)) as [[-> H]|[H1 H2]].
      * left. split; [reflexivity|]. intros j Hj.
        destruct (Z.eq_dec j i) as [->|Hne]; [congruence|]. apply H. lia.
      * right. split; [lia|exact H2].
    + right. split; [lia|exact E].
    + destruct (IH (i + 1)%Z ltac:(lia)) as [[-> H]|[H1 H2]].
      * left. split; [reflexivity|]. intros j Hj.
        destruct (Z.eq_dec j i) as [->|Hne]; [congruence|]. apply H. lia.
      * right. split; [lia|exact H2].
Qed.

Lemma find_free_core_spec (s : Simulator) :
  (find_free_core s = (-1)%Z /\
   forall j, (0 <= j < num_cores_ s)%Z ->
             cores_busy_ s !! Z.to_nat j ≠ Some false) \/
  ((0 <= find_free_core s < num_cores_ s)%Z /\
   cores_busy_ s !! Z.to_nat (find_free_core s) = Some false).
Proof.
  unfold find_free_core.
  destruct (find_free_core_loop_spec (Z.to_nat (num_cores_ s)) 0
              (cores_busy_ s) ltac:(lia)) as [[H1 H2]|[H1 H2]].
  - left. split; [exact H1|]. intros j Hj. apply H2. lia.
  - right. split; [lia|exact H2].
Qed.

Lemma bookkeeping_perm D D' s : D ≡ₚ D' -> bookkeeping D s -> bookkeeping D' s.
Proof.
  intros HP [].
  constructor; auto.
  - now rewrite <- HP.
  - now rewrite <- HP.
  - intros e He. rewrite <- HP in He. auto.
  - now rewrite <- HP.
  - now rewrite <- HP.
Qed.

Lemma departures_snoc l e :
  departures (l ++ [e]) ≡ₚ (if decide (type e = DEPARTURE) then e :: departures l else departures l).
Proof.
  unfold departures. rewrite filter_app, filter_cons, filter_nil.
  destruct (decide (type e = DEPARTURE)).
  - now rewrite Permutation_app_comm.
  - now rewrite app_nil_r.
Qed.

Lemma pending_schedule_next_arrival s :
  pending_departures (schedule_next_arrival s) ≡ₚ pending_departures s.
Proof.
  unfold schedule_next_arrival, pending_departures.
  destruct (generate (arrival_generator_ s)) as [x g]. simpl.
  now rewrite departures_snoc.
Qed.

Lemma schedule_next_arrival_frame s :
  let s' := schedule_next_arrival s in
  current_time_ s' = current_time_ s /\ jobs_completed_ s' = jobs_completed_ s /\
  jobs_lost_ s' = jobs_lost_ s /\ next_job_id_ s' = next_job_id_ s /\
  total_arrivals_ s' = total_arrivals_ s /\
  service_generator_ s' = service_generator_ s /\
  num_cores_ s' = num_cores_ s /\ buffer_capacity_ s' = buffer_capacity_ s /\
  job_queue_ s' = job_queue_ s /\ cores_busy_ s' = cores_busy_ s /\
  active_jobs_ s' = active_jobs_ s /\ wait_times_ s' = wait_times_ s /\
  system_times_ s' = system_times_ s /\ history_ s' = history_ s.
Proof.
  unfold schedule_next_arrival.
  destruct (generate (arrival_generator_ s)) as [x g]. simpl. repeat split.
Qed.

Lemma schedule_next_arrival_history s :
  history_ (schedule_next_arrival s) = history_ s.
Proof. apply schedule_next_arrival_frame. Qed.

Lemma bookkeeping_schedule_next_arrival D s :
  bookkeeping D s -> bookkeeping D (schedule_next_arrival s).
Proof.
  intros [].
  destruct (schedule_next_arrival_frame s) as (H1&H2&H3&H4&H5&H6&H7&H8&H9&H10&H11&H12&H13&H14).
  constructor; unfold count_busy_cores in *; rewrite ?H1, ?H2, ?H3, ?H4, ?H5, ?H7, ?H9, ?H10, ?H11, ?H14; auto.
Qed.

Lemma consistent_schedule_next_arrival D s :
  bookkeeping D s -> pending_departures s ≡ₚ D -> consistent (schedule_next_arrival s).
Proof.
  intros B HD. unfold consistent.
  apply (bookkeeping_perm D).
  - now rewrite pending_schedule_next_arrival.
  - now apply bookkeeping_schedule_next_arrival.
Qed.

Lemma keys_insert (m : gmap Z Job) (id next next' : Z) (job : Job) :
  (forall k j, m !! k = Some j -> (k < next)%Z /\ Job_id j = k) ->
  Job_id job = id -> (id < next')%Z -> (next <= next')%Z ->
  forall k j, <[id := job]> m !! k = Some j -> (k < next')%Z /\ Job_id j = k.
Proof.
  intros H Hid Hlt Hle k j. rewrite lookup_insert. case_decide.
  - intros [= <-]. subst. auto.
  - intros Hk. destruct (H k j Hk). split; [lia|assumption].
Qed.

Lemma fresh_not_pending (m : gmap Z Job) (id : Z) (D : list Event) (q : list Job) :
  m !! id = None ->
  (forall e, e ∈ D -> is_Some (m !! job_id e)) ->
  (forall j, j ∈ q -> is_Some (m !! Job_id j)) ->
  id ∉ (job_id <$> D) ++ (Job_id <$> q).
Proof.
  intros Hid HD Hq Hin. apply elem_of_app in Hin as [Hin|Hin].
  - apply list_elem_of_fmap in Hin as (e & -> & He).
    destruct (HD e He) as [j Hj]. congruence.
  - apply list_elem_of_fmap in Hin as (j & -> & Hj).
    destruct (Hq j Hj) as [j' Hj']. congruence.
Qed.

Lemma process_arrival_consistent D s :
  bookkeeping D s -> pending_departures s ≡ₚ D ->
  (total_arrivals_ s < Z.of_nat (length (history_ s)))%Z ->
  exists s', process_arrival s = Ok s' /\ consistent s' /\ history_ s' = history_ s.
Proof.
  intros B HD Hh. destruct B as [Bc Bl Bk Bco Bjo Bs Bw Bbc Bsz Bcnt Bcomp Blost Barr]. unfold process_arrival.
  unfold find_free_core, buffer_full. simpl.
  fold (find_free_core s).
  destruct (generate (service_generator_ s)) as [st g].
  assert (Hfresh : active_jobs_ s !! next_job_id_ s = None).
  { destruct (active_jobs_ s !! next_job_id_ s) as [j|] eqn:E; [|reflexivity].
    apply Bk in E. lia. }
  assert (Hnew : next_job_id_ s ∉ (job_id <$> D) ++ (Job_id <$> job_queue_ s)).
  { apply (fresh_not_pending _ _ _ _ Hfresh); [|exact Bw].
    intros e He. now apply Bs. }
  destruct (find_free_core_spec s) as [[Hc Hall]|[Hc Hfree]].
  - rewrite Hc. simpl.
    match goal with |- context [if ?b then Ok _ else Ok _] => destruct b end;
      simpl; (eexists; split; [reflexivity|]).
    + split; [|now rewrite schedule_next_arrival_history].
      apply (consistent_schedule_next_arrival D); [|exact HD].
      constructor; simpl; auto.
      * rewrite delete_insert_id by exact Hfresh. intros k j Hk.
        destruct (Bk k j Hk). split; [lia|assumption].
      * now rewrite delete_insert_id by exact Hfresh.
      * now rewrite delete_insert_id by exact Hfresh.
      * now rewrite delete_insert_id by exact Hfresh.
      * rewrite delete_insert_id by exact Hfresh. lia.
      * lia.
      * lia.
    + split; [|now rewrite schedule_next_arrival_history].
      apply (consistent_schedule_next_arrival D); [|exact HD].
      constructor; simpl; auto.
      * apply (keys_insert _ _ (next_job_id_ s)); auto; lia.
      * unfold FIFOQueue_push. rewrite fmap_app, app_assoc. simpl.
        apply NoDup_app. split; [exact Bjo|]. split; [|apply NoDup_singleton].
        intros x Hx Hx'. apply list_elem_of_singleton in Hx' as ->.
        contradiction.
      * intros e He. destruct (Bs e He) as (H1 & H2 & H3).
        split; [exact H1|]. split; [exact H2|].
        apply lookup_insert_is_Some'. now right.
      * intros j Hj. apply lookup_insert_is_Some'.
        apply elem_of_app in Hj as [Hj|Hj]; [right; auto|].
        apply list_elem_of_singleton in Hj as ->. now left.
      * rewrite map_size_insert_None by exact Hfresh.
        unfold FIFOQueue_push. rewrite length_app. simpl. lia.
      * rewrite map_size_insert_None by exact Hfresh. lia.
      * lia.
  - destruct (Z.eqb_spec (find_free_core s) (-1)) as [E|_]; [lia|]. simpl.
    unfold occupy_core. simpl.
    destruct (Z.ltb_spec (find_free_core s) 0); [lia|].
    destruct (Z.leb_spec (num_cores_ s) (find_free_core s)); [lia|]. simpl.
    unfold at_key. rewrite lookup_insert_eq, insert_insert_eq.
    eexists; split; [reflexivity|].
    split; [|now rewrite schedule_next_arrival_history].
    set (c := find_free_core s) in *.
    set (dep := Event_departure (current_time_ s + st) (next_job_id_ s) c).
    apply (consistent_schedule_next_arrival (dep :: D)).
    2:{ unfold pending_departures, schedule_departure. simpl.
        rewrite departures_snoc. simpl. now rewrite HD. }
    assert (Hcore : c ∉ core_id <$> D).
    { intros Hin. apply list_elem_of_fmap in Hin as (e & Hce & He).
      destruct (Bs e He) as (_ & Hb & _). rewrite <- Hce in Hb. congruence. }
    constructor; simpl; auto.
    + rewrite length_insert. exact Bl.
    + apply (keys_insert _ _ (next_job_id_ s)); auto; lia.
    + apply NoDup_cons. split; assumption.
    + apply NoDup_cons. split; assumption.
    + intros e He. apply elem_of_cons in He as [->|He]; simpl.
      * split; [lia|]. split.
        -- apply list_lookup_insert_eq. lia.
        -- rewrite lookup_insert_eq. eauto.
      * destruct (Bs e He) as (H1 & H2 & H3). split; [exact H1|]. split.
        -- destruct (decide (Z.to_nat c = Z.to_nat (core_id e))) as [E|E].
           ++ rewrite <- E. apply list_lookup_insert_eq. lia.
           ++ now rewrite list_lookup_insert_ne.
        -- apply lookup_insert_is_Some'. now right.
    + intros j Hj. apply lookup_insert_is_Some'. right. auto.
    + unfold count_busy_cores in *. simpl. fold (count_true (cores_busy_ s)) in Bbc.
      fold (count_true (<[Z.to_nat c:=true]> (cores_busy_ s))).
      rewrite (count_true_insert _ _ _ _ Hfree). lia.
    + rewrite map_size_insert_None by exact Hfresh. lia.
    + rewrite map_size_insert_None by exact Hfresh. lia.
    + lia.
Qed.

Lemma busy_other (busy : list bool) (c c' : Z) (b : bool) :
  (0 <= c)%Z -> (0 <= c')%Z -> c <> c' ->
  <[Z.to_nat c := b]> busy !! Z.to_nat c' = busy !! Z.to_nat c'.
Proof. intros. apply list_lookup_insert_ne. lia. Qed.

Lemma process_departure_consistent D e s :
  bookkeeping (e :: D) s -> pending_departures s ≡ₚ D ->
  exists s', process_departure (job_id e) (core_id e) s = Ok s' /\
             consistent s' /\ history_ s' = history_ s.
Proof.
  intros B HD.
  destruct B as [Bc Bl Bk Bco Bjo Bs Bw Bbc Bsz Bcnt Bcomp Blost Barr].
  destruct (Bs e (list_elem_of_here _ _)) as (Hrange & Hbusy & [job Hjob]).
  simpl in Bco, Bjo, Bbc, Bsz.
  apply NoDup_cons in Bco as [Hcore Bco].
  apply NoDup_cons in Bjo as [Hjobid Bjo].
  assert (BsD : forall e', e' ∈ D ->
            (0 <= core_id e' < num_cores_ s)%Z /\
            cores_busy_ s !! Z.to_nat (core_id e') = Some true /\
            is_Some (active_jobs_ s !! job_id e') /\
            core_id e' <> core_id e /\ job_id e' <> job_id e).
  { intros e' He'. destruct (Bs e' (list_elem_of_further _ _ _ He')) as (H1 & H2 & H3).
    repeat split; auto; try lia.
    - intros E. apply Hcore. rewrite <- E. apply list_elem_of_fmap. eauto.
    - intros E. apply Hjobid, elem_of_app. left. rewrite <- E.
      apply list_elem_of_fmap. eauto. }
  assert (BwD : forall j, j ∈ job_queue_ s ->
            is_Some (active_jobs_ s !! Job_id j) /\ Job_id j <> job_id e).
  { intros j Hj. split; [auto|]. intros E. apply Hjobid, elem_of_app. right.
    rewrite <- E. apply list_elem_of_fmap. eauto. }
  unfold process_departure. rewrite Hjob. simpl.
  unfold release_core. simpl.
  destruct (Z.ltb_spec (core_id e) 0); [lia|].
  destruct (Z.leb_spec (num_cores_ s) (core_id e)); [lia|]. simpl.
  rewrite delete_insert_eq.
  destruct (job_queue_ s) as [|waiting q] eqn:Eq; simpl.
  - eexists; split; [reflexivity|]. split; [|reflexivity].
    unfold consistent. apply (bookkeeping_perm D); [now rewrite <- HD|].
    constructor; simpl; auto.
    + now rewrite length_insert.
    + intros k j Hk. apply lookup_delete_Some in Hk as [_ Hk]. eauto.
    + rewrite Eq. simpl. exact Bjo.
    + intros e' He'. destruct (BsD e' He') as (H1 & H2 & H3 & H4 & H5).
      split; [exact H1|]. split.
      * rewrite busy_other; auto; lia.
      * now rewrite lookup_delete_ne.
    + rewrite Eq. intros j Hj. inversion Hj.
    + unfold count_busy_cores in *. simpl.
      fold (count_true (cores_busy_ s)) in Bbc.
      fold (count_true (<[Z.to_nat (core_id e):=false]> (cores_busy_ s))).
      rewrite (count_true_insert _ _ _ _ Hbusy). lia.
    + rewrite map_size_delete_Some by eauto. rewrite Eq. simpl in *. lia.
    + rewrite map_size_delete_Some by eauto.
      assert (0 < size (active_jobs_ s))%nat by lia. lia.
    + lia.
  - destruct (BwD waiting (list_elem_of_here _ _)) as ([w Hw] & Hne).
    assert (Hw' : delete (job_id e) (active_jobs_ s) !! Job_id waiting = Some w)
      by now rewrite lookup_delete_ne.
    rewrite Hw'. destruct (Bk _ _ Hw) as [Hlt Hid].
    unfold occupy_core. simpl.
    destruct (Z.ltb_spec (core_id e) 0); [lia|].
    destruct (Z.leb_spec (num_cores_ s) (core_id e)); [lia|]. simpl.
    rewrite list_insert_insert_eq.
    eexists; split; [reflexivity|]. split; [|reflexivity].
    set (dep := Event_departure (current_time_ s + service_time w)
                                (Job_id w) (core_id e)).
    unfold consistent. apply (bookkeeping_perm (dep :: D)).
    { unfold pending_departures, schedule_departure. simpl.
      rewrite departures_snoc. simpl. now rewrite <- HD. }
    simpl in Bjo, Hjobid.
    assert (Bjo' : NoDup (Job_id waiting :: (job_id <$> D) ++ (Job_id <$> q))).
    { now rewrite <- Permutation_middle in Bjo. }
    constructor; simpl; auto.
    + now rewrite length_insert.
    + intros k j. rewrite lookup_insert. case_decide.
      * intros [= <-]. simpl. subst k. split; [lia|exact Hid].
      * intros Hk. apply lookup_delete_Some in Hk as [_ Hk]. eauto.
    + apply NoDup_cons. split; assumption.
    + rewrite Hid. exact Bjo'.
    + intros e' He'. apply elem_of_cons in He' as [->|He']; simpl.
      * split; [lia|]. split.
        -- apply list_lookup_insert_eq. lia.
        -- rewrite Hid, lookup_insert_eq. eauto.
      * destruct (BsD e' He') as (G1 & G2 & G3 & G4 & G5).
        split; [exact G1|]. split.
        -- rewrite busy_other; auto; lia.
        -- apply lookup_insert_is_Some'. right. now rewrite lookup_delete_ne.
    + intros j Hj. apply lookup_insert_is_Some'. right.
      destruct (BwD j (list_elem_of_further _ _ _ Hj)) as [G1 G2].
      now rewrite lookup_delete_ne.
    + unfold count_busy_cores in *. simpl.
      fold (count_true (cores_busy_ s)) in Bbc.
      fold (count_true (<[Z.to_nat (core_id e):=true]> (cores_busy_ s))).
      rewrite (count_true_insert _ _ _ _ Hbusy). lia.
    + rewrite map_size_insert_Some by eauto.
      rewrite map_size_delete_Some by eauto. simpl in *. lia.
    + rewrite map_size_insert_Some by eauto.
      rewrite map_size_delete_Some by eauto.
      assert (0 < size (active_jobs_ s))%nat by lia. lia.
    + lia.
Qed.

Lemma Event_gt_total (x y : Event) : Event_gt x y = false \/ Event_gt y x = false.
Proof.
  unfold Event_gt. rewrite !Qlt_bool_false.
  destruct (Qlt_le_dec (time x) (time y)); [left; lra|right; lra].
Qed.

Lemma Event_gt_trans (x y z : Event) :
  Event_gt x y = false -> Event_gt y z = false -> Event_gt x z = false.
Proof. unfold Event_gt. rewrite !Qlt_bool_false. lra. Qed.

Lemma Event_top_least (q : priority_queue Event) (e : Event) :
  pq_top Event_gt q = Some e ->
  elems q ≡ₚ e :: elems (pq_pop Event_gt q) /\
  forall e', e' ∈ elems q -> (time e <= time e')%Q.
Proof.
  intros H. destruct (pq_top_elems _ _ _ H) as [HP Hmin]. split; [exact HP|].
  intros e' He'. specialize (Hmin e' He'). unfold Event_gt in Hmin.
  now apply Qlt_bool_false in Hmin.
Qed.

Lemma loop_body_eq (s : Simulator) :
  loop_body s =
  match pq_top Event_gt (event_queue_ s) with
  | None => Throw runtime_error
  | Some e =>
      match type e with
      | ARRIVAL => process_arrival (popped e s)
      | DEPARTURE => process_departure (job_id e) (core_id e) (popped e s)
      end
  end.
Proof. reflexivity. Qed.

Lemma update_busy_statistics_frame (s : Simulator) :
  let s' := update_busy_statistics s in
  current_time_ s' = current_time_ s /\ jobs_completed_ s' = jobs_completed_ s /\
  jobs_lost_ s' = jobs_lost_ s /\ next_job_id_ s' = next_job_id_ s /\
  total_arrivals_ s' = total_arrivals_ s /\
  arrival_generator_ s' = arrival_generator_ s /\
  service_generator_ s' = service_generator_ s /\
  num_cores_ s' = num_cores_ s /\ buffer_capacity_ s' = buffer_capacity_ s /\
  event_queue_ s' = event_queue_ s /\
  job_queue_ s' = job_queue_ s /\ cores_busy_ s' = cores_busy_ s /\
  active_jobs_ s' = active_jobs_ s /\ wait_times_ s' = wait_times_ s /\
  system_times_ s' = system_times_ s /\ history_ s' = history_ s.
Proof.
  unfold update_busy_statistics.
  destruct (Qlt_bool (last_busy_check_time_ s) (current_time_ s)); simpl;
    repeat split.
Qed.

Lemma popped_frame (e : Event) (s : Simulator) :
  let s' := popped e s in
  current_time_ s' = time e /\ jobs_completed_ s' = jobs_completed_ s /\
  jobs_lost_ s' = jobs_lost_ s /\ next_job_id_ s' = next_job_id_ s /\
  total_arrivals_ s' = total_arrivals_ s /\
  arrival_generator_ s' = arrival_generator_ s /\
  service_generator_ s' = service_generator_ s /\
  num_cores_ s' = num_cores_ s /\ buffer_capacity_ s' = buffer_capacity_ s /\
  event_queue_ s' = pq_pop Event_gt (event_queue_ s) /\
  job_queue_ s' = job_queue_ s /\ cores_busy_ s' = cores_busy_ s /\
  active_jobs_ s' = active_jobs_ s /\ wait_times_ s' = wait_times_ s /\
  system_times_ s' = system_times_ s /\ history_ s' = history_ s ++ [e].
Proof.
  unfold popped.
  pose proof (update_busy_statistics_frame
                (set_current_time (time e)
                   (set_history (history_ s ++ [e])
                      (set_event_queue (pq_pop Event_gt (event_queue_ s)) s))))
    as H.
  simpl in H. exact H.
Qed.

Lemma bookkeeping_popped (D : list Event) (e : Event) (s : Simulator) :
  bookkeeping D s -> bookkeeping D (popped e s).
Proof.
  intros [].
  destruct (popped_frame e s)
    as (H1&H2&H3&H4&H5&H6&H7&H8&H9&H10&H11&H12&H13&H14&H15&H16).
  constructor; unfold count_busy_cores in *;
    rewrite ?H2, ?H3, ?H4, ?H5, ?H8, ?H11, ?H12, ?H13, ?H16; auto.
  rewrite length_app. simpl. lia.
Qed.

Lemma loop_body_consistent (s : Simulator) :
  consistent s -> pq_empty (event_queue_ s) = false ->
  exists s' e, loop_body s = Ok s' /\ consistent s' /\
               pq_top Event_gt (event_queue_ s) = Some e /\
               history_ s' = history_ s ++ [e].
Proof.
  intros B Hne.
  destruct (pq_top_is_Some Event_gt Event_gt_total Event_gt_trans _ Hne)
    as [e He].
  rewrite loop_body_eq, He.
  destruct (Event_top_least _ _ He) as [HP _].
  destruct (popped_frame e s)
    as (H1&H2&H3&H4&H5&H6&H7&H8&H9&H10&H11&H12&H13&H14&H15&H16).
  assert (Hpend : pending_departures s
                  ≡ₚ (if decide (type e = DEPARTURE)
                      then e :: pending_departures (popped e s)
                      else pending_departures (popped e s))).
  { unfold pending_departures, departures. rewrite H10, HP, filter_cons.
    reflexivity. }
  unfold consistent in B.
  destruct (type e) eqn:Et.
  - destruct (decide (ARRIVAL = DEPARTURE)); [discriminate|].
    destruct (process_arrival_consistent (pending_departures (popped e s))
                (popped e s)) as (s' & Hs' & Hc & Hh).
    + apply bookkeeping_popped. now apply (bookkeeping_perm _ _ _ Hpend).
    + reflexivity.
    + rewrite H5, H16, length_app. simpl.
      pose proof (bk_arrivals _ _ B). lia.
    + exists s', e. rewrite Hh, H16. auto.
  - destruct (decide (DEPARTURE = DEPARTURE)); [|congruence].
    destruct (process_departure_consistent (pending_departures (popped e s))
                e (popped e s)) as (s' & Hs' & Hc & Hh).
    + apply bookkeeping_popped. now apply (bookkeeping_perm _ _ _ Hpend).
    + reflexivity.
    + exists s', e. rewrite Hh, H16. auto.
Qed.

Lemma pq_top_empty {A} (gt : A -> A -> bool) (q : priority_queue A) :
  pq_empty q = true -> pq_top gt q = None.
Proof.
  unfold pq_empty, pq_top, pq_choice, tops. now destruct (elems q).
Qed.

Lemma loop_body_nonempty (s s' : Simulator) :
  loop_body s = Ok s' -> pq_empty (event_queue_ s) = false.
Proof.
  intros H. destruct (pq_empty (event_queue_ s)) eqn:E; [|reflexivity].
  rewrite loop_body_eq, (pq_top_empty _ _ E) in H. discriminate.
Qed.

Lemma consistent_start (s0 : Simulator) :
  configured s0 -> consistent (schedule_next_arrival (initialize s0)).
Proof.
  intros [Hc Hl]. apply (consistent_schedule_next_arrival []); [|reflexivity].
  constructor; simpl; auto; try (apply NoDup_nil_2); try lia.
  - now rewrite length_replicate.
  - intros k j Hk. rewrite lookup_empty in Hk. discriminate.
  - intros e He. inversion He.
  - intros j Hj. inversion Hj.
  - unfold count_busy_cores. simpl. apply count_true_replicate.
Qed.

Lemma boundary_consistent (s0 s : Simulator) :
  configured s0 -> boundary s0 s -> consistent s.
Proof.
  intros Hc Hb. induction Hb as [|s s' Hb IH Hs].
  - now apply consistent_start.
  - destruct (loop_body_consistent s IH (loop_body_nonempty _ _ Hs))
      as (s'' & e & Hs'' & Hc'' & _).
    congruence.
Qed.

(** The main loop never throws, and it stops at an event boundary. *)
Lemma main_loop_boundary (s0 : Simulator) (continue : Simulator -> bool)
  (fuel : nat) (s : Simulator) :
  configured s0 -> boundary s0 s ->
  exists s', main_loop continue fuel s = Ok s' /\ boundary s0 s' /\
             (length (history_ s') <= length (history_ s) + fuel)%nat.
Proof.
  intros Hc. revert s. induction fuel as [|fuel IH]; intros s Hb; simpl.
  - destruct (negb (pq_empty (event_queue_ s)) && continue s);
      exists s; repeat split; auto; lia.
  - destruct (pq_empty (event_queue_ s)) eqn:E; simpl.
    { exists s. repeat split; auto. lia. }
    destruct (continue s); [|exists s; repeat split; auto; lia].
    destruct (loop_body_consistent s (boundary_consistent _ _ Hc Hb) E)
      as (s1 & e & Hs1 & _ & _ & Hh).
    rewrite Hs1. simpl.
    destruct (IH s1 (boundary_step _ _ _ Hb Hs1)) as (s' & Hs' & Hb' & Hlen).
    exists s'. repeat split; auto.
    rewrite Hh, length_app in Hlen. simpl in Hlen. lia.
Qed.

Lemma run_boundary (T : Q) (s0 : Simulator) :
  configured s0 ->
  exists s, boundary s0 s /\ run T s0 = Ok (update_busy_statistics s) /\
            (Z.of_nat (length (history_ s)) <= MAX_ITERATIONS)%Z.
Proof.
  intros Hc. unfold run.
  assert (Hmax : Z.of_nat (Z.to_nat MAX_ITERATIONS) = MAX_ITERATIONS)
    by (apply Z2Nat.id; discriminate).
  revert Hmax. generalize (Z.to_nat MAX_ITERATIONS). intros n Hmax.
  destruct (main_loop_boundary s0 (fun s => Qlt_bool (current_time_ s) T)
              n _ Hc (boundary_start s0))
    as (s & Hs & Hb & Hlen).
  rewrite Hs. exists s. repeat split; auto.
  rewrite schedule_next_arrival_history in Hlen.
  change (history_ (initialize s0)) with (@nil Event) in Hlen.
  change (length (@nil Event)) with 0%nat in Hlen. lia.
Qed.

Lemma run_until_jobs_boundary (K : Z) (s0 : Simulator) :
  configured s0 ->
  exists s, boundary s0 s /\
            run_until_jobs K s0 = Ok (update_busy_statistics s) /\
            (Z.of_nat (length (history_ s)) <= MAX_ITERATIONS)%Z.
Proof.
  intros Hc. unfold run_until_jobs.
  assert (Hmax : Z.of_nat (Z.to_nat MAX_ITERATIONS) = MAX_ITERATIONS)
    by (apply Z2Nat.id; discriminate).
  revert Hmax. generalize (Z.to_nat MAX_ITERATIONS). intros n Hmax.
  destruct (main_loop_boundary s0 (fun s => (jobs_completed_ s <? K)%Z)
              n _ Hc (boundary_start s0))
    as (s & Hs & Hb & Hlen).
  rewrite Hs. exists s. repeat split; auto.
  rewrite schedule_next_arrival_history in Hlen.
  change (history_ (initialize s0)) with (@nil Event) in Hlen.
  change (length (@nil Event)) with 0%nat in Hlen. lia.
Qed.

Ltac next_arrival_frame :=
  match goal with
  | |- context [schedule_next_arrival ?x] =>
      let H1 := fresh in let H2 := fresh in let H3 := fresh in
      let H4 := fresh in let H5 := fresh in let H6 := fresh in
      let H7 := fresh in let H8 := fresh in let H9 := fresh in
      let H10 := fresh in let H11 := fresh in let H12 := fresh in
      let H13 := fresh in let H14 := fresh in
      destruct (schedule_next_arrival_frame x)
        as (H1&H2&H3&H4&H5&H6&H7&H8&H9&H10&H11&H12&H13&H14);
      rewrite ?H1, ?H2, ?H3, ?H4, ?H5, ?H6, ?H7, ?H8, ?H9, ?H10, ?H11, ?H12,
        ?H13, ?H14
  end.

(** What an arrival does to the loss counter and to the buffer. *)
Lemma process_arrival_outcome (s s' : Simulator) :
  process_arrival s = Ok s' ->
  current_time_ s' = current_time_ s /\ history_ s' = history_ s /\
  num_cores_ s' = num_cores_ s /\ buffer_capacity_ s' = buffer_capacity_ s /\
  jobs_completed_ s' = jobs_completed_ s /\
  wait_times_ s' = wait_times_ s /\
  ((find_free_core s <> (-1)%Z /\ jobs_lost_ s' = jobs_lost_ s /\
    job_queue_ s' = job_queue_ s) \/
   (find_free_core s = (-1)%Z /\ buffer_full s = true /\
    jobs_lost_ s' = (jobs_lost_ s + 1)%Z /\ job_queue_ s' = job_queue_ s) \/
   (find_free_core s = (-1)%Z /\ buffer_full s = false /\
    jobs_lost_ s' = jobs_lost_ s /\
    exists job, job_queue_ s' = job_queue_ s ++ [job])).
Proof.
  unfold process_arrival.
  destruct (generate (service_generator_ _)) as [st g].
  unfold find_free_core, buffer_full. simpl.
  fold (find_free_core s). fold (buffer_full s).
  destruct (Z.eqb_spec (find_free_core s) (-1)) as [E|E]; simpl.
  - destruct (buffer_full s); simpl; intros [= <-];
      next_arrival_frame; simpl; repeat split; eauto.
    + right; left. repeat split; eauto.
    + right; right. repeat split; eauto.
  - unfold occupy_core. simpl.
    destruct ((find_free_core s <? 0)%Z || (num_cores_ s <=? find_free_core s)%Z);
      simpl; [discriminate|].
    intros [= <-]. next_arrival_frame; simpl; repeat split; eauto.
Qed.

Lemma process_departure_outcome (j c : Z) (s s' : Simulator) :
  process_departure j c s = Ok s' ->
  current_time_ s' = current_time_ s /\ history_ s' = history_ s /\
  num_cores_ s' = num_cores_ s /\ buffer_capacity_ s' = buffer_capacity_ s /\
  jobs_lost_ s' = jobs_lost_ s /\
  (job_queue_ s' = job_queue_ s \/ job_queue_ s' = tail (job_queue_ s)).
Proof.
  unfold process_departure.
  destruct (active_jobs_ s !! j) as [found|];
    [|intros [= <-]; repeat split; auto].
  unfold release_core. simpl.
  destruct ((c <? 0)%Z || (num_cores_ s <=? c)%Z); simpl; [discriminate|].
  destruct (job_queue_ s) as [|waiting q] eqn:Eq; simpl.
  { intros [= <-]. simpl. rewrite Eq. repeat split; auto. }
  case_match.
  - unfold occupy_core. simpl.
    destruct ((c <? 0)%Z || (num_cores_ s <=? c)%Z); simpl; [discriminate|].
    intros [= <-]. simpl. repeat split; auto.
  - intros [= <-]. simpl. repeat split; auto.
Qed.

Lemma loop_body_outcome (s s' : Simulator) :
  loop_body s = Ok s' ->
  exists e, pq_top Event_gt (event_queue_ s) = Some e /\
            current_time_ s' = time e /\ history_ s' = history_ s ++ [e] /\
            num_cores_ s' = num_cores_ s /\
            buffer_capacity_ s' = buffer_capacity_ s /\
            match type e with
            | ARRIVAL => process_arrival (popped e s) = Ok s'
            | DEPARTURE =>
                process_departure (job_id e) (core_id e) (popped e s) = Ok s'
            end.
Proof.
  rewrite loop_body_eq.
  destruct (pq_top Event_gt (event_queue_ s)) as [e|]; [|discriminate].
  intros H. exists e. split; [reflexivity|].
  destruct (popped_frame e s)
    as (H1&H2&H3&H4&H5&H6&H7&H8&H9&H10&H11&H12&H13&H14&H15&H16).
  destruct (type e).
  - destruct (process_arrival_outcome _ _ H) as (G1&G2&G3&G4&_).
    rewrite G1, G2, G3, G4. auto.
  - destruct (process_departure_outcome _ _ _ _ H) as (G1&G2&G3&G4&_).
    rewrite G1, G2, G3, G4. auto.
Qed.

(* ===================================================================== *)
(** * The counter equation                                                  *)
(* ===================================================================== *)

Lemma demo_engine_constructed :
  new_Simulator (DeterministicGenerator 1) (DeterministicGenerator 3) 1 1
                (fun n => n) = Ok demo_engine.
Proof. reflexivity. Qed.

Lemma demo_engine_configured : configured demo_engine.
Proof. split; [reflexivity|reflexivity]. Qed.

Lemma new_Simulator_configured ag sg num_cores buffer_cap heap s :
  new_Simulator ag sg num_cores buffer_cap heap = Ok s -> configured s.
Proof.
  destruct (new_Simulator_cases ag sg num_cores buffer_cap heap)
    as [[H ->]|[H ->]]; [discriminate|].
  intros [= <-]. split; simpl; [exact H|]. now rewrite length_replicate.
Qed.

Lemma update_busy_statistics_history (s : Simulator) :
  history_ (update_busy_statistics s) = history_ s.
Proof. apply update_busy_statistics_frame. Qed.

Lemma consistent_counter_equation (s : Simulator) :
  consistent s -> counter_equation s.
Proof.
  intros [Bc Bl Bk Bco Bjo Bs Bw Bbc Bsz Bcnt Bcomp Blost Barr].
  unfold counter_equation, jobs_completed, jobs_lost, total_arrivals,
    jobs_in_system, queue_length.
  split; [exact Bcnt|]. split; [lia|]. intros Hmax.
  unfold MAX_ITERATIONS in Hmax.
  rewrite !to_int_small by lia. lia.
Qed.

Lemma counter_equation_final (s : Simulator) :
  counter_equation s -> counter_equation (update_busy_statistics s).
Proof.
  unfold counter_equation, jobs_completed, jobs_lost, total_arrivals,
    jobs_in_system, queue_length, count_busy_cores.
  destruct (update_busy_statistics_frame s)
    as (H1&H2&H3&H4&H5&H6&H7&H8&H9&H10&H11&H12&H13&H14&H15&H16).
  now rewrite H2, H3, H5, H11, H12, H13, H16.
Qed.

(** C2.  At every event boundary of every run of a configured simulator,
    [jobs_completed + jobs_lost + (jobs in the system) = total_arrivals],
    the jobs in the system being the entries of the job table, which are the
    jobs in service together with the buffered ones.  The runs themselves
    return (they do not throw) and the equation holds in the state they
    return. *)
Theorem counter_equation_at_event_boundaries (s0 : Simulator) :
  configured s0 ->
  (forall s, boundary s0 s -> counter_equation s) /\
  (forall T, exists s,
      run T s0 = Ok s /\ counter_equation s /\
      (jobs_completed s + jobs_lost s + jobs_in_system s
       = total_arrivals s)%Z) /\
  (forall K, exists s,
      run_until_jobs K s0 = Ok s /\ counter_equation s /\
      (jobs_completed s + jobs_lost s + jobs_in_system s
       = total_arrivals s)%Z).
Proof.
  intros Hc. split; [|split].
  - intros s Hb. apply consistent_counter_equation.
    now apply (boundary_consistent s0).
  - intros T. destruct (run_boundary T s0 Hc) as (s & Hb & Hr & Hmax).
    exists (update_busy_statistics s). split; [exact Hr|].
    assert (He : counter_equation (update_busy_statistics s)).
    { apply counter_equation_final, consistent_counter_equation.
      now apply (boundary_consistent s0). }
    split; [exact He|]. apply He.
    now rewrite update_busy_statistics_history.
  - intros K. destruct (run_until_jobs_boundary K s0 Hc) as (s & Hb & Hr & Hmax).
    exists (update_busy_statistics s). split; [exact Hr|].
    assert (He : counter_equation (update_busy_statistics s)).
    { apply counter_equation_final, consistent_counter_equation.
      now apply (boundary_consistent s0). }
    split; [exact He|]. apply He.
    now rewrite update_busy_statistics_history.
Qed.

Lemma counter_equation_at_event_boundaries_witness :
  configured demo_engine /\
  exists s, run 10 demo_engine = Ok s /\ counter_equation s /\
            (jobs_completed s + jobs_lost s + jobs_in_system s
             = total_arrivals s)%Z.
Proof.
  split; [exact demo_engine_configured|].
  exact (proj1 (proj2 (counter_equation_at_event_boundaries
                         demo_engine demo_engine_configured)) 10%Q).
Defined.

(** Seven iterations of the main loop of [demo_engine]: six arrivals, of
    which one job was served, three were lost and two are in the system (one
    in service, one buffered). *)
Example demo_engine_seven_events :
  observe (main_loop (fun _ => true) 7
             (schedule_next_arrival (initialize demo_engine)))
  = Some (6, 1, 3, 2, 1, 1)%Z.
Proof. vm_compute. reflexivity. Qed.

(* ===================================================================== *)
(** * Losses                                                                *)
(* ===================================================================== *)

Lemma buffer_full_unbounded (s : Simulator) :
  buffer_capacity_ s = (-1)%Z -> buffer_full s = false.
Proof. intros H. unfold buffer_full. now rewrite H. Qed.

Lemma buffer_full_negative (s : Simulator) :
  (buffer_capacity_ s < 0)%Z -> buffer_capacity_ s <> (-1)%Z ->
  job_queue_ s = [] -> buffer_full s = true.
Proof.
  intros Hneg Hne Hq. unfold buffer_full. rewrite Hq.
  destruct (Z.eqb_spec (buffer_capacity_ s) (-1)); [contradiction|].
  simpl. rewrite to_int_small by lia. apply Z.leb_le. lia.
Qed.

Lemma popped_buffer_full (e : Event) (s : Simulator) :
  buffer_full (popped e s) = buffer_full s.
Proof.
  unfold buffer_full.
  destruct (popped_frame e s)
    as (H1&H2&H3&H4&H5&H6&H7&H8&H9&H10&H11&H12&H13&H14&H15&H16).
  now rewrite H9, H11.
Qed.

Lemma popped_find_free_core (e : Event) (s : Simulator) :
  find_free_core (popped e s) = find_free_core s.
Proof.
  unfold find_free_core.
  destruct (popped_frame e s)
    as (H1&H2&H3&H4&H5&H6&H7&H8&H9&H10&H11&H12&H13&H14&H15&H16).
  now rewrite H8, H12.
Qed.

(** What one iteration does to the loss counter and to the buffer. *)
Lemma loop_body_losses (s s' : Simulator) :
  loop_body s = Ok s' ->
  buffer_capacity_ s' = buffer_capacity_ s /\
  ((jobs_lost_ s' = jobs_lost_ s /\
    (job_queue_ s' = job_queue_ s \/ job_queue_ s' = tail (job_queue_ s))) \/
   (buffer_full s = true /\ jobs_lost_ s' = (jobs_lost_ s + 1)%Z /\
    job_queue_ s' = job_queue_ s) \/
   (buffer_full s = false /\ jobs_lost_ s' = jobs_lost_ s /\
    exists job, job_queue_ s' = job_queue_ s ++ [job])).
Proof.
  intros H. destruct (loop_body_outcome _ _ H) as (e & _ & _ & _ & _ & Hc & He).
  split; [exact Hc|].
  destruct (popped_frame e s)
    as (H1&H2&H3&H4&H5&H6&H7&H8&H9&H10&H11&H12&H13&H14&H15&H16).
  destruct (type e).
  - destruct (process_arrival_outcome _ _ He) as (_&_&_&_&_&_&Hcase).
    rewrite popped_buffer_full, H3, H11 in Hcase.
    destruct Hcase as [(_ & G1 & G2)|[(_ & G1 & G2 & G3)|(_ & G1 & G2 & G3)]];
      auto.
  - destruct (process_departure_outcome _ _ _ _ He) as (_&_&_&_&G1&G2).
    rewrite H3 in G1. rewrite H11 in G2. auto.
Qed.

(** With the unbounded buffer nothing is ever lost. *)
Lemma boundary_unbounded (s0 s : Simulator) :
  boundary s0 s ->
  buffer_capacity_ s = buffer_capacity_ s0 /\
  (buffer_capacity_ s0 = (-1)%Z -> jobs_lost_ s = 0%Z).
Proof.
  intros Hb. induction Hb as [|s s' Hb [IHc IHl] Hs].
  - destruct (schedule_next_arrival_frame (initialize s0))
      as (H1&H2&H3&H4&H5&H6&H7&H8&H9&H10&H11&H12&H13&H14).
    rewrite H3, H8. auto.
  - destruct (loop_body_losses _ _ Hs) as (Hc & Hcase).
    split; [congruence|]. intros Hcap. specialize (IHl Hcap).
    destruct Hcase as [(G1 & _)|[(G1 & _)|(_ & G1 & _)]]; try congruence.
    rewrite buffer_full_unbounded in G1 by congruence. discriminate.
Qed.

(** With a negative capacity other than -1 nothing is ever buffered. *)
Lemma boundary_negative_capacity (s0 s : Simulator) :
  (buffer_capacity_ s0 < 0)%Z -> buffer_capacity_ s0 <> (-1)%Z ->
  boundary s0 s ->
  buffer_capacity_ s = buffer_capacity_ s0 /\ job_queue_ s = [].
Proof.
  intros Hneg Hne Hb. induction Hb as [|s s' Hb [IHc IHq] Hs].
  - destruct (schedule_next_arrival_frame (initialize s0))
      as (H1&H2&H3&H4&H5&H6&H7&H8&H9&H10&H11&H12&H13&H14).
    rewrite H8, H9. auto.
  - destruct (loop_body_losses _ _ Hs) as (Hc & Hcase).
    split; [congruence|].
    destruct Hcase as [(_ & [G|G])|[(_ & _ & G)|(G1 & _)]].
    + congruence.
    + rewrite G, IHq. reflexivity.
    + congruence.
    + rewrite buffer_full_negative in G1; [discriminate| | |exact IHq];
        congruence.
Qed.

Lemma boundary_losses_bounded (s0 s : Simulator) :
  configured s0 -> boundary s0 s -> losses_bounded s0 s.
Proof.
  intros Hc Hb. split.
  - pose proof (bk_counters _ _ (boundary_consistent _ _ Hc Hb)).
    unfold jobs_completed, jobs_lost, total_arrivals. lia.
  - apply (boundary_unbounded _ _ Hb).
Qed.

Lemma losses_bounded_final (s0 s : Simulator) :
  losses_bounded s0 s -> losses_bounded s0 (update_busy_statistics s).
Proof.
  unfold losses_bounded, jobs_completed, jobs_lost, total_arrivals.
  destruct (update_busy_statistics_frame s)
    as (H1&H2&H3&H4&H5&H6&H7&H8&H9&H10&H11&H12&H13&H14&H15&H16).
  now rewrite H2, H3, H5.
Qed.

(** C3.  For a configured simulator (so [num_cores >= 1]), at every event
    boundary and in the state every run returns,
    [jobs_completed + jobs_lost <= total_arrivals]; and when the buffer is
    unbounded (capacity -1), [jobs_lost = 0] throughout. *)
Theorem completed_and_lost_within_arrivals (s0 : Simulator) :
  configured s0 ->
  (forall s, boundary s0 s -> losses_bounded s0 s) /\
  (forall T, exists s, run T s0 = Ok s /\ losses_bounded s0 s) /\
  (forall K, exists s, run_until_jobs K s0 = Ok s /\ losses_bounded s0 s).
Proof.
  intros Hc. split; [|split].
  - intros s Hb. now apply boundary_losses_bounded.
  - intros T. destruct (run_boundary T s0 Hc) as (s & Hb & Hr & _).
    exists (update_busy_statistics s). split; [exact Hr|].
    now apply losses_bounded_final, boundary_losses_bounded.
  - intros K. destruct (run_until_jobs_boundary K s0 Hc) as (s & Hb & Hr & _).
    exists (update_busy_statistics s). split; [exact Hr|].
    now apply losses_bounded_final, boundary_losses_bounded.
Qed.

Lemma overloaded_engine_constructed :
  new_Simulator (DeterministicGenerator 1) (DeterministicGenerator 3) 1 (-1)
                (fun n => n) = Ok overloaded_engine.
Proof. reflexivity. Qed.

Lemma completed_and_lost_within_arrivals_witness :
  configured overloaded_engine /\
  exists s, run 10 overloaded_engine = Ok s /\
            losses_bounded overloaded_engine s.
Proof.
  assert (Hc : configured overloaded_engine) by (split; reflexivity).
  split; [exact Hc|].
  exact (proj1 (proj2 (completed_and_lost_within_arrivals
                         overloaded_engine Hc)) 10%Q).
Defined.

(* ===================================================================== *)
(** * The time bound of [run]                                               *)
(* ===================================================================== *)

Lemma clock_of_cons (e : Event) (l : list Event) (t : Q) :
  clock_of (e :: l) t = clock_of l (time e).
Proof.
  unfold clock_of. destruct l as [|e' l]; [reflexivity|].
  change (last (e :: e' :: l)) with (last (e' :: l)).
  destruct (last (e' :: l)) eqn:E; [reflexivity|].
  apply last_None in E. discriminate.
Qed.

Lemma main_loop_trace (T : Q) (fuel : nat) (s s' : Simulator) :
  main_loop (fun s => Qlt_bool (current_time_ s) T) fuel s = Ok s' ->
  exists l,
    history_ s' = history_ s ++ l /\ (length l <= fuel)%nat /\
    processed_below T l /\
    current_time_ s' = clock_of l (current_time_ s) /\
    (l <> [] -> (current_time_ s < T)%Q) /\
    (pq_empty (event_queue_ s') = true \/ (T <= current_time_ s')%Q \/
     length l = fuel).
Proof.
  assert (Hnil : forall r fuel,
            pq_empty (event_queue_ r) = true \/ (T <= current_time_ r)%Q \/
            0%nat = fuel ->
            exists l,
              history_ r = history_ r ++ l /\ (length l <= fuel)%nat /\
              processed_below T l /\
              current_time_ r = clock_of l (current_time_ r) /\
              (l <> [] -> (current_time_ r < T)%Q) /\
              (pq_empty (event_queue_ r) = true \/ (T <= current_time_ r)%Q \/
               length l = fuel)).
  { clear. intros r fuel Hstop. exists []. rewrite app_nil_r.
    split; [reflexivity|]. split; [simpl; lia|].
    split; [intros i e Hi; inversion Hi|]. split; [reflexivity|].
    split; [congruence|exact Hstop]. }
  revert s. induction fuel as [|fuel IH]; intros s; simpl.
  - intros H.
    assert (s' = s) as ->.
    { destruct (negb (pq_empty (event_queue_ s)) &&
                Qlt_bool (current_time_ s) T); congruence. }
    apply Hnil. auto.
  - destruct (pq_empty (event_queue_ s)) eqn:E; simpl.
    { intros [= <-]. apply Hnil. auto. }
    destruct (Qlt_bool (current_time_ s) T) eqn:Et.
    2:{ intros [= <-]. apply Hnil. right; left. now apply Qlt_bool_false. }
    destruct (loop_body s) as [s1|] eqn:Hs1; simpl; [|discriminate].
    intros H. destruct (IH s1 H) as (l & Hh & Hlen & Hbelow & Hclock & Hne & Hstop).
    destruct (loop_body_outcome _ _ Hs1) as (e & _ & Ht & Hh1 & _).
    exists (e :: l). rewrite Hh, Hh1, <- app_assoc. simpl.
    split; [reflexivity|]. split; [lia|]. split; [|split; [|split]].
    + intros [|i] e' Hi Hlt; simpl in *.
      * injection Hi as <-. rewrite <- Ht. apply Hne.
        destruct l; [simpl in Hlt; lia|discriminate].
      * apply (Hbelow i e' Hi). lia.
    + rewrite clock_of_cons, <- Ht. exact Hclock.
    + intros _. now apply Qlt_bool_true.
    + destruct Hstop as [G|[G|G]]; auto.
Qed.

(** C1, as the code has it.  [run T] returns; it processes an event only
    while the clock, which stands at the timestamp of the event processed
    before (at 0 initially), is below [T].  So every processed event but the
    last has a timestamp below [T], the clock ends at the timestamp of the
    last processed event, and the loop has stopped because the timeline is
    empty, or the clock has reached [T], or the iteration cap is
    exhausted. *)
Theorem run_stops_once_clock_reaches_bound (s0 : Simulator) (T : Q) :
  configured s0 ->
  exists s,
    run T s0 = Ok s /\
    processed_below T (history_ s) /\
    current_time s = clock_of (history_ s) 0 /\
    (pq_empty (event_queue_ s) = true \/ (T <= current_time s)%Q \/
     Z.of_nat (length (history_ s)) = MAX_ITERATIONS).
Proof.
  intros Hc. unfold run.
  assert (Hmax : Z.of_nat (Z.to_nat MAX_ITERATIONS) = MAX_ITERATIONS)
    by (apply Z2Nat.id; discriminate).
  revert Hmax. generalize (Z.to_nat MAX_ITERATIONS). intros n Hmax.
  destruct (main_loop_boundary s0 (fun s => Qlt_bool (current_time_ s) T)
              n _ Hc (boundary_start s0)) as (s & Hs & _ & _).
  rewrite Hs. simpl. exists (update_busy_statistics s).
  split; [reflexivity|].
  destruct (main_loop_trace _ _ _ _ Hs) as (l & Hh & Hlen & Hbelow & Hclock & _ & Hstop).
  destruct (update_busy_statistics_frame s)
    as (H1&H2&H3&H4&H5&H6&H7&H8&H9&H10&H11&H12&H13&H14&H15&H16).
  destruct (schedule_next_arrival_frame (initialize s0))
    as (G1&G2&G3&G4&G5&G6&G7&G8&G9&G10&G11&G12&G13&G14).
  rewrite G14 in Hh. rewrite G1 in Hclock. simpl in Hh, Hclock.
  unfold current_time. rewrite H1, H10, H16, Hh.
  split; [exact Hbelow|]. split; [exact Hclock|].
  destruct Hstop as [G|[G|G]]; auto. right; right. lia.
Qed.

Lemma late_engine_constructed :
  new_Simulator (DeterministicGenerator 5) (DeterministicGenerator 1) 1 (-1)
                (fun n => n) = Ok late_engine.
Proof. reflexivity. Qed.

Lemma late_engine_configured : configured late_engine.
Proof. split; reflexivity. Qed.

Lemma run_stops_once_clock_reaches_bound_witness :
  exists s,
    run 3 late_engine = Ok s /\
    processed_below 3 (history_ s) /\
    current_time s = clock_of (history_ s) 0 /\
    (pq_empty (event_queue_ s) = true \/ (3 <= current_time s)%Q \/
     Z.of_nat (length (history_ s)) = MAX_ITERATIONS).
Proof.
  exact (run_stops_once_clock_reaches_bound late_engine 3
           late_engine_configured).
Defined.

(** When the first iteration already moves the clock to the bound, the loop
    makes that iteration and no other. *)
Lemma main_loop_single (continue : Simulator -> bool) (fuel : nat)
  (s s1 : Simulator) :
  negb (pq_empty (event_queue_ s)) && continue s = true ->
  loop_body s = Ok s1 ->
  continue s1 = false ->
  main_loop continue (S fuel) s = Ok s1.
Proof.
  intros Hgo Hs1 Hstop. simpl. rewrite Hgo, Hs1. simpl.
  destruct fuel; simpl; rewrite Hstop, andb_false_r; reflexivity.
Qed.

(** [run 3] of [late_engine] processes the arrival at time 5 and returns with
    the clock at 5. *)
Lemma late_engine_run :
  exists s,
    run 3 late_engine = Ok s /\
    history_ s = [Event_of_type 5 ARRIVAL] /\
    current_time s = 5%Q.
Proof.
  set (start := schedule_next_arrival (initialize late_engine)).
  assert (Hgo : negb (pq_empty (event_queue_ start))
                && Qlt_bool (current_time_ start) 3 = true)
    by (vm_compute; reflexivity).
  assert (Hobs : on_result (fun s => (history_ s, current_time_ s))
                           (loop_body start)
                 = Some ([Event_of_type 5 ARRIVAL], 5%Q))
    by (vm_compute; reflexivity).
  destruct (loop_body start) as [s1|] eqn:Hs1; [|discriminate].
  simpl in Hobs. injection Hobs as Hh Ht.
  assert (Hstop : Qlt_bool (current_time_ s1) 3 = false)
    by (rewrite Ht; reflexivity).
  unfold run.
  assert (Hfuel : exists n, Z.to_nat MAX_ITERATIONS = S n).
  { exists (Z.to_nat (MAX_ITERATIONS - 1)). unfold MAX_ITERATIONS. lia. }
  destruct Hfuel as [n ->]. fold start.
  rewrite (main_loop_single _ n start s1 Hgo Hs1 Hstop). simpl.
  exists (update_busy_statistics s1). split; [reflexivity|].
  destruct (update_busy_statistics_frame s1)
    as (H1&H2&H3&H4&H5&H6&H7&H8&H9&H10&H11&H12&H13&H14&H15&H16).
  unfold current_time. rewrite H1, H16. auto.
Qed.

(** C1, as stated, fails: [run 3] processes an event of timestamp 5 and
    leaves [current_time] at 5. *)
Lemma run_overshoots_bound :
  ~ (forall s0 T s,
        configured s0 -> run T s0 = Ok s ->
        (forall e, e ∈ history_ s -> (time e < T)%Q) /\
        (current_time s <= T)%Q).
Proof.
  intros H. destruct late_engine_run as (s & Hr & Hh & Ht).
  destruct (H late_engine 3%Q s late_engine_configured Hr) as [_ Hle].
  rewrite Ht in Hle. apply Qle_bool_iff in Hle. discriminate.
Qed.

(* ===================================================================== *)
(** * One server, deterministic arrivals and service                        *)
(* ===================================================================== *)

Lemma det_config_popped d v e s : det_config d v s -> det_config d v (popped e s).
Proof.
  unfold det_config.
  destruct (popped_frame e s)
    as (H1&H2&H3&H4&H5&H6&H7&H8&H9&H10&H11&H12&H13&H14&H15&H16).
  now rewrite H6, H7, H8, H9.
Qed.

Lemma view_of_popped e s :
  view_of (popped e s)
  = mkView (time e) (elems (pq_pop Event_gt (event_queue_ s))) (job_queue_ s)
           (active_jobs_ s) (wait_times_ s).
Proof.
  unfold view_of.
  destruct (popped_frame e s)
    as (H1&H2&H3&H4&H5&H6&H7&H8&H9&H10&H11&H12&H13&H14&H15&H16).
  now rewrite H1, H10, H11, H13, H14.
Qed.

(** An arrival in the deterministic configuration. *)
Lemma process_arrival_det d v s s' :
  det_config d v s -> process_arrival s = Ok s' ->
  det_config d v s' /\
  let t := current_time_ s in
  let id := next_job_id_ s in
  (find_free_core s <> (-1)%Z /\
   view_of s'
   = mkView t
       (elems (event_queue_ s)
        ++ [Event_departure (t + v) id (find_free_core s);
            Event_of_type (t + d) ARRIVAL])
       (job_queue_ s)
       (<[id := mkJob id t v t (-1)]> (active_jobs_ s))
       (wait_times_ s)) \/
  (find_free_core s = (-1)%Z /\
   view_of s'
   = mkView t
       (elems (event_queue_ s) ++ [Event_of_type (t + d) ARRIVAL])
       (job_queue_ s ++ [new_Job id t v])
       (<[id := new_Job id t v]> (active_jobs_ s))
       (wait_times_ s)).
Proof.
  intros (Ha & Hs & Hn & Hcap). unfold process_arrival.
  unfold find_free_core, buffer_full, schedule_next_arrival. simpl.
  fold (find_free_core s). rewrite Hs, Hcap. simpl.
  destruct (Z.eqb_spec (find_free_core s) (-1)) as [E|E]; simpl.
  - rewrite Ha. simpl. intros [= <-]. unfold det_config, view_of. simpl.
    split; [auto|]. right. split; [exact E|]. reflexivity.
  - unfold occupy_core. simpl.
    destruct ((find_free_core s <? 0)%Z || (num_cores_ s <=? find_free_core s)%Z);
      simpl; [discriminate|].
    rewrite Ha. simpl. intros [= <-]. unfold det_config, view_of. simpl.
    unfold at_key. rewrite lookup_insert_eq, insert_insert_eq.
    rewrite <- !app_assoc. simpl. split; [auto|]. left. split; [exact E|].
    reflexivity.
Qed.

(** A departure of a job that is in the table, in range of the cores. *)
Lemma process_departure_det d v j c s s' job :
  det_config d v s -> active_jobs_ s !! j = Some job ->
  process_departure j c s = Ok s' ->
  det_config d v s' /\
  let t := current_time_ s in
  let sample := wait_time (set_finish_time t job) in
  match job_queue_ s with
  | [] =>
      view_of s'
      = mkView t (elems (event_queue_ s)) [] (delete j (active_jobs_ s))
               (wait_times_ s ++ [sample])
  | head :: q =>
      match delete j (active_jobs_ s) !! Job_id head with
      | Some waiting =>
          view_of s'
          = mkView t
              (elems (event_queue_ s)
               ++ [Event_departure (t + service_time waiting)
                                   (Job_id waiting) c])
              q
              (<[Job_id head := set_start_time t waiting]>
                 (delete j (active_jobs_ s)))
              (wait_times_ s ++ [sample])
      | None => True
      end
  end.
Proof.
  intros (Ha & Hs & Hn & Hcap) Hjob. unfold process_departure.
  rewrite Hjob. unfold release_core. simpl.
  destruct ((c <? 0)%Z || (num_cores_ s <=? c)%Z); simpl; [discriminate|].
  rewrite delete_insert_eq.
  destruct (job_queue_ s) as [|head q] eqn:Eq; simpl.
  { intros [= <-]. unfold det_config, view_of. simpl. rewrite Eq. auto. }
  destruct (delete j (active_jobs_ s) !! Job_id head) as [waiting|] eqn:Ew.
  - unfold occupy_core. simpl.
    destruct ((c <? 0)%Z || (num_cores_ s <=? c)%Z); simpl; [discriminate|].
    intros [= <-]. unfold det_config, view_of. simpl. auto.
  - intros [= <-]. unfold det_config. simpl. auto.
Qed.

Lemma count_true_one (b : bool) : count_true [b] = if b then 1%Z else 0%Z.
Proof. now destruct b. Qed.

(** With one core there is at most one departure due, and it is due exactly
    when the core is busy. *)
Lemma one_core_cases (s : Simulator) :
  consistent s -> num_cores_ s = 1%Z ->
  (pending_departures s = [] /\ find_free_core s = 0%Z) \/
  (exists x, pending_departures s = [x] /\ find_free_core s = (-1)%Z).
Proof.
  intros [Bc Bl Bk Bco Bjo Bs Bw Bbc Bsz Bcnt Bcomp Blost Barr] Hn.
  rewrite Hn in Bl.
  destruct (cores_busy_ s) as [|b [|b' l]] eqn:Eb; try discriminate.
  unfold count_busy_cores in Bbc. rewrite Eb in Bbc.
  fold (count_true [b]) in Bbc. rewrite count_true_one in Bbc.
  unfold find_free_core. rewrite Hn, Eb.
  destruct (pending_departures s) as [|x [|y D]] eqn:ED.
  - left. split; [reflexivity|]. destruct b; [simpl in Bbc; lia|reflexivity].
  - right. exists x. split; [reflexivity|].
    destruct b; [reflexivity|simpl in Bbc; lia].
  - exfalso. simpl in Bbc. destruct b; lia.
Qed.

Lemma departures_type (l : list Event) (e : Event) :
  e ∈ departures l <-> e ∈ l /\ type e = DEPARTURE.
Proof. unfold departures. rewrite list_elem_of_filter. tauto. Qed.

(** One iteration of the main loop, seen through the view. *)
Lemma loop_body_det_step d v s s' :
  consistent s -> det_config d v s -> loop_body s = Ok s' ->
  det_step d v (view_of s) (view_of s') /\ det_config d v s'.
Proof.
  intros B Hcfg Hs.
  destruct (loop_body_outcome _ _ Hs) as (e & He & _ & _ & _ & _ & Hp).
  destruct (Event_top_least _ _ He) as [HP Hmin].
  assert (Hearly : earliest e (elems (pq_pop Event_gt (event_queue_ s)))
                     (v_timeline (view_of s))) by (split; assumption).
  pose proof (det_config_popped d v e s Hcfg) as Hcfg'.
  assert (Hin : e ∈ elems (event_queue_ s)).
  { rewrite HP. apply list_elem_of_here. }
  destruct (popped_frame e s)
    as (H1&H2&H3&H4&H5&H6&H7&H8&H9&H10&H11&H12&H13&H14&H15&H16).
  destruct Hcfg as (_ & _ & Hn & _).
  destruct (type e) eqn:Et.
  - destruct (process_arrival_det d v _ _ Hcfg' Hp) as [Hc' Hview].
    split; [|exact Hc']. simpl in Hview.
    rewrite popped_find_free_core, H1, H4, H10, H11, H13, H14 in Hview.
    destruct (one_core_cases s B Hn) as [[HD Hf]|(x & HD & Hf)];
      destruct Hview as [[Hne ->]|[Heq ->]]; try lia.
    + now apply (step_served d v (view_of s) e
                   (elems (pq_pop Event_gt (event_queue_ s)))
                   (next_job_id_ s) (find_free_core s)).
    + now apply (step_buffered d v (view_of s) e x
                   (elems (pq_pop Event_gt (event_queue_ s)))
                   (next_job_id_ s)).
  - assert (HeD : e ∈ pending_departures s) by now apply departures_type.
    destruct (one_core_cases s B Hn) as [[HD Hf]|(x & HD & Hf)];
      rewrite HD in HeD; [inversion HeD|].
    apply list_elem_of_singleton in HeD as ->.
    pose proof B as [Bc Bl Bk Bco Bjo Bs Bw Bbc Bsz Bcnt Bcomp Blost Barr].
    rewrite HD in Bs, Bjo.
    destruct (Bs x (list_elem_of_here _ _)) as (_ & _ & [job Hjob]).
    assert (Hjob' : active_jobs_ (popped x s) !! job_id x = Some job)
      by now rewrite H13.
    destruct (process_departure_det d v _ _ _ _ job Hcfg' Hjob' Hp)
      as [Hc' Hview].
    split; [|exact Hc']. simpl in Hview.
    rewrite H1, H10, H11, H13, H14 in Hview.
    destruct (job_queue_ s) as [|head q] eqn:Eq.
    + rewrite Hview.
      now apply (step_idle d v (view_of s) x
                   (elems (pq_pop Event_gt (event_queue_ s))) job).
    + simpl in Bjo. apply NoDup_cons in Bjo as [Hne _].
      assert (Hhead : is_Some (delete (job_id x) (active_jobs_ s)
                               !! Job_id head)).
      { rewrite lookup_delete_ne.
        - apply Bw. apply list_elem_of_here.
        - intros E. apply Hne. rewrite E. apply list_elem_of_here. }
      destruct Hhead as [waiting Hw]. rewrite Hw in Hview. rewrite Hview.
      now apply (step_next d v (view_of s) x
                   (elems (pq_pop Event_gt (event_queue_ s)))
                   job head waiting q).
Qed.

(** ** Negative inter-arrival time: every event lies before time 0 *)

Lemma wait_time_unstarted (j : Job) (t : Q) :
  (start_time j < 0)%Q -> wait_time (set_finish_time t j) = 0%Q.
Proof.
  intros H. unfold wait_time. simpl.
  apply Qle_bool_false in H. now rewrite H.
Qed.

Lemma earliest_in (x : Event) (rest l : list Event) :
  earliest x rest l -> x ∈ l /\ forall e, e ∈ rest -> e ∈ l.
Proof.
  intros [HP _]. split.
  - rewrite HP. apply list_elem_of_here.
  - intros e He. rewrite HP. now apply list_elem_of_further.
Qed.

Lemma before_zero_step (d v : Q) (w w' : view) :
  (d < 0)%Q -> (v <= d)%Q ->
  det_step d v w w' -> before_zero v w -> before_zero v w'.
Proof.
  intros Hd Hv Hstep (Ht & Hj & Hw).
  destruct Hstep as [a rest id c He Ha HD|a x rest id He Ha HD
                    |x rest job He Hx HD Hjob Hb
                    |x rest job head waiting q He Hx HD Hjob Hb Hwait];
    destruct (earliest_in _ _ _ He) as [Hin Hrest];
    pose proof (Ht _ Hin) as Hneg;
    (split; [|split]); simpl.
  - intros e Hin'. apply elem_of_app in Hin' as [Hin'|Hin']; [auto|].
    apply elem_of_cons in Hin' as [->|Hin']; [simpl; lra|].
    apply list_elem_of_singleton in Hin' as ->. simpl. lra.
  - intros k j. rewrite lookup_insert. case_decide.
    + intros [= <-]. simpl. auto.
    + apply Hj.
  - exact Hw.
  - intros e Hin'. apply elem_of_app in Hin' as [Hin'|Hin']; [auto|].
    apply list_elem_of_singleton in Hin' as ->. simpl. lra.
  - intros k j. rewrite lookup_insert. case_decide.
    + intros [= <-]. simpl. split; [reflexivity|reflexivity].
    + apply Hj.
  - exact Hw.
  - auto.
  - intros k j Hk. apply lookup_delete_Some in Hk as [_ Hk]. eauto.
  - apply Forall_app. split; [exact Hw|]. apply Forall_singleton.
    destruct (Hj _ _ Hjob) as [Hs _].
    now rewrite (wait_time_unstarted _ _ Hs).
  - apply lookup_delete_Some in Hwait as [_ Hwait].
    destruct (Hj _ _ Hwait) as [_ Hsv].
    intros e Hin'. apply elem_of_app in Hin' as [Hin'|Hin']; [auto|].
    apply list_elem_of_singleton in Hin' as ->. simpl. rewrite Hsv. lra.
  - apply lookup_delete_Some in Hwait as [_ Hwait].
    destruct (Hj _ _ Hwait) as [_ Hsv].
    intros k j. rewrite lookup_insert. case_decide.
    + intros [= <-]. simpl. auto.
    + intros Hk. apply lookup_delete_Some in Hk as [_ Hk]. eauto.
  - apply Forall_app. split; [exact Hw|]. apply Forall_singleton.
    destruct (Hj _ _ Hjob) as [Hs _].
    now rewrite (wait_time_unstarted _ _ Hs).
Qed.

(** ** Non-negative inter-arrival time: a buffered job arrived at the very
    time of the departure that is due *)

Lemma departures_cons_arrival (a : Event) (l : list Event) :
  type a = ARRIVAL -> departures (a :: l) = departures l.
Proof.
  intros H. unfold departures. rewrite filter_cons.
  destruct (decide (type a = DEPARTURE)); [congruence|reflexivity].
Qed.

Lemma departures_cons_departure (x : Event) (l : list Event) :
  type x = DEPARTURE -> departures (x :: l) = x :: departures l.
Proof.
  intros H. unfold departures. rewrite filter_cons.
  destruct (decide (type x = DEPARTURE)); [reflexivity|contradiction].
Qed.

(** The arrival that is popped is the one the timeline holds, and the
    departures due stay behind. *)
Lemma pop_arrival (a a0 : Event) (rest l : list Event) :
  l ≡ₚ a :: departures l -> type a = ARRIVAL ->
  earliest a0 rest l -> type a0 = ARRIVAL ->
  a0 = a /\ rest ≡ₚ departures l.
Proof.
  intros Hl Ha [HP _] Ha0.
  assert (Hin : a0 ∈ a :: departures l).
  { rewrite <- Hl, HP. apply list_elem_of_here. }
  apply elem_of_cons in Hin as [->|Hin].
  - split; [reflexivity|]. rewrite HP in Hl at 1.
    now apply Permutation_cons_inv in Hl.
  - apply departures_type in Hin as [_ Hin]. congruence.
Qed.

(** When the departure that is due is popped, the arrival stays behind. *)
Lemma pop_departure (a x : Event) (rest l : list Event) :
  l ≡ₚ a :: departures l -> departures l = [x] ->
  earliest x rest l -> rest = [a].
Proof.
  intros Hl HD [HP _]. rewrite HD in Hl. rewrite HP in Hl.
  rewrite (Permutation_swap x a []) in Hl.
  apply Permutation_cons_inv in Hl.
  now apply Permutation_singleton_r in Hl.
Qed.

Lemma wait_time_set_finish_time (t : Q) (j : Job) :
  wait_time (set_finish_time t j) = wait_time j.
Proof. reflexivity. Qed.

Lemma wait_time_started_on_arrival (t : Q) (j : Job) :
  (arrival_time j == t)%Q -> (wait_time (set_start_time t j) == 0)%Q.
Proof.
  intros H. unfold wait_time. simpl.
  destruct (Qle_bool 0 t); lra.
Qed.

Lemma on_time_step (d v : Q) (w w' : view) :
  (0 <= d)%Q -> (v <= d)%Q ->
  det_step d v w w' -> on_time d v w -> on_time d v w'.
Proof.
  intros Hd Hv Hstep (a & Ha & Hl & Hdue & Hbuf & Htwo & Hjobs & Hw).
  destruct Hstep as [a0 rest id c He Ha0 HD|a0 x rest id He Ha0 HD
                    |x rest job He Hx HD Hjob Hb
                    |x rest job head waiting q He Hx HD Hjob Hb Hwait].
  - (* an arrival is served at once *)
    destruct (pop_arrival _ _ _ _ Hl Ha He Ha0) as [-> Hrest].
    rewrite HD in Hrest. apply Permutation_nil_r in Hrest. subst rest.
    assert (Hempty : v_buffer w = []).
    { destruct (v_buffer w) eqn:E; [reflexivity|].
      destruct Hbuf as (_ & x & Hx & _); [discriminate|]. congruence. }
    exists (Event_of_type (time a + d) ARRIVAL). simpl.
    rewrite departures_cons_departure, departures_cons_arrival by reflexivity.
    split; [reflexivity|]. split; [apply Permutation_swap|].
    split; [|split; [|split; [|split]]].
    + intros x Hx. apply list_elem_of_singleton in Hx as ->. simpl.
      split; [lra|intros; lra].
    + rewrite Hempty. congruence.
    + rewrite Hempty. simpl. lia.
    + intros k j. rewrite lookup_insert. case_decide.
      * intros [= <-]. split; [|reflexivity]. unfold wait_time. simpl.
        destruct (Qle_bool 0 (time a)); lra.
      * apply Hjobs.
    + exact Hw.
  - (* an arrival is buffered *)
    destruct (pop_arrival _ _ _ _ Hl Ha He Ha0) as [-> Hrest].
    rewrite HD in Hrest. apply Permutation_singleton_r in Hrest. subst rest.
    assert (Hx : x ∈ departures (v_timeline w))
      by (rewrite HD; apply list_elem_of_here).
    destruct (Hdue x Hx) as [Hle Hlt].
    apply departures_type in Hx as [Hxin Hxt].
    pose proof (proj2 He x Hxin) as Hge.
    assert (Hvd : (v == d)%Q).
    { destruct (Qlt_le_dec v d) as [H|H]; [specialize (Hlt H)|]; lra. }
    exists (Event_of_type (time a + d) ARRIVAL). simpl.
    rewrite departures_cons_departure, departures_cons_arrival
      by first [assumption|reflexivity].
    split; [reflexivity|]. split; [apply Permutation_swap|].
    split; [|split; [|split; [|split]]].
    + intros y Hy. apply list_elem_of_singleton in Hy as ->. simpl.
      split; [lra|intros; lra].
    + intros _. split; [exact Hvd|]. exists x. split; [reflexivity|].
      simpl. split; [lra|].
      intros j job Hj. rewrite lookup_insert. case_decide.
      * intros [= <-]. simpl. lra.
      * intros Hjob. apply elem_of_app in Hj as [Hj|Hj].
        -- destruct Hbuf as (_ & x' & Hx' & _ & Hall).
           { intros E. rewrite E in Hj. inversion Hj. }
           assert (x' = x) by congruence. subst x'. eauto.
        -- apply list_elem_of_singleton in Hj as ->. simpl in *. congruence.
    + rewrite length_app. simpl. intros Hlen.
      destruct Hbuf as (_ & x' & Hx' & Hta & _).
      { intros E. rewrite E in Hlen. simpl in Hlen. lia. }
      assert (x' = x) by congruence. subst x'. lra.
    + intros k j. rewrite lookup_insert. case_decide.
      * intros [= <-]. split; reflexivity.
      * apply Hjobs.
    + exact Hw.
  - (* a departure leaves the server idle *)
    pose proof (pop_departure _ _ _ _ Hl HD He) as ->.
    exists a. simpl. rewrite departures_cons_arrival by assumption.
    split; [exact Ha|]. split; [reflexivity|].
    split; [|split; [|split; [|split]]].
    + intros y Hy. inversion Hy.
    + congruence.
    + simpl. lia.
    + intros k j Hk. apply lookup_delete_Some in Hk as [_ Hk]. eauto.
    + apply Forall_app. split; [exact Hw|]. apply Forall_singleton.
      rewrite wait_time_set_finish_time. now apply (Hjobs _ _ Hjob).
  - (* a departure starts the job at the head of the buffer *)
    pose proof (pop_departure _ _ _ _ Hl HD He) as ->.
    destruct Hbuf as (Hvd & x' & Hx' & Hta & Hall); [congruence|].
    assert (x' = x) by congruence. subst x'.
    apply lookup_delete_Some in Hwait as [Hne Hwait].
    destruct (Hjobs _ _ Hwait) as [_ Hsv].
    assert (Harr : (arrival_time waiting == time x)%Q).
    { apply (Hall head); [rewrite Hb; apply list_elem_of_here|exact Hwait]. }
    exists a. simpl.
    rewrite departures_cons_arrival, departures_cons_departure
      by first [assumption|reflexivity].
    split; [exact Ha|]. split; [reflexivity|].
    split; [|split; [|split; [|split]]].
    + intros y Hy. apply list_elem_of_singleton in Hy as ->. simpl.
      rewrite Hsv. split; [lra|intros; lra].
    + intros Hq.
      assert (Hd0 : (d == 0)%Q).
      { apply Htwo. rewrite Hb. destruct q; [congruence|simpl; lia]. }
      split; [exact Hvd|]. eexists. split; [reflexivity|]. simpl.
      rewrite Hsv. split; [lra|].
      intros j job' Hj. rewrite lookup_insert. case_decide.
      * intros [= <-]. simpl. lra.
      * intros Hk. apply lookup_delete_Some in Hk as [_ Hk].
        assert (arrival_time job' == time x)%Q; [|lra].
        apply (Hall j); [rewrite Hb; now apply list_elem_of_further|exact Hk].
    + intros Hlen. apply Htwo. rewrite Hb. simpl. lia.
    + intros k j. rewrite lookup_insert. case_decide.
      * intros [= <-]. split; [|exact Hsv].
        now apply wait_time_started_on_arrival.
      * intros Hk. apply lookup_delete_Some in Hk as [_ Hk]. eauto.
    + apply Forall_app. split; [exact Hw|]. apply Forall_singleton.
      rewrite wait_time_set_finish_time. now apply (Hjobs _ _ Hjob).
Qed.

Lemma punctual_waits_zero d v w : punctual d v w -> waits_zero w.
Proof.
  intros [[_ (_ & _ & H)]|[_ (a & _ & _ & _ & _ & _ & _ & H)]]; exact H.
Qed.

Lemma punctual_step d v w w' :
  (v <= d)%Q -> det_step d v w w' -> punctual d v w -> punctual d v w'.
Proof.
  intros Hv Hstep [[Hd H]|[Hd H]]; [left|right]; (split; [exact Hd|]).
  - now apply (before_zero_step d v w).
  - now apply (on_time_step d v w).
Qed.

Lemma det_config_start d v s0 :
  det_config d v s0 ->
  det_config d v (schedule_next_arrival (initialize s0)) /\
  view_of (schedule_next_arrival (initialize s0))
  = mkView 0 [Event_of_type (0 + d) ARRIVAL] [] ∅ [].
Proof.
  intros (Ha & Hs & Hn & Hc). unfold schedule_next_arrival. simpl.
  rewrite Ha. simpl. unfold det_config. simpl. auto.
Qed.

Lemma punctual_start d v :
  punctual d v (mkView 0 [Event_of_type (0 + d) ARRIVAL] [] ∅ []).
Proof.
  destruct (Qlt_le_dec d 0) as [Hd|Hd]; [left|right]; (split; [exact Hd|]).
  - split; [|split]; simpl.
    + intros e He. apply list_elem_of_singleton in He as ->. simpl. lra.
    + intros k j Hk. rewrite lookup_empty in Hk. discriminate.
    + apply Forall_nil_2.
  - exists (Event_of_type (0 + d) ARRIVAL). simpl.
    rewrite departures_cons_arrival by reflexivity.
    split; [reflexivity|]. split; [reflexivity|].
    split; [|split; [|split; [|split]]].
    + intros x Hx. inversion Hx.
    + congruence.
    + simpl. lia.
    + intros k j Hk. rewrite lookup_empty in Hk. discriminate.
    + apply Forall_nil_2.
Qed.

Lemma boundary_punctual d v s0 s :
  (v <= d)%Q -> configured s0 -> det_config d v s0 -> boundary s0 s ->
  det_config d v s /\ punctual d v (view_of s).
Proof.
  intros Hv Hc Hcfg Hb. induction Hb as [|s s' Hb [IHc IHp] Hs].
  - destruct (det_config_start d v s0 Hcfg) as [H ->].
    split; [exact H|apply punctual_start].
  - destruct (loop_body_det_step d v s s'
                (boundary_consistent _ _ Hc Hb) IHc Hs) as [Hstep Hc'].
    split; [exact Hc'|]. now apply (punctual_step d v (view_of s)).
Qed.

Lemma Qsum_zero (l : list Q) :
  Forall (fun x => x == 0)%Q l -> (Qsum l == 0)%Q.
Proof.
  induction 1 as [|x l Hx _ IH]; [reflexivity|].
  unfold Qsum in *. simpl. rewrite Hx, IH. ring.
Qed.

Lemma waits_zero_never_waited (s : Simulator) :
  waits_zero (view_of s) -> never_waited s.
Proof.
  intros H. unfold waits_zero in H. simpl in H.
  assert (Ha : (avg_wait_time s == 0)%Q).
  { unfold avg_wait_time. destruct (wait_times_ s) as [|x l] eqn:E;
      [reflexivity|].
    unfold average. rewrite fold_left_Qplus, (Qsum_zero _ H).
    unfold Qdiv. ring. }
  split; [exact H|]. split; [exact Ha|].
  now apply (Qred_complete _ 0).
Qed.

Lemma never_waited_final (s : Simulator) :
  never_waited s -> never_waited (update_busy_statistics s).
Proof.
  unfold never_waited, avg_wait_time.
  destruct (update_busy_statistics_frame s)
    as (H1&H2&H3&H4&H5&H6&H7&H8&H9&H10&H11&H12&H13&H14&H15&H16).
  now rewrite H14.
Qed.

(** Eight iterations of [tied_engine]: arrivals overtake the departures of
    equal timestamp and are buffered, and still nobody waits. *)
Example tied_engine_eight_events :
  on_result (fun s => (map (fun e => (time e, type e)) (history_ s),
                       wait_times_ s))
            (main_loop (fun _ => true) 8
               (schedule_next_arrival (initialize tied_engine)))
  = Some ([(1, ARRIVAL); (2, ARRIVAL); (2, DEPARTURE); (3, DEPARTURE);
           (3, ARRIVAL); (4, ARRIVAL); (4, DEPARTURE); (5, DEPARTURE)]%Q,
          [0; 0; 0; 0]%Q).
Proof. vm_compute. reflexivity. Qed.

(* ===================================================================== *)
(** * Further properties of the code                                     *)
(* ===================================================================== *)

(** Two simulators with the same data members are the same. *)
Lemma Simulator_ext (s1 s2 : Simulator) :
  current_time_ s1 = current_time_ s2 ->
  jobs_completed_ s1 = jobs_completed_ s2 ->
  jobs_lost_ s1 = jobs_lost_ s2 ->
  next_job_id_ s1 = next_job_id_ s2 ->
  total_arrivals_ s1 = total_arrivals_ s2 ->
  arrival_generator_ s1 = arrival_generator_ s2 ->
  service_generator_ s1 = service_generator_ s2 ->
  num_cores_ s1 = num_cores_ s2 ->
  buffer_capacity_ s1 = buffer_capacity_ s2 ->
  event_queue_ s1 = event_queue_ s2 ->
  job_queue_ s1 = job_queue_ s2 ->
  cores_busy_ s1 = cores_busy_ s2 ->
  cores_finish_time_ s1 = cores_finish_time_ s2 ->
  cores_current_job_ s1 = cores_current_job_ s2 ->
  active_jobs_ s1 = active_jobs_ s2 ->
  wait_times_ s1 = wait_times_ s2 ->
  system_times_ s1 = system_times_ s2 ->
  total_busy_time_ s1 = total_busy_time_ s2 ->
  last_busy_check_time_ s1 = last_busy_check_time_ s2 ->
  history_ s1 = history_ s2 ->
  s1 = s2.
Proof.
  destruct s1, s2. simpl. intros. subst. reflexivity.
Qed.

Lemma process_arrival_cases (s s' : Simulator) :
  process_arrival s = Ok s' ->
  (find_free_core s <> (-1)%Z /\ (0 <= find_free_core s < num_cores_ s)%Z /\
   s' = arrival_served s) \/
  (find_free_core s = (-1)%Z /\ buffer_full s = true /\ s' = arrival_lost s) \/
  (find_free_core s = (-1)%Z /\ buffer_full s = false /\
   s' = arrival_buffered s).
Proof.
  unfold process_arrival, arrival_served, arrival_lost, arrival_buffered.
  simpl. destruct (generate (service_generator_ s)) as [st g] eqn:Eg. simpl.
  change (find_free_core (add_job _ _)) with (find_free_core s).
  change (buffer_full (add_job ?j (set_next_job_id ?n (set_service_generator ?g
            (set_total_arrivals ?a s))))) with (buffer_full s).
  destruct (Z.eqb_spec (find_free_core s) (-1)) as [E|E]; simpl.
  - destruct (buffer_full s); simpl; intros [= <-]; right; [left|right];
      (split; [exact E|]); (split; [reflexivity|]);
      unfold schedule_next_arrival; simpl;
      destruct (generate (arrival_generator_ s)) as [ia g']; simpl.
    + now rewrite delete_insert_eq.
    + reflexivity.
  - unfold occupy_core. simpl.
    destruct (Z.ltb_spec (find_free_core s) 0); simpl; [discriminate|].
    destruct (Z.leb_spec (num_cores_ s) (find_free_core s)); simpl;
      [discriminate|].
    intros [= <-]. left. split; [exact E|]. split; [lia|].
    unfold schedule_next_arrival, schedule_departure, at_key; simpl.
    destruct (generate (arrival_generator_ s)) as [ia g']; simpl.
    now rewrite lookup_insert_eq, insert_insert_eq.
Qed.

Lemma process_departure_cases (j c : Z) (s s' : Simulator) :
  process_departure j c s = Ok s' ->
  (active_jobs_ s !! j = None /\ s' = s) \/
  exists job,
    active_jobs_ s !! j = Some job /\ (0 <= c < num_cores_ s)%Z /\
    ((job_queue_ s = [] /\ s' = departure_idle j c job [] s) \/
     (exists head q,
         job_queue_ s = head :: q /\
         ((delete j (active_jobs_ s) !! Job_id head = None /\
           s' = departure_idle j c job q s) \/
          (exists waiting,
              delete j (active_jobs_ s) !! Job_id head = Some waiting /\
              s' = departure_next j c job head waiting q s)))).
Proof.
  unfold process_departure.
  destruct (active_jobs_ s !! j) as [job|] eqn:Ej.
  2:{ intros [= <-]. now left. }
  intros H. right. exists job. split; [reflexivity|].
  unfold release_core in H. simpl in H.
  destruct (Z.ltb_spec c 0); simpl in H; [discriminate|].
  destruct (Z.leb_spec (num_cores_ s) c); simpl in H; [discriminate|].
  split; [lia|].
  destruct (job_queue_ s) as [|head q] eqn:Eq; simpl in H.
  - left. split; [reflexivity|]. injection H as <-.
    apply Simulator_ext; simpl; rewrite ?delete_insert_eq; auto.
  - right. exists head, q. split; [reflexivity|].
    rewrite delete_insert_eq in H.
    destruct (delete j (active_jobs_ s) !! Job_id head) as [waiting|] eqn:Ew.
    + right. exists waiting. split; [reflexivity|].
      unfold occupy_core in H. simpl in H.
      destruct (Z.ltb_spec c 0); simpl in H; [lia|].
      destruct (Z.leb_spec (num_cores_ s) c); simpl in H; [lia|].
      injection H as <-.
      apply Simulator_ext; simpl; rewrite ?list_insert_insert_eq; auto.
    + left. split; [reflexivity|]. injection H as <-.
      apply Simulator_ext; simpl; auto.
Qed.

Lemma pending_popped (s : Simulator) (e : Event) :
  pq_top Event_gt (event_queue_ s) = Some e ->
  pending_departures s
  ≡ₚ (if decide (type e = DEPARTURE)
      then e :: pending_departures (popped e s)
      else pending_departures (popped e s)).
Proof.
  intros He. destruct (Event_top_least _ _ He) as [HP _].
  destruct (popped_frame e s)
    as (H1&H2&H3&H4&H5&H6&H7&H8&H9&H10&H11&H12&H13&H14&H15&H16).
  unfold pending_departures, departures. rewrite H10, HP, filter_cons.
  reflexivity.
Qed.

Lemma loop_body_handled (s s' : Simulator) :
  consistent s -> loop_body s = Ok s' ->
  exists e, pq_top Event_gt (event_queue_ s) = Some e /\
            handled e (popped e s) s'.
Proof.
  intros B Hs.
  destruct (loop_body_outcome _ _ Hs) as (e & He & _ & _ & _ & _ & Hp).
  exists e. split; [exact He|].
  pose proof (pending_popped s e He) as Hpend.
  unfold consistent in B.
  set (p := popped e s) in *.
  destruct (type e) eqn:Et.
  - destruct (decide (ARRIVAL = DEPARTURE)); [discriminate|].
    assert (Bp : bookkeeping (pending_departures p) p).
    { apply bookkeeping_popped. now apply (bookkeeping_perm _ _ _ Hpend). }
    assert (Hfresh : active_jobs_ p !! next_job_id_ p = None).
    { destruct (active_jobs_ p !! next_job_id_ p) as [j|] eqn:E; [|reflexivity].
      apply (bk_keys _ _ Bp) in E. lia. }
    destruct (process_arrival_cases _ _ Hp)
      as [(Hc & Hr & ->)|[(Hc & Hf & ->)|(Hc & Hf & ->)]].
    + apply handled_served; auto.
      destruct (find_free_core_spec p) as [[Hc' _]|[_ Hfree]];
        [contradiction|exact Hfree].
    + now apply handled_lost.
    + now apply handled_buffered.
  - destruct (decide (DEPARTURE = DEPARTURE)); [|congruence].
    assert (Bp : bookkeeping (e :: pending_departures p) p).
    { apply bookkeeping_popped. now apply (bookkeeping_perm _ _ _ Hpend). }
    destruct (bk_serving _ _ Bp e (list_elem_of_here _ _))
      as (Hrange & Hbusy & [job Hjob]).
    destruct (process_departure_cases _ _ _ _ Hp)
      as [[Hnone _]|(job' & Hjob' & _ & Hcase)]; [congruence|].
    assert (job' = job) as -> by congruence.
    destruct Hcase as [[Hq ->]|(head & q & Hq & Hcase)].
    + now apply handled_idle.
    + pose proof (bk_job_once _ _ Bp) as Hnd. rewrite Hq in Hnd. simpl in Hnd.
      apply NoDup_cons in Hnd as [Hnin _].
      assert (Hne : Job_id head <> job_id e).
      { intros E. apply Hnin, elem_of_app. right. rewrite <- E. left. }
      assert (Hin : head ∈ job_queue_ p) by (rewrite Hq; left).
      destruct (bk_waiting _ _ Bp head Hin) as [waiting Hw].
      destruct Hcase as [[Hnone _]|(waiting' & Hw' & ->)].
      * rewrite lookup_delete_ne in Hnone by congruence. congruence.
      * rewrite lookup_delete_ne in Hw' by congruence.
        assert (waiting' = waiting) as -> by congruence.
        apply handled_next; auto.
        now destruct (bk_keys _ _ Bp _ _ Hw).
Qed.

Lemma boundary_invariant (P : Simulator -> Prop) (s0 : Simulator) :
  configured s0 ->
  P (schedule_next_arrival (initialize s0)) ->
  (forall s e s',
      consistent s -> P s ->
      pq_top Event_gt (event_queue_ s) = Some e ->
      handled e (popped e s) s' -> consistent s' -> P s') ->
  forall s, boundary s0 s -> P s.
Proof.
  intros Hc Hstart Hstep s Hb. induction Hb as [|s s' Hb IH Hs]; [exact Hstart|].
  pose proof (boundary_consistent _ _ Hc Hb) as B.
  destruct (loop_body_handled _ _ B Hs) as (e & He & Hh).
  apply (Hstep s e s'); auto.
  apply (boundary_consistent s0); [exact Hc|].
  now apply (boundary_step _ s).
Qed.

Lemma runs_end_at_boundaries (P : Simulator -> Prop) (s0 : Simulator) :
  configured s0 ->
  (forall s, boundary s0 s -> P s) ->
  (forall s, P s -> P (update_busy_statistics s)) ->
  (forall T, exists s, run T s0 = Ok s /\ P s) /\
  (forall K, exists s, run_until_jobs K s0 = Ok s /\ P s).
Proof.
  intros Hc Hb Hf. split.
  - intros T. destruct (run_boundary T s0 Hc) as (s & Hs & Hr & _).
    exists (update_busy_statistics s). auto.
  - intros K. destruct (run_until_jobs_boundary K s0 Hc) as (s & Hs & Hr & _).
    exists (update_busy_statistics s). auto.
Qed.

Lemma arrivals_snoc l e :
  arrivals (l ++ [e])
  = arrivals l ++ (if decide (type e = ARRIVAL) then [e] else []).
Proof.
  unfold arrivals. rewrite filter_app, filter_cons, filter_nil. reflexivity.
Qed.

Lemma departures_app l e :
  departures (l ++ [e])
  = departures l ++ (if decide (type e = DEPARTURE) then [e] else []).
Proof.
  unfold departures. rewrite filter_app, filter_cons, filter_nil. reflexivity.
Qed.

Lemma arrivals_perm l l' : l ≡ₚ l' -> arrivals l ≡ₚ arrivals l'.
Proof. intros H. unfold arrivals. now rewrite H. Qed.

Lemma count_true_bounds (l : list bool) :
  (0 <= count_true l <= Z.of_nat (length l))%Z.
Proof.
  induction l as [|b l IH]; [unfold count_true; simpl; lia|].
  rewrite count_true_cons. destruct b; simpl length; lia.
Qed.

Lemma count_true_full (l : list bool) :
  count_true l = Z.of_nat (length l) <-> forall i, l !! i <> Some false.
Proof.
  induction l as [|b l IH].
  - split; [intros _ i; now rewrite lookup_nil | reflexivity].
  - rewrite count_true_cons. pose proof (count_true_bounds l) as Hb. split.
    + intros H i. destruct b; simpl length in H; [|lia].
      destruct i; simpl; [discriminate|]. apply IH. lia.
    + intros H. destruct b; [|now specialize (H 0%nat)].
      simpl length. assert (count_true l = Z.of_nat (length l)); [|lia].
      apply IH. intros i. apply (H (S i)).
Qed.

Lemma all_busy_no_free_core (s : Simulator) :
  length (cores_busy_ s) = Z.to_nat (num_cores_ s) -> (0 < num_cores_ s)%Z ->
  (count_busy_cores s = num_cores_ s <-> find_free_core s = (-1)%Z).
Proof.
  intros Hl Hc. fold (count_true (cores_busy_ s)).
  unfold count_busy_cores. fold (count_true (cores_busy_ s)).
  assert (Hn : num_cores_ s = Z.of_nat (length (cores_busy_ s))) by lia.
  rewrite Hn at 1. rewrite count_true_full.
  destruct (find_free_core_spec s) as [[E Hall]|[Hr Hfree]].
  - split; [auto|]. intros _ i Hi.
    apply (Hall (Z.of_nat i)); [|now rewrite Nat2Z.id].
    apply lookup_lt_Some in Hi. lia.
  - split; [|lia]. intros H. now apply H in Hfree.
Qed.

Lemma regular_start (s0 : Simulator) :
  regular (schedule_next_arrival (initialize s0)).
Proof.
  unfold schedule_next_arrival.
  destruct (generate (arrival_generator_ (initialize s0))) as [x g].
  constructor; simpl; auto; try lia. congruence.
Qed.

Ltac popped_fields e s :=
  let H1 := fresh "Pclock" in let H2 := fresh "Pcompleted" in
  let H3 := fresh "Plost" in let H4 := fresh "Pnext" in
  let H5 := fresh "Parrivals" in let H6 := fresh "Pag" in
  let H7 := fresh "Psg" in let H8 := fresh "Pcores" in
  let H9 := fresh "Pcap" in let H10 := fresh "Pqueue" in
  let H11 := fresh "Pbuffer" in let H12 := fresh "Pbusy" in
  let H13 := fresh "Ptable" in let H14 := fresh "Pwaits" in
  let H15 := fresh "Psystem" in let H16 := fresh "Phistory" in
  destruct (popped_frame e s)
    as (H1&H2&H3&H4&H5&H6&H7&H8&H9&H10&H11&H12&H13&H14&H15&H16).

Lemma count_busy_popped (e : Event) (s : Simulator) :
  count_busy_cores (popped e s) = count_busy_cores s.
Proof. popped_fields e s. unfold count_busy_cores. now rewrite Pbusy. Qed.

Lemma regular_step (s s' : Simulator) (e : Event) :
  consistent s -> regular s ->
  pq_top Event_gt (event_queue_ s) = Some e ->
  handled e (popped e s) s' -> regular s'.
Proof.
  intros B [Rid [Rs1 Rs2] Rnext Rarr Rcomp Rwork Rcap] He Hh.
  destruct (Event_top_least _ _ He) as [HP _].
  popped_fields e s.
  pose proof (count_busy_popped e s) as Pcount.
  pose proof (bk_busy_length _ _ B) as Blen.
  pose proof (bk_cores _ _ B) as Bcores.
  apply arrivals_perm in HP. apply Permutation_length in HP.
  rewrite Rnext in HP. unfold arrivals in HP. rewrite filter_cons in HP.
  fold (arrivals (elems (event_queue_ (popped e s)))) in HP.
  rewrite <- Pqueue in HP.
  destruct Hh as [Et Hr Hfree Hfresh|Et Hc Hf Hfresh|Et Hc Hf Hfresh
                 |job Et Hjob Hr Hbusy Hq
                 |job head waiting q Et Hjob Hr Hbusy Hq Hw Hne Hid];
    rewrite Et in HP; simpl in HP;
    constructor; simpl;
    rewrite ?Pclock, ?Pcompleted, ?Plost, ?Pnext, ?Parrivals, ?Pcores, ?Pcap,
      ?Pbuffer, ?Ptable, ?Pwaits, ?Psystem, ?Phistory,
      ?arrivals_snoc, ?departures_app, ?Et, ?length_app;
    simpl; rewrite ?length_app; simpl;
    try (unfold arrivals; rewrite !filter_app, !filter_cons, !filter_nil;
         simpl; rewrite ?length_app; simpl);
    try lia; auto; try (unfold arrivals in *; lia).
  - (* served: a free core exists, so the buffer is empty *)
    intros Hne. exfalso. specialize (Rwork Hne).
    assert (Hall : find_free_core (popped e s) = (-1)%Z).
    { apply (all_busy_no_free_core (popped e s)); try congruence. }
    lia.
  - intros Hne. apply Rwork in Hne. rewrite <- Hne.
    unfold count_busy_cores. simpl. now rewrite Pbusy.
  - intros _. unfold count_busy_cores. simpl. rewrite <- Pcores.
    apply (all_busy_no_free_core (popped e s)); congruence.
  - intros Hcap. specialize (Rcap Hcap). unfold buffer_full in Hf.
    rewrite Pcap, Pbuffer in Hf.
    destruct (Z.eqb_spec (buffer_capacity_ s) (-1)); [lia|].
    rewrite to_int_small in Hf by lia. lia.
 - intros Hq'. now contradiction Hq'.
  - intros Hq'. rewrite Pbuffer in Hq.
    assert (Hne' : job_queue_ s <> []) by (rewrite Hq; discriminate).
    specialize (Rwork Hne'). unfold count_busy_cores in *. simpl.
    rewrite Pbusy in *.
    fold (count_true (cores_busy_ s)) in Rwork.
    fold (count_true (<[Z.to_nat (core_id e):=true]> (cores_busy_ s))).
    rewrite (count_true_insert _ _ _ _ Hbusy). lia.
  - intros Hcap. specialize (Rcap Hcap). rewrite Pbuffer in Hq.
    rewrite Hq in Rcap. simpl in Rcap. lia.
Qed.

Lemma boundary_regular (s0 s : Simulator) :
  configured s0 -> boundary s0 s -> regular s.
Proof.
  intros Hc. apply boundary_invariant; [exact Hc|apply regular_start|].
  intros s1 e s' B R He Hh _. exact (regular_step s1 s' e B R He Hh).
Qed.

Lemma non_negative_generate (g : RandomGenerator) :
  non_negative g ->
  (0 <= fst (generate g))%Q /\ non_negative (snd (generate g)).
Proof.
  intros [Hc Hl]. destruct (generate_range g Hc) as [Hr _].
  split; [lra|]. split; [now apply generate_conforming|].
  now rewrite generate_lower_bound.
Qed.

Lemma chronological_snoc (l : list Event) (e : Event) :
  chronological l -> (forall e', e' ∈ l -> (time e' <= time e)%Q) ->
  chronological (l ++ [e]).
Proof.
  intros Hl Hle i j a b Hij Ha Hb.
  apply lookup_app_Some in Hb as [Hb|[Hj Hb]].
  - rewrite lookup_app_l in Ha by (apply lookup_lt_Some in Hb; lia).
    exact (Hl i j a b Hij Ha Hb).
  - apply list_lookup_singleton_Some in Hb as [Hz <-].
    rewrite lookup_app_l in Ha by lia.
    apply Hle. now apply list_elem_of_lookup_2 in Ha.
Qed.

Lemma timely_start (s0 : Simulator) :
  non_negative (arrival_generator_ s0) ->
  non_negative (service_generator_ s0) ->
  timely (schedule_next_arrival (initialize s0)).
Proof.
  intros Ha Hs. destruct (non_negative_generate _ Ha) as [Hx Hg].
  unfold schedule_next_arrival.
  change (arrival_generator_ (initialize s0)) with (arrival_generator_ s0).
  destruct (generate (arrival_generator_ s0)) as [x g]. simpl in *.
  constructor; simpl; auto.
  - lra.
  - intros e He. apply list_elem_of_singleton in He as ->. simpl. lra.
  - intros e He. inversion He.
  - intros i j a b _ Hi. now rewrite lookup_nil in Hi.
  - intros k j Hk. now rewrite lookup_empty in Hk.
Qed.

Lemma timely_step (s s' : Simulator) (e : Event) :
  timely s ->
  pq_top Event_gt (event_queue_ s) = Some e ->
  handled e (popped e s) s' -> timely s'.
Proof.
  intros [Ta Ts Tc Tp Th Tch Tsv] He Hh.
  destruct (Event_top_least _ _ He) as [HP Hmin].
  popped_fields e s.
  assert (Hin : e ∈ elems (event_queue_ s)) by (rewrite HP; left).
  pose proof (Tp e Hin) as Hle.
  assert (Hrest : forall e', e' ∈ elems (event_queue_ (popped e s)) ->
                             (time e <= time e')%Q).
  { intros e' He'. apply Hmin. rewrite Pqueue in He'. rewrite HP. now right. }
  assert (Hhist : forall e', e' ∈ history_ s ++ [e] ->
                             (0 <= time e')%Q /\ (time e' <= time e)%Q).
  { intros e' He'. apply elem_of_app in He' as [He'|He'].
    - specialize (Th e' He'). split; lra.
    - apply list_elem_of_singleton in He' as ->. split; lra. }
  assert (Hchron : chronological (history_ s ++ [e])).
  { apply chronological_snoc; [exact Tch|]. intros e' He'.
    specialize (Th e' He'). lra. }
  rewrite <- Pag in Ta. rewrite <- Psg in Ts. rewrite <- Ptable in Tsv.
  destruct (non_negative_generate _ Ta) as [Hia Ta'].
  destruct (non_negative_generate _ Ts) as [Hst Ts'].
  destruct Hh as [Et Hr Hfree Hfresh|Et Hc Hf Hfresh|Et Hc Hf Hfresh
                 |job Et Hjob Hr Hbusy Hq
                 |job head waiting q Et Hjob Hr Hbusy Hq Hw Hne Hid];
    constructor; simpl; rewrite ?Pclock, ?Phistory; auto; try lra.
  all: try (intros e' He';
            rewrite ?elem_of_app, ?list_elem_of_singleton in He';
            repeat match goal with
                   | H : _ \/ _ |- _ => destruct H as [H|H]
                   end;
            subst; simpl; first [now apply Hrest | lra]).
  all: try (intros k j Hk; apply lookup_delete_Some in Hk as [_ Hk];
            now eauto).
  all: try (intros k j; rewrite lookup_insert; case_decide;
    [intros [= <-]; simpl; try lra
    |intros Hk; try apply lookup_delete_Some in Hk as [_ Hk]; eauto]).
  - specialize (Tsv _ _ Hw). intros e' He'.
    rewrite elem_of_app, list_elem_of_singleton in He'.
    destruct He' as [He'| ->]; [now apply Hrest|simpl; lra].
  - exact (Tsv _ _ Hw).
Qed.

Lemma boundary_timely (s0 s : Simulator) :
  configured s0 ->
  non_negative (arrival_generator_ s0) ->
  non_negative (service_generator_ s0) ->
  boundary s0 s -> timely s.
Proof.
  intros Hc Ha Hs. apply boundary_invariant; [exact Hc|now apply timely_start|].
  intros s1 e s' _ R He Hh _. exact (timely_step s1 s' e R He Hh).
Qed.

Lemma popped_bookkeeping (s : Simulator) (e : Event) :
  consistent s -> pq_top Event_gt (event_queue_ s) = Some e ->
  bookkeeping (if decide (type e = DEPARTURE)
               then e :: pending_departures (popped e s)
               else pending_departures (popped e s)) (popped e s).
Proof.
  intros B He. apply bookkeeping_popped.
  now apply (bookkeeping_perm _ _ _ (pending_popped s e He)).
Qed.

Lemma count_busy_cores_bounds (s : Simulator) :
  length (cores_busy_ s) = Z.to_nat (num_cores_ s) -> (0 < num_cores_ s)%Z ->
  (0 <= count_busy_cores s <= num_cores_ s)%Z.
Proof.
  intros Hl Hc. unfold count_busy_cores. fold (count_true (cores_busy_ s)).
  pose proof (count_true_bounds (cores_busy_ s)). lia.
Qed.

Lemma jobs_timed_start (s0 : Simulator) :
  jobs_timed (schedule_next_arrival (initialize s0)).
Proof.
  unfold schedule_next_arrival.
  destruct (generate (arrival_generator_ (initialize s0))) as [x g].
  constructor; simpl.
  - intros k j Hk. now rewrite lookup_empty in Hk.
  - intros e j He. inversion He.
  - constructor.
Qed.

Lemma completed_sample (t : Q) (job : Job) :
  (0 <= t)%Q -> (0 <= start_time job)%Q ->
  (arrival_time job <= start_time job)%Q ->
  (t == start_time job + service_time job)%Q -> (0 <= service_time job)%Q ->
  (0 <= wait_time (set_finish_time t job))%Q /\
  (wait_time (set_finish_time t job)
   <= system_time (set_finish_time t job))%Q /\
  (system_time (set_finish_time t job)
   == wait_time (set_finish_time t job) + service_time job)%Q.
Proof.
  intros Ht Hs Ha He Hv. unfold wait_time, system_time. simpl.
  apply Qle_bool_iff in Ht, Hs. rewrite Ht, Hs. repeat split; lra.
Qed.

Lemma jobs_timed_step (s s' : Simulator) (e : Event) :
  consistent s -> timely s -> jobs_timed s ->
  pq_top Event_gt (event_queue_ s) = Some e ->
  handled e (popped e s) s' -> jobs_timed s'.
Proof.
  intros B T [Ja Js Jm] He Hh.
  destruct (Event_top_least _ _ He) as [HP _].
  assert (Hin : e ∈ elems (event_queue_ s)) by (rewrite HP; left).
  pose proof (tm_pending _ T e Hin) as Hle.
  pose proof (tm_clock _ T) as Hclock.
  pose proof (popped_bookkeeping s e B He) as Bp.
  pose proof (pending_popped s e He) as Hpend.
  destruct (non_negative_generate _ (tm_service_generator _ T)) as [Hst _].
  pose proof (tm_service _ T) as Tsv.
  popped_fields e s.
  set (p := popped e s) in *.
  rewrite <- Ptable in Ja, Js, Tsv. rewrite <- Psg in Hst.
  assert (Ja' : forall k j, active_jobs_ p !! k = Some j ->
                            (0 <= arrival_time j)%Q /\
                            (arrival_time j <= time e)%Q).
  { intros k j Hk. destruct (Ja k j Hk). split; lra. }
  assert (Js' : forall e0 j, e0 ∈ pending_departures p ->
                             active_jobs_ p !! job_id e0 = Some j ->
                             (0 <= start_time j)%Q /\
                             (arrival_time j <= start_time j)%Q /\
                             (time e0 == start_time j + service_time j)%Q).
  { intros e0 j He0. apply Js. rewrite Hpend.
    destruct (decide (type e = DEPARTURE)); [now right|exact He0]. }
  assert (Hknown : forall e0, e0 ∈ pending_departures p ->
                              is_Some (active_jobs_ p !! job_id e0)).
  { intros e0 He0. apply (bk_serving _ _ Bp).
    destruct (decide (type e = DEPARTURE)); [now right|exact He0]. }
  assert (Hdone : forall job, type e = DEPARTURE ->
            active_jobs_ p !! job_id e = Some job ->
            Forall2 (fun w u => 0 <= w /\ w <= u)%Q
              (wait_times_ s ++ [wait_time (set_finish_time (time e) job)])
              (system_times_ s ++ [system_time (set_finish_time (time e) job)])).
  { intros job Et Hjob. apply Forall2_app; [exact Jm|].
    constructor; [|constructor].
    assert (He0 : e ∈ pending_departures s).
    { rewrite Hpend. destruct (decide (type e = DEPARTURE)); [left|congruence]. }
    destruct (Js e job He0 Hjob) as (G1 & G2 & G3).
    destruct (completed_sample (time e) job) as (G4 & G5 & _); auto.
    - lra.
    - exact (Tsv _ _ Hjob). }
  destruct Hh as [Et Hr Hfree Hfresh|Et Hc Hf Hfresh|Et Hc Hf Hfresh
                 |job Et Hjob Hr Hbusy Hq
                 |job head waiting q Et Hjob Hr Hbusy Hq Hw Hne Hid];
    rewrite Et in Bp, Hpend; simpl in Bp, Hpend;
    constructor; simpl; rewrite ?Pclock, ?Pwaits, ?Psystem;
    unfold pending_departures; simpl; rewrite ?departures_app; simpl;
    fold (pending_departures p); rewrite ?app_nil_r; auto.
  - (* served *)
    intros k j. rewrite lookup_insert. case_decide; [|now apply Ja'].
    intros [= <-]. simpl. split; lra.
  - intros e0 j He0. rewrite lookup_insert.
    apply elem_of_app in He0 as [He0|He0].
    + case_decide as E; [|now apply Js'].
      destruct (Hknown e0 He0) as [j' Hj']. congruence.
    + apply list_elem_of_singleton in He0 as ->. simpl.
      case_decide; [|congruence]. intros [= <-]. simpl.
      split; [lra|]. split; [lra|]. now rewrite Pclock.
  - (* lost *)
    intros k j Hk. apply lookup_delete_Some in Hk as [_ Hk]. eauto.
  - intros e0 j He0 Hk. apply lookup_delete_Some in Hk as [_ Hk]. eauto.
  - (* buffered *)
    intros k j. rewrite lookup_insert. case_decide; [|now apply Ja'].
    intros [= <-]. simpl. split; lra.
  - intros e0 j He0. rewrite lookup_insert.
    case_decide as E; [|now apply Js'].
    destruct (Hknown e0 He0) as [j' Hj']. congruence.
  - (* idle *)
    intros k j Hk. apply lookup_delete_Some in Hk as [_ Hk]. eauto.
  - intros e0 j He0 Hk. apply lookup_delete_Some in Hk as [_ Hk]. eauto.
  - (* next *)
    intros k j. rewrite lookup_insert. case_decide.
    + intros [= <-]. simpl. now apply (Ja' _ _ Hw).
    + intros Hk. apply lookup_delete_Some in Hk as [_ Hk]. eauto.
  - intros e0 j He0. rewrite lookup_insert.
    apply elem_of_app in He0 as [He0|He0].
    + pose proof (bk_job_once _ _ Bp) as Hnd. rewrite Hq in Hnd.
      simpl in Hnd. apply NoDup_cons in Hnd as [_ Hnd].
      apply NoDup_app in Hnd as (_ & Hdisj & _).
      case_decide as E.
      * exfalso. apply (Hdisj (job_id e0)).
        -- apply list_elem_of_fmap. eauto.
        -- rewrite <- E. left.
      * intros Hk. apply lookup_delete_Some in Hk as [_ Hk]. eauto.
    + apply list_elem_of_singleton in He0 as ->. simpl.
      case_decide; [|congruence]. intros [= <-]. simpl.
      destruct (Ja' _ _ Hw). split; [lra|]. split; [lra|].
      now rewrite Pclock.
Qed.

Lemma boundary_jobs_timed (s0 s : Simulator) :
  configured s0 ->
  non_negative (arrival_generator_ s0) ->
  non_negative (service_generator_ s0) ->
  boundary s0 s -> timely s /\ jobs_timed s.
Proof.
  intros Hc Ha Hs.
  apply (boundary_invariant (fun s => timely s /\ jobs_timed s));
    [exact Hc| |].
  - split; [now apply timely_start|apply jobs_timed_start].
  - intros s1 e s' B (T & J) He Hh _.
    split; [exact (timely_step s1 s' e T He Hh)|].
    exact (jobs_timed_step s1 s' e B T J He Hh).
Qed.

Lemma update_busy_statistics_cases (s : Simulator) :
  update_busy_statistics s = s \/
  exists a b, update_busy_statistics s = set_busy_time a b s.
Proof.
  unfold update_busy_statistics.
  destruct (Qlt_bool (last_busy_check_time_ s) (current_time_ s)); eauto.
Qed.

Ltac final_statistics s :=
  let a := fresh "a" in let b := fresh "b" in
  destruct (update_busy_statistics_cases s) as [->|(a & b & ->)];
  [assumption|].

Lemma events_split (l : list Event) :
  length l = (length (arrivals l) + length (departures l))%nat.
Proof.
  unfold arrivals, departures. induction l as [|e l IH]; [reflexivity|].
  rewrite !filter_cons. destruct (type e) eqn:E.
  - destruct (decide (ARRIVAL = ARRIVAL)); [|congruence].
    destruct (decide (ARRIVAL = DEPARTURE)); [discriminate|].
    simpl. lia.
  - destruct (decide (DEPARTURE = ARRIVAL)); [discriminate|].
    destruct (decide (DEPARTURE = DEPARTURE)); [|congruence].
    simpl. lia.
Qed.

Lemma work_conserving_boundary (s : Simulator) :
  consistent s -> regular s -> work_conserving s.
Proof.
  intros B R Hne. pose proof (rg_work _ R Hne) as Hw.
  split; [exact Hw|]. split.
  - now apply (all_busy_no_free_core s (bk_busy_length _ _ B)
                 (bk_cores _ _ B)).
  - unfold is_server_busy. rewrite Hw. pose proof (bk_cores _ _ B).
    now apply Z.ltb_lt.
Qed.

(** X1.  The server is work conserving: at every event boundary of a run, and
    when [run] or [run_until_jobs] returns, a job is in the buffer only if
    every core is busy, so that [find_free_core] finds none. *)
Theorem no_core_idles_while_a_job_waits (s0 : Simulator) :
  configured s0 ->
  (forall s, boundary s0 s -> work_conserving s) /\
  (forall T, exists s, run T s0 = Ok s /\ work_conserving s) /\
  (forall K, exists s, run_until_jobs K s0 = Ok s /\ work_conserving s).
Proof.
  intros Hc.
  assert (Hb : forall s, boundary s0 s -> work_conserving s).
  { intros s Hs. apply work_conserving_boundary.
    - now apply (boundary_consistent s0).
    - now apply (boundary_regular s0). }
  split; [exact Hb|]. apply runs_end_at_boundaries; auto.
  intros s Hs. final_statistics s. exact Hs.
Qed.

Lemma no_core_idles_while_a_job_waits_witness :
  (forall s, boundary demo_engine s -> work_conserving s) /\
  (forall T, exists s, run T demo_engine = Ok s /\ work_conserving s) /\
  (forall K, exists s, run_until_jobs K demo_engine = Ok s /\
                       work_conserving s).
Proof.
  apply (no_core_idles_while_a_job_waits demo_engine).
  split; [reflexivity|reflexivity].
Defined.

Lemma boundary_capacity (s0 s : Simulator) :
  boundary s0 s -> buffer_capacity_ s = buffer_capacity_ s0.
Proof. intros Hb. now apply boundary_unbounded. Qed.

(** X2.  A bounded buffer is never over-full: with a capacity
    [0 <= buffer_cap] (an [int]), the buffer holds at most [buffer_cap] jobs
    at every event boundary and when a run returns, and [queue_length()]
    reports a value of [0 .. buffer_cap]. *)
Theorem buffer_never_exceeds_capacity (s0 : Simulator) :
  configured s0 -> (0 <= buffer_capacity_ s0 < 2 ^ 31)%Z ->
  (forall s, boundary s0 s -> within_capacity s0 s) /\
  (forall T, exists s, run T s0 = Ok s /\ within_capacity s0 s) /\
  (forall K, exists s, run_until_jobs K s0 = Ok s /\ within_capacity s0 s).
Proof.
  intros Hc Hcap.
  assert (Hb : forall s, boundary s0 s -> within_capacity s0 s).
  { intros s Hs. pose proof (boundary_regular s0 s Hc Hs) as R.
    pose proof (rg_capacity _ R) as Hle.
    rewrite (boundary_capacity _ _ Hs) in Hle. specialize (Hle Hcap).
    split; [exact Hle|]. unfold queue_length.
    rewrite to_int_small by lia. lia. }
  split; [exact Hb|]. apply runs_end_at_boundaries; auto.
  intros s Hs. final_statistics s. exact Hs.
Qed.

Lemma buffer_never_exceeds_capacity_witness :
  (forall s, boundary demo_engine s -> within_capacity demo_engine s) /\
  (forall T, exists s, run T demo_engine = Ok s /\
                       within_capacity demo_engine s) /\
  (forall K, exists s, run_until_jobs K demo_engine = Ok s /\
                       within_capacity demo_engine s).
Proof.
  apply (buffer_never_exceeds_capacity demo_engine).
  - split; reflexivity.
  - simpl. lia.
Defined.

Lemma next_arrival_pending_boundary (s : Simulator) :
  consistent s -> regular s -> next_arrival_pending s.
Proof.
  intros B R. pose proof (rg_next_arrival _ R) as H1.
  pose proof (bk_busy_count _ _ B) as H2.
  pose proof (events_split (elems (event_queue_ s))) as H3.
  fold (pending_departures s) in H3.
  destruct (count_busy_cores_bounds s (bk_busy_length _ _ B) (bk_cores _ _ B)).
  unfold next_arrival_pending, pq_size, pq_empty.
  split; [exact H1|]. split; [lia|]. split; [lia|]. split; [lia|].
  destruct (elems (event_queue_ s)); [discriminate|reflexivity].
Qed.

Lemma run_stops_at_boundary (T : Q) (s0 : Simulator) :
  configured s0 ->
  exists s, boundary s0 s /\ run T s0 = Ok (update_busy_statistics s) /\
            (pq_empty (event_queue_ s) = true \/ (T <= current_time_ s)%Q \/
             Z.of_nat (length (history_ s)) = MAX_ITERATIONS).
Proof.
  intros Hc. unfold run.
  assert (Hmax : Z.of_nat (Z.to_nat MAX_ITERATIONS) = MAX_ITERATIONS)
    by (apply Z2Nat.id; discriminate).
  revert Hmax. generalize (Z.to_nat MAX_ITERATIONS). intros n Hmax.
  destruct (main_loop_boundary s0 (fun s => Qlt_bool (current_time_ s) T)
              n _ Hc (boundary_start s0)) as (s & Hs & Hb & _).
  rewrite Hs. exists s. split; [exact Hb|]. split; [reflexivity|].
  destruct (main_loop_trace _ _ _ _ Hs) as (l & Hh & _ & _ & _ & _ & Hstop).
  rewrite schedule_next_arrival_history in Hh.
  change (history_ (initialize s0)) with (@nil Event) in Hh.
  rewrite Hh. simpl. destruct Hstop as [G|[G|G]]; auto.
  right; right. lia.
Qed.

(** X3.  The timeline never runs dry.  At every event boundary the event queue
    holds exactly one arrival event (the next one) and one departure event
    for each busy core, hence between 1 and [num_cores + 1] events.  So the
    loop of [run] never ends because the queue is empty: when [run T]
    returns, the clock has reached [T] or the iteration cap is exhausted. *)
Theorem timeline_holds_the_next_arrival (s0 : Simulator) :
  configured s0 ->
  (forall s, boundary s0 s -> next_arrival_pending s) /\
  (forall T, exists s,
      run T s0 = Ok s /\ next_arrival_pending s /\
      ((T <= current_time s)%Q \/
       Z.of_nat (length (history_ s)) = MAX_ITERATIONS)) /\
  (forall K, exists s, run_until_jobs K s0 = Ok s /\ next_arrival_pending s).
Proof.
  intros Hc.
  assert (Hb : forall s, boundary s0 s -> next_arrival_pending s).
  { intros s Hs. apply next_arrival_pending_boundary.
    - now apply (boundary_consistent s0).
    - now apply (boundary_regular s0). }
  assert (Hf : forall s, next_arrival_pending s ->
                         next_arrival_pending (update_busy_statistics s)).
  { intros s Hs. final_statistics s. exact Hs. }
  split; [exact Hb|]. split.
  - intros T. destruct (run_stops_at_boundary T s0 Hc) as (s & Hs & Hr & Hstop).
    exists (update_busy_statistics s). split; [exact Hr|].
    split; [auto|]. specialize (Hb s Hs).
    destruct (update_busy_statistics_frame s)
      as (H1&H2&H3&H4&H5&H6&H7&H8&H9&H10&H11&H12&H13&H14&H15&H16).
    unfold current_time. rewrite H1, H16.
    destruct Hstop as [G|[G|G]]; auto.
    destruct Hb as (_ & _ & _ & _ & Hne). congruence.
  - apply runs_end_at_boundaries; auto.
Qed.

Lemma timeline_holds_the_next_arrival_witness :
  (forall s, boundary demo_engine s -> next_arrival_pending s) /\
  (forall T, exists s,
      run T demo_engine = Ok s /\ next_arrival_pending s /\
      ((T <= current_time s)%Q \/
       Z.of_nat (length (history_ s)) = MAX_ITERATIONS)) /\
  (forall K, exists s, run_until_jobs K demo_engine = Ok s /\
                       next_arrival_pending s).
Proof.
  apply (timeline_holds_the_next_arrival demo_engine).
  split; reflexivity.
Defined.

Lemma counts_events_boundary (s : Simulator) : regular s -> counts_events s.
Proof.
  intros R. unfold counts_events, total_arrivals, jobs_completed.
  pose proof (rg_arrivals _ R). pose proof (rg_completed _ R).
  pose proof (rg_ids _ R). pose proof (events_split (history_ s)).
  repeat split; auto. lia.
Qed.

(** X4.  The counters count the processed events.  A departure event whose
    job is not in the job table changes nothing (not even an out-of-range
    core is reported); in a run that never happens: at every event boundary
    and when a run returns, [total_arrivals] is the number of arrival events
    processed, [jobs_completed] the number of departure events processed,
    their sum the number of loop iterations, and the next job identifier
    equals [total_arrivals]. *)
Theorem counters_count_the_processed_events (s0 : Simulator) :
  configured s0 ->
  (forall j c s, active_jobs_ s !! j = None ->
                 process_departure j c s = Ok s) /\
  (forall s, boundary s0 s -> counts_events s) /\
  (forall T, exists s, run T s0 = Ok s /\ counts_events s) /\
  (forall K, exists s, run_until_jobs K s0 = Ok s /\ counts_events s).
Proof.
  intros Hc. split.
  { intros j c s Hj. unfold process_departure. now rewrite Hj. }
  assert (Hb : forall s, boundary s0 s -> counts_events s).
  { intros s Hs. apply counts_events_boundary. now apply (boundary_regular s0). }
  split; [exact Hb|]. apply runs_end_at_boundaries; auto.
  intros s Hs. final_statistics s. exact Hs.
Qed.

Lemma counters_count_the_processed_events_witness :
  (forall j c s, active_jobs_ s !! j = None ->
                 process_departure j c s = Ok s) /\
  (forall s, boundary demo_engine s -> counts_events s) /\
  (forall T, exists s, run T demo_engine = Ok s /\ counts_events s) /\
  (forall K, exists s, run_until_jobs K demo_engine = Ok s /\
                       counts_events s).
Proof.
  apply (counters_count_the_processed_events demo_engine).
  split; reflexivity.
Defined.

(** X5.  One sample per completed job: at every event boundary and when a run
    returns, the vectors of waiting times and of system times both have
    [jobs_completed] entries. *)
Theorem one_sample_per_completed_job (s0 : Simulator) :
  configured s0 ->
  (forall s, boundary s0 s -> sampled_once s) /\
  (forall T, exists s, run T s0 = Ok s /\ sampled_once s) /\
  (forall K, exists s, run_until_jobs K s0 = Ok s /\ sampled_once s).
Proof.
  intros Hc.
  assert (Hb : forall s, boundary s0 s -> sampled_once s).
  { intros s Hs. destruct (rg_samples _ (boundary_regular s0 s Hc Hs)) as [H1 H2].
    unfold sampled_once, jobs_completed. split; [exact H2|]. lia. }
  split; [exact Hb|]. apply runs_end_at_boundaries; auto.
  intros s Hs. final_statistics s. exact Hs.
Qed.

Lemma one_sample_per_completed_job_witness :
  (forall s, boundary demo_engine s -> sampled_once s) /\
  (forall T, exists s, run T demo_engine = Ok s /\ sampled_once s) /\
  (forall K, exists s, run_until_jobs K demo_engine = Ok s /\ sampled_once s).
Proof.
  apply (one_sample_per_completed_job demo_engine).
  split; reflexivity.
Defined.

Lemma loop_body_completed (s s' : Simulator) :
  loop_body s = Ok s' ->
  (jobs_completed_ s <= jobs_completed_ s' <= jobs_completed_ s + 1)%Z /\
  length (history_ s') = S (length (history_ s)).
Proof.
  intros Hs. destruct (loop_body_outcome _ _ Hs) as (e & _ & _ & Hh & _ & _ & Hp).
  split; [|rewrite Hh, length_app; simpl; lia].
  popped_fields e s. rewrite <- Pcompleted.
  destruct (type e).
  - destruct (process_arrival_outcome _ _ Hp) as (_ & _ & _ & _ & -> & _). lia.
  - destruct (process_departure_cases _ _ _ _ Hp)
      as [[_ ->]|(job & _ & _ & [[_ ->]|(h & q & _ & [[_ ->]|(w & _ & ->)])])];
      simpl; lia.
Qed.

Lemma main_loop_until_jobs (K : Z) (fuel : nat) (s s' : Simulator) :
  main_loop (fun s => (jobs_completed_ s <? K)%Z) fuel s = Ok s' ->
  exists n,
    length (history_ s') = (length (history_ s) + n)%nat /\ (n <= fuel)%nat /\
    (jobs_completed_ s <= jobs_completed_ s')%Z /\
    (jobs_completed_ s' <= Z.max K (jobs_completed_ s))%Z /\
    ((K <= jobs_completed_ s)%Z -> s' = s) /\
    (pq_empty (event_queue_ s') = true \/ (K <= jobs_completed_ s')%Z \/
     n = fuel).
Proof.
  assert (Hnil : forall r fuel,
            pq_empty (event_queue_ r) = true \/ (K <= jobs_completed_ r)%Z \/
            0%nat = fuel ->
            exists n,
              length (history_ r) = (length (history_ r) + n)%nat /\
              (n <= fuel)%nat /\
              (jobs_completed_ r <= jobs_completed_ r)%Z /\
              (jobs_completed_ r <= Z.max K (jobs_completed_ r))%Z /\
              ((K <= jobs_completed_ r)%Z -> r = r) /\
              (pq_empty (event_queue_ r) = true \/
               (K <= jobs_completed_ r)%Z \/ n = fuel)).
  { intros r f Hstop. exists 0%nat. repeat split; auto; lia. }
  revert s. induction fuel as [|fuel IH]; intros s; simpl.
  - intros H.
    assert (s' = s) as ->.
    { destruct (negb (pq_empty (event_queue_ s)) &&
                (jobs_completed_ s <? K)%Z); congruence. }
    apply Hnil. auto.
  - destruct (pq_empty (event_queue_ s)) eqn:E; simpl.
    { intros [= <-]. apply Hnil. auto. }
    destruct (Z.ltb_spec (jobs_completed_ s) K) as [Hlt|Hge].
    2:{ intros [= <-]. apply Hnil. auto. }
    destruct (loop_body s) as [s1|] eqn:Hs1; simpl; [|discriminate].
    intros H. destruct (IH s1 H) as (n & Hh & Hn & Hle & Hmax & _ & Hstop).
    destruct (loop_body_completed _ _ Hs1) as [Hc Hl].
    exists (S n). rewrite Hh, Hl.
    split; [lia|]. split; [lia|]. split; [lia|]. split; [lia|].
    split; [lia|]. destruct Hstop as [G|[G|G]]; auto.
Qed.

(** X6.  [run_until_jobs K] completes the jobs asked for and no more.  It
    always returns; with [K <= 0] it processes no event at all; otherwise it
    stops at the event boundary at which the [K]-th job completes, so that
    [jobs_completed] is exactly [K], unless the cap on the number of loop
    iterations ends the run before. *)
Theorem run_until_jobs_completes_the_jobs_asked_for (s0 : Simulator) (K : Z) :
  configured s0 ->
  exists s,
    run_until_jobs K s0 = Ok s /\
    ((K <= 0)%Z ->
     history_ s = [] /\ jobs_completed s = 0%Z /\ total_arrivals s = 0%Z /\
     current_time s = 0%Q) /\
    (0 <= jobs_completed s <= Z.max K 0)%Z /\
    (jobs_completed s = Z.max K 0 \/
     Z.of_nat (length (history_ s)) = MAX_ITERATIONS).
Proof.
  intros Hc. unfold run_until_jobs.
  assert (Hmax : Z.of_nat (Z.to_nat MAX_ITERATIONS) = MAX_ITERATIONS)
    by (apply Z2Nat.id; discriminate).
  revert Hmax. generalize (Z.to_nat MAX_ITERATIONS). intros n Hmax.
  destruct (main_loop_boundary s0 (fun s => (jobs_completed_ s <? K)%Z)
              n _ Hc (boundary_start s0)) as (s & Hs & Hb & _).
  rewrite Hs. simpl. exists (update_busy_statistics s). split; [reflexivity|].
  destruct (main_loop_until_jobs _ _ _ _ Hs)
    as (m & Hh & Hm & Hle & Hmx & Hsame & Hstop).
  destruct (schedule_next_arrival_frame (initialize s0))
    as (G1&G2&G3&G4&G5&G6&G7&G8&G9&G10&G11&G12&G13&G14).
  rewrite G2 in Hle, Hmx, Hsame. rewrite G14 in Hh. simpl in Hle, Hmx, Hsame, Hh.
  destruct (update_busy_statistics_frame s)
    as (H1&H2&H3&H4&H5&H6&H7&H8&H9&H10&H11&H12&H13&H14&H15&H16).
  unfold jobs_completed, total_arrivals, current_time.
  rewrite H1, H2, H5, H16.
  split; [|split; [lia|]].
  - intros HK. rewrite (Hsame HK). rewrite G1, G5, G14. simpl. auto.
  - destruct (next_arrival_pending_boundary s
                (boundary_consistent _ _ Hc Hb) (boundary_regular _ _ Hc Hb))
      as (_ & _ & _ & _ & Hne).
    destruct Hstop as [G|[G|G]]; [congruence|left; lia|right; lia].
Qed.

Lemma run_until_jobs_completes_the_jobs_asked_for_witness :
  exists s,
    run_until_jobs 2 demo_engine = Ok s /\
    ((2 <= 0)%Z ->
     history_ s = [] /\ jobs_completed s = 0%Z /\ total_arrivals s = 0%Z /\
     current_time s = 0%Q) /\
    (0 <= jobs_completed s <= Z.max 2 0)%Z /\
    (jobs_completed s = Z.max 2 0 \/
     Z.of_nat (length (history_ s)) = MAX_ITERATIONS).
Proof.
  apply (run_until_jobs_completes_the_jobs_asked_for demo_engine 2).
  split; reflexivity.
Defined.

Lemma in_time_order_boundary (s : Simulator) : timely s -> in_time_order s.
Proof.
  intros []. unfold in_time_order, current_time. auto.
Qed.

(** X7.  With generators that return no negative value, simulated time never
    runs backwards: the events are processed in the order of their
    timestamps, the clock is never negative and never behind a processed
    event, and every event still pending is due at the clock or later. *)
Theorem clock_never_runs_backwards (s0 : Simulator) :
  configured s0 ->
  non_negative (arrival_generator_ s0) ->
  non_negative (service_generator_ s0) ->
  (forall s, boundary s0 s -> in_time_order s) /\
  (forall T, exists s, run T s0 = Ok s /\ in_time_order s) /\
  (forall K, exists s, run_until_jobs K s0 = Ok s /\ in_time_order s).
Proof.
  intros Hc Ha Hs.
  assert (Hb : forall s, boundary s0 s -> in_time_order s).
  { intros s Hb. apply in_time_order_boundary.
    now apply (boundary_timely s0). }
  split; [exact Hb|]. apply runs_end_at_boundaries; auto.
  intros s H. final_statistics s. exact H.
Qed.

Lemma demo_engine_non_negative :
  non_negative (arrival_generator_ demo_engine) /\
  non_negative (service_generator_ demo_engine).
Proof.
  split; (split; [exact I|]); simpl; apply Qle_bool_iff; reflexivity.
Defined.

Lemma clock_never_runs_backwards_witness :
  (forall s, boundary demo_engine s -> in_time_order s) /\
  (forall T, exists s, run T demo_engine = Ok s /\ in_time_order s) /\
  (forall K, exists s, run_until_jobs K demo_engine = Ok s /\
                       in_time_order s).
Proof.
  apply (clock_never_runs_backwards demo_engine).
  - split; reflexivity.
  - apply demo_engine_non_negative.
  - apply demo_engine_non_negative.
Defined.

Lemma min_element_spec (a : Q) (l : list Q) :
  min_element a l ∈ a :: l /\
  forall x, x ∈ a :: l -> (min_element a l <= x)%Q.
Proof.
  revert a. induction l as [|y l IH]; intros a; simpl.
  - split; [left|]. intros x Hx. apply list_elem_of_singleton in Hx as ->. lra.
  - destruct (IH (if Qlt_bool y a then y else a)) as [Hin Hle].
    destruct (Qlt_bool y a) eqn:E.
    + apply Qlt_bool_true in E. split.
      * right. exact Hin.
      * intros x Hx. apply elem_of_cons in Hx as [->|Hx].
        -- specialize (Hle y (list_elem_of_here _ _)). lra.
        -- now apply Hle.
    + apply Qlt_bool_false in E. split.
      * apply elem_of_cons in Hin as [->|Hin]; [left|right; now right].
      * intros x Hx. apply elem_of_cons in Hx as [->|Hx].
        -- apply Hle. left.
        -- apply elem_of_cons in Hx as [->|Hx].
           ++ specialize (Hle a (list_elem_of_here _ _)). lra.
           ++ apply Hle. now right.
Qed.

Lemma length_positive {A : Type} (x : A) (v : list A) :
  (0 < inject_Z (Z.of_nat (length (x :: v))))%Q.
Proof.
  change 0%Q with (inject_Z 0). rewrite <- Zlt_Qlt. simpl length. lia.
Qed.

Lemma Qsum_Forall2 (ws us : list Q) :
  Forall2 (fun w u => 0 <= w /\ w <= u)%Q ws us ->
  (0 <= Qsum ws)%Q /\ (Qsum ws <= Qsum us)%Q.
Proof.
  induction 1 as [|w u ws us [H0 H1] _ [IH0 IH1]]; simpl; split; lra.
Qed.

Lemma waits_within_sojourns_boundary (s : Simulator) :
  jobs_timed s -> waits_within_sojourns s.
Proof.
  intros [_ _ Hm]. unfold waits_within_sojourns.
  split; [exact Hm|].
  pose proof (Forall2_length _ _ _ Hm) as Hlen.
  destruct (Qsum_Forall2 _ _ Hm) as [S0 S1].
  unfold min_wait_time, avg_wait_time, avg_system_time.
  destruct (wait_times_ s) as [|w ws] eqn:Ew;
    destruct (system_times_ s) as [|u us] eqn:Eu; try discriminate.
  - repeat split; lra.
  - split.
    + destruct (min_element_spec w ws) as [Hin _].
      assert (Hall : Forall (fun x => 0 <= x)%Q (w :: ws)).
      { clear -Hm. induction Hm as [|? ? ? ? [] ? ?]; constructor; auto. }
      rewrite Forall_forall in Hall. now apply Hall.
    + rewrite !average_arithmetic_mean. unfold arithmetic_mean.
      rewrite <- Hlen. pose proof (length_positive w ws) as Hn.
      split.
      * apply Qle_shift_div_l; [exact Hn|lra].
      * apply Qle_shift_div_r; [exact Hn|].
        unfold Qdiv. rewrite <- Qmult_assoc.
        rewrite (Qmult_comm (/ _)), Qmult_inv_r by lra. lra.
Qed.

Lemma loss_is_probability_boundary (s : Simulator) :
  consistent s -> loss_is_probability s.
Proof.
  intros B. pose proof (bk_counters _ _ B). pose proof (bk_completed _ _ B).
  pose proof (bk_lost _ _ B).
  unfold loss_is_probability, loss_probability, jobs_lost, total_arrivals.
  split; [lia|].
  destruct (Z.eqb_spec (total_arrivals_ s) 0) as [E|E]; [split; lra|].
  assert (Hn : (0 < inject_Z (total_arrivals_ s))%Q)
    by (change 0%Q with (inject_Z 0); rewrite <- Zlt_Qlt; lia).
  assert (Hl : (0 <= inject_Z (jobs_lost_ s))%Q)
    by (change 0%Q with (inject_Z 0); now rewrite <- Zle_Qle).
  assert (Hle : (inject_Z (jobs_lost_ s) <= inject_Z (total_arrivals_ s))%Q)
    by (rewrite <- Zle_Qle; lia).
  split; [apply Qle_shift_div_l|apply Qle_shift_div_r]; auto; lra.
Qed.

(** X11.  [loss_probability()] is a probability: at every event boundary and
    when a run returns, [0 <= jobs_lost <= total_arrivals], and the ratio
    returned (0 when nothing has arrived) lies in [[0, 1]]. *)
Theorem loss_probability_is_a_probability (s0 : Simulator) :
  configured s0 ->
  (forall s, boundary s0 s -> loss_is_probability s) /\
  (forall T, exists s, run T s0 = Ok s /\ loss_is_probability s) /\
  (forall K, exists s, run_until_jobs K s0 = Ok s /\ loss_is_probability s).
Proof.
  intros Hc.
  assert (Hb : forall s, boundary s0 s -> loss_is_probability s).
  { intros s Hb. apply loss_is_probability_boundary.
    now apply (boundary_consistent s0). }
  split; [exact Hb|]. apply runs_end_at_boundaries; auto.
  intros s H. final_statistics s. exact H.
Qed.

Lemma loss_probability_is_a_probability_witness :
  (forall s, boundary demo_engine s -> loss_is_probability s) /\
  (forall T, exists s, run T demo_engine = Ok s /\ loss_is_probability s) /\
  (forall K, exists s, run_until_jobs K demo_engine = Ok s /\
                       loss_is_probability s).
Proof.
  apply (loss_probability_is_a_probability demo_engine).
  split; reflexivity.
Defined.

Lemma find_free_core_loop_first (n : nat) (i : Z) (busy : list bool) :
  (0 <= i)%Z -> (Z.to_nat i + n <= length busy)%nat ->
  (find_free_core_loop n i busy = (-1)%Z /\
   forall j, (i <= j < i + Z.of_nat n)%Z -> busy !! Z.to_nat j = Some true) \/
  ((i <= find_free_core_loop n i busy < i + Z.of_nat n)%Z /\
   busy !! Z.to_nat (find_free_core_loop n i busy) = Some false /\
   forall j, (i <= j < find_free_core_loop n i busy)%Z ->
             busy !! Z.to_nat j = Some true).
Proof.
  revert i. induction n as [|n IH]; intros i Hi Hlen; simpl.
  - left. split; [reflexivity|]. intros j Hj. lia.
  - destruct (busy !! Z.to_nat i) as [[|]|] eqn:E.
    + destruct (IH (i + 1)%Z) as [[H1 H2]|(H1 & H2 & H3)]; [lia|lia| |].
      * left. split; [exact H1|]. intros j Hj.
        destruct (decide (j = i)) as [->|Hne]; [exact E|]. apply H2. lia.
      * right. split; [lia|]. split; [exact H2|]. intros j Hj.
        destruct (decide (j = i)) as [->|Hne]; [exact E|]. apply H3. lia.
    + right. split; [lia|]. split; [exact E|]. intros j Hj. lia.
    + apply lookup_ge_None in E. lia.
Qed.

(** X12.  [find_free_core()] returns the idle core of least index: on a
    simulator whose [cores_busy_] has [num_cores_] entries, it returns [-1]
    exactly when every core is busy, and otherwise the index of an idle core
    below which every core is busy. *)
Theorem find_free_core_returns_the_first_idle_core (s : Simulator) :
  length (cores_busy_ s) = Z.to_nat (num_cores_ s) ->
  (find_free_core s = (-1)%Z <->
   forall j, (0 <= j < num_cores_ s)%Z ->
             cores_busy_ s !! Z.to_nat j = Some true) /\
  (find_free_core s <> (-1)%Z -> first_idle_core s (find_free_core s)).
Proof.
  intros Hl. unfold find_free_core, first_idle_core.
  destruct (find_free_core_loop_first (Z.to_nat (num_cores_ s)) 0
              (cores_busy_ s)) as [[H1 H2]|(H1 & H2 & H3)]; [lia|simpl; lia| |].
  - rewrite H1. split; [|congruence]. split; [|reflexivity].
    intros _ j Hj. apply H2. lia.
  - split.
    + split; [lia|]. intros Hall.
      rewrite Hall in H2 by lia. discriminate.
    + intros _. split; [lia|]. split; [exact H2|exact H3].
Qed.

Lemma find_free_core_returns_the_first_idle_core_witness :
  (find_free_core demo_engine = (-1)%Z <->
   forall j, (0 <= j < num_cores_ demo_engine)%Z ->
             cores_busy_ demo_engine !! Z.to_nat j = Some true) /\
  (find_free_core demo_engine <> (-1)%Z ->
   first_idle_core demo_engine (find_free_core demo_engine)).
Proof.
  apply (find_free_core_returns_the_first_idle_core demo_engine).
  reflexivity.
Defined.

(** X13.  [occupy_core] and [release_core] throw [out_of_range] exactly for a
    core index outside [0 .. num_cores - 1], and then change nothing.
    Within the range (on a simulator whose vectors have [num_cores_]
    entries), [occupy_core] marks that core busy with the given job and
    finish time, [release_core] marks it idle again with job [-1] and finish
    time 0, and neither touches another core; occupying an idle core raises
    [count_busy_cores()] by one and releasing it restores the count. *)
Theorem cores_are_occupied_and_released_within_range
  (s : Simulator) (c j : Z) (t : Q) :
  (occupy_core c j t s = Throw out_of_range <->
   (c < 0)%Z \/ (num_cores_ s <= c)%Z) /\
  (release_core c s = Throw out_of_range <->
   (c < 0)%Z \/ (num_cores_ s <= c)%Z) /\
  ((0 <= c < num_cores_ s)%Z ->
   length (cores_busy_ s) = Z.to_nat (num_cores_ s) ->
   length (cores_finish_time_ s) = Z.to_nat (num_cores_ s) ->
   length (cores_current_job_ s) = Z.to_nat (num_cores_ s) ->
   exists s1 s2,
     occupy_core c j t s = Ok s1 /\ release_core c s1 = Ok s2 /\
     core_set c true s s1 /\ core_set c false s1 s2 /\
     cores_finish_time_ s1 !! Z.to_nat c = Some t /\
     cores_current_job_ s1 !! Z.to_nat c = Some j /\
     cores_finish_time_ s2 !! Z.to_nat c = Some 0%Q /\
     cores_current_job_ s2 !! Z.to_nat c = Some (-1)%Z /\
     (cores_busy_ s !! Z.to_nat c = Some false ->
      count_busy_cores s1 = (count_busy_cores s + 1)%Z /\
      count_busy_cores s2 = count_busy_cores s /\
      cores_busy_ s2 = cores_busy_ s)).
Proof.
  unfold occupy_core, release_core.
  destruct (Z.ltb_spec c 0) as [H0|H0]; simpl.
  { split; [split; auto|]. split; [split; auto|]. lia. }
  destruct (Z.leb_spec (num_cores_ s) c) as [H1|H1]; simpl.
  { split; [split; auto|]. split; [split; auto|]. lia. }
  split; [split; [discriminate|lia]|]. split; [split; [discriminate|lia]|].
  intros _ Lb Lf Lj. eexists. eexists. split; [reflexivity|].
  unfold release_core. simpl.
  destruct (Z.ltb_spec c 0); [lia|].
  destruct (Z.leb_spec (num_cores_ s) c); [lia|]. simpl.
  split; [reflexivity|].
  assert (Hc : (Z.to_nat c < Z.to_nat (num_cores_ s))%nat) by lia.
  unfold core_set. simpl. rewrite !length_insert.
  rewrite !list_lookup_insert_eq by (rewrite ?length_insert; lia).
  do 6 (split; [repeat split; auto;
                 intros; rewrite ?list_lookup_insert_ne by lia; auto|]).
  intros Hidle. unfold count_busy_cores. simpl.
  fold (count_true (cores_busy_ s)).
  rewrite list_insert_insert_eq.
  fold (count_true (<[Z.to_nat c:=true]> (cores_busy_ s))).
  fold (count_true (<[Z.to_nat c:=false]> (cores_busy_ s))).
  rewrite !(count_true_insert _ _ _ _ Hidle).
  split; [lia|]. split; [lia|]. now apply list_insert_id.
Qed.

Lemma same_distribution_refl g : same_distribution g g.
Proof. destruct g; simpl; auto. Qed.

Lemma same_distribution_trans g1 g2 g3 :
  same_distribution g1 g2 -> same_distribution g2 g3 ->
  same_distribution g1 g3.
Proof.
  destruct g1, g2, g3; simpl; try tauto; intuition congruence.
Qed.

Lemma same_distribution_mean g g' : same_distribution g g' -> mean g' = mean g.
Proof.
  destruct g, g'; simpl; try tauto; intuition congruence.
Qed.

Lemma same_distribution_generate g g' :
  same_distribution g g' -> same_distribution g (snd (generate g')).
Proof.
  intros H. apply (same_distribution_trans _ g'); [exact H|].
  apply generate_kind.
Qed.

Lemma same_setup_start (s0 : Simulator) :
  configured s0 -> same_setup s0 (schedule_next_arrival (initialize s0)).
Proof.
  intros [Hc Hl].
  pose proof (same_distribution_generate _ _
                (same_distribution_refl (arrival_generator_ s0))) as Hg.
  pose proof (same_distribution_mean _ _ Hg) as Hm.
  unfold schedule_next_arrival.
  change (arrival_generator_ (initialize s0)) with (arrival_generator_ s0).
  destruct (generate (arrival_generator_ s0)) as [x g]. simpl in *.
  unfold same_setup, configured. simpl. rewrite length_replicate.
  repeat split; auto. apply same_distribution_refl.
Qed.

Lemma same_setup_step (s0 s s' : Simulator) (e : Event) :
  same_setup s0 s -> consistent s' ->
  handled e (popped e s) s' -> same_setup s0 s'.
Proof.
  intros (_ & Hn & Hcap & Ha & Hs & Hma & Hms & Ht) B Hh.
  popped_fields e s.
  pose proof (pq_pop_tie Event_gt (event_queue_ s)) as Htie.
  rewrite <- Pqueue in Htie.
  rewrite <- Pag in Ha, Hma. rewrite <- Psg in Hs, Hms.
  pose proof (same_distribution_generate _ _ Ha) as Ha'.
  pose proof (same_distribution_generate _ _ Hs) as Hs'.
  pose proof (same_distribution_mean _ _ (generate_kind
                (arrival_generator_ (popped e s)))) as Hma'.
  pose proof (same_distribution_mean _ _ (generate_kind
                (service_generator_ (popped e s)))) as Hms'.
  assert (Hconf : configured s')
    by (split; [exact (bk_cores _ _ B)|exact (bk_busy_length _ _ B)]).
  split; [exact Hconf|]. clear Hconf B.
  destruct Hh; simpl; rewrite ?Pcores, ?Pcap; repeat split; auto; congruence.
Qed.

Lemma boundary_same_setup (s0 s : Simulator) :
  configured s0 -> boundary s0 s -> same_setup s0 s.
Proof.
  intros Hc. apply boundary_invariant; [exact Hc|now apply same_setup_start|].
  intros s1 e s' _ R _ Hh B. exact (same_setup_step s0 s1 s' e R B Hh).
Qed.

(** X15.  A run leaves the configuration alone, so that the engine can be run
    again.  At every event boundary and when [run] or [run_until_jobs]
    returns, the number of cores and the length of the vector of cores, the
    capacity of the buffer, the class and the parameters of both
    distributions (hence their means) and the heap of the event queue are
    those the run started with. *)
Theorem a_run_keeps_the_configuration (s0 : Simulator) :
  configured s0 ->
  (forall s, boundary s0 s -> same_setup s0 s) /\
  (forall T, exists s, run T s0 = Ok s /\ same_setup s0 s) /\
  (forall K, exists s, run_until_jobs K s0 = Ok s /\ same_setup s0 s).
Proof.
  intros Hc.
  assert (Hb : forall s, boundary s0 s -> same_setup s0 s)
    by (intros s; now apply boundary_same_setup).
  split; [exact Hb|]. apply runs_end_at_boundaries; auto.
  intros s H. final_statistics s. exact H.
Qed.

Lemma a_run_keeps_the_configuration_witness :
  (forall s, boundary demo_engine s -> same_setup demo_engine s) /\
  (forall T, exists s, run T demo_engine = Ok s /\ same_setup demo_engine s) /\
  (forall K, exists s, run_until_jobs K demo_engine = Ok s /\
                       same_setup demo_engine s).
Proof.
  apply (a_run_keeps_the_configuration demo_engine).
  split; reflexivity.
Defined.

Lemma first_come_first_served_empty (s : Simulator) :
  job_queue_ s = [] -> first_come_first_served s.
Proof.
  intros H. unfold first_come_first_served.
  split; [intros i j a b _ Ha; rewrite H in Ha; now destruct i|].
  split; [intros e j _ Hj|intros j Hj]; rewrite H in Hj; inversion Hj.
Qed.

Lemma first_come_first_served_start (s0 : Simulator) :
  first_come_first_served (schedule_next_arrival (initialize s0)).
Proof.
  apply first_come_first_served_empty.
  destruct (schedule_next_arrival_frame (initialize s0))
    as (_ & _ & _ & _ & _ & _ & _ & _ & H & _).
  now rewrite H.
Qed.

Lemma first_come_first_served_step (s s' : Simulator) (e : Event) :
  consistent s -> regular s -> first_come_first_served s ->
  pq_top Event_gt (event_queue_ s) = Some e ->
  handled e (popped e s) s' -> first_come_first_served s'.
Proof.
  intros B R (Fq & Fd & Fn) He Hh.
  pose proof (popped_bookkeeping s e B He) as Bp.
  pose proof (pending_popped s e He) as Hpend.
  popped_fields e s.
  set (p := popped e s) in *.
  assert (Hsub : forall e0, e0 ∈ pending_departures p ->
                            e0 ∈ pending_departures s).
  { intros e0 He0. rewrite Hpend.
    destruct (decide (type e = DEPARTURE)); [now right|exact He0]. }
  assert (Hknown : forall e0, e0 ∈ pending_departures p ->
                              (job_id e0 < next_job_id_ s)%Z).
  { intros e0 He0.
    destruct (bk_serving _ _ Bp e0) as (_ & _ & [j Hj]).
    - destruct (decide (type e = DEPARTURE)); [now right|exact He0].
    - apply (bk_keys _ _ Bp) in Hj. rewrite Pnext in Hj. lia. }
  rewrite <- Pbuffer in Fq, Fd, Fn.
  destruct Hh as [Et Hr Hfree Hfresh|Et Hc Hf Hfresh|Et Hc Hf Hfresh
                 |job Et Hjob Hr Hbusy Hq
                 |job head waiting q Et Hjob Hr Hbusy Hq Hw Hne Hid];
    [apply first_come_first_served_empty; simpl| | |
     apply first_come_first_served_empty; simpl|];
    try (unfold first_come_first_served;
         simpl; unfold pending_departures; simpl; rewrite ?departures_app;
         simpl; fold (pending_departures p); rewrite ?app_nil_r, ?Pnext).
  - (* served: the buffer is empty *)
    assert (Hnil : job_queue_ p = []).
    { destruct (job_queue_ p) as [|j q] eqn:Eq; [reflexivity|]. exfalso.
      assert (Hne : job_queue_ s <> []) by (rewrite <- Pbuffer; discriminate).
      pose proof (rg_work _ R Hne) as Hall.
      assert (find_free_core p = (-1)%Z); [|lia].
      apply (all_busy_no_free_core p).
      - rewrite Pbusy, Pcores. exact (bk_busy_length _ _ B).
      - rewrite Pcores. exact (bk_cores _ _ B).
      - rewrite Pcores, <- Hall. unfold count_busy_cores. now rewrite Pbusy. }
    exact Hnil.
  - split; [exact Fq|]. split; [auto|].
    intros j Hj. specialize (Fn j Hj). lia.
  - split; [|split].
    + intros i j a b Hij Ha Hb.
      apply lookup_app_Some in Hb as [Hb|[Hj Hb]];
        apply lookup_app_Some in Ha as [Ha|[Hi Ha]].
      * exact (Fq i j a b Hij Ha Hb).
      * apply lookup_lt_Some in Hb. lia.
      * apply list_lookup_singleton_Some in Hb as [Hz <-]. simpl.
        apply list_elem_of_lookup_2 in Ha. specialize (Fn a Ha). lia.
      * apply list_lookup_singleton_Some in Hb as [Hz _].
        apply list_lookup_singleton_Some in Ha as [Hz' _]. lia.
    + intros e0 j He0 Hj. apply elem_of_app in Hj as [Hj|Hj]; [auto|].
      apply list_elem_of_singleton in Hj as ->. simpl. now apply Hknown.
    + intros j Hj. apply elem_of_app in Hj as [Hj|Hj].
      * specialize (Fn j Hj). lia.
      * apply list_elem_of_singleton in Hj as ->. simpl.
        pose proof (bk_arrivals _ _ B). pose proof (rg_ids _ R).
        pose proof (rg_arrivals _ R). lia.
  - reflexivity.
  - rewrite Hq in Fq, Fd, Fn. split; [|split].
    + intros i j a b Hij Ha Hb.
      exact (Fq (S i) (S j) a b (proj1 (Nat.succ_lt_mono i j) Hij) Ha Hb).
    + intros e0 j He0 Hj. apply elem_of_app in He0 as [He0|He0].
      * apply Fd; [now apply Hsub|now right].
      * apply list_elem_of_singleton in He0 as ->. simpl. rewrite Hid.
        apply list_elem_of_lookup in Hj as [i Hi].
        exact (Fq 0%nat (S i) head j (Nat.lt_0_succ i) eq_refl Hi).
    + intros j Hj. apply Fn. now right.
Qed.

Lemma boundary_first_come_first_served (s0 s : Simulator) :
  configured s0 -> boundary s0 s ->
  regular s /\ first_come_first_served s.
Proof.
  intros Hc.
  apply (boundary_invariant
           (fun s => regular s /\ first_come_first_served s));
    [exact Hc| |].
  - split; [apply regular_start|apply first_come_first_served_start].
  - intros s1 e s' B [R F] He Hh _.
    split; [exact (regular_step s1 s' e B R He Hh)|].
    exact (first_come_first_served_step s1 s' e B R F He Hh).
Qed.

(** X16.  The buffer is served first come, first served.  Job identifiers are
    given out in the order of arrival; at every event boundary and when a
    run returns, the buffer holds its jobs with increasing identifiers, and
    every job in service has a smaller identifier than every job in the
    buffer: no job starts before a job that arrived earlier. *)
Theorem jobs_start_in_the_order_of_arrival (s0 : Simulator) :
  configured s0 ->
  (forall s, boundary s0 s -> first_come_first_served s) /\
  (forall T, exists s, run T s0 = Ok s /\ first_come_first_served s) /\
  (forall K, exists s, run_until_jobs K s0 = Ok s /\
                      first_come_first_served s).
Proof.
  intros Hc.
  assert (Hb : forall s, boundary s0 s -> first_come_first_served s)
    by (intros s Hs; now apply (boundary_first_come_first_served s0)).
  split; [exact Hb|]. apply runs_end_at_boundaries; auto.
  intros s H. final_statistics s. exact H.
Qed.

Lemma jobs_start_in_the_order_of_arrival_witness :
  (forall s, boundary overloaded_engine s -> first_come_first_served s) /\
  (forall T, exists s, run T overloaded_engine = Ok s /\
                       first_come_first_served s) /\
  (forall K, exists s, run_until_jobs K overloaded_engine = Ok s /\
                      first_come_first_served s).
Proof.
  apply (jobs_start_in_the_order_of_arrival overloaded_engine).
  split; reflexivity.
Defined.

Section StrategyFacts.
Context {T : Type}.
Implicit Types (x : T) (l : list T).

Lemma alter_middle {A : Type} (f : A -> A) (l : list A) (i : nat) (a : A) :
  l !! i = Some a -> alter f i l = take i l ++ f a :: drop (S i) l.
Proof.
  revert i. induction l as [|b l IH]; intros [|i] H; try discriminate.
  - injection H as ->. reflexivity.
  - simpl in *. f_equal. now apply IH.
Qed.

Lemma concat_middle (qs : list (list T)) (i : nat) (q : list T) :
  qs !! i = Some q ->
  concat qs = concat (take i qs) ++ q ++ concat (drop (S i) qs).
Proof.
  intros H. rewrite <- (take_drop_middle qs i q H) at 1.
  now rewrite concat_app, concat_cons.
Qed.

Lemma concat_alter_snoc (qs : list (list T)) (i : nat) x :
  (i < length qs)%nat ->
  concat (alter (fun q => q ++ [x]) i qs) ≡ₚ x :: concat qs.
Proof.
  intros Hi. destruct (lookup_lt_is_Some_2 qs i Hi) as [q Hq].
  rewrite (alter_middle _ _ _ _ Hq), (concat_middle _ _ _ Hq).
  rewrite concat_app, concat_cons. solve_Permutation.
Qed.

Lemma concat_insert_tail (qs : list (list T)) (i : nat) x (q : list T) :
  qs !! i = Some (x :: q) -> concat qs ≡ₚ x :: concat (<[i := q]> qs).
Proof.
  intros Hq. rewrite (concat_middle _ _ _ Hq).
  rewrite insert_take_drop by (now apply lookup_lt_Some in Hq).
  rewrite concat_app, concat_cons. solve_Permutation.
Qed.

Lemma RoundRobin_size_concat (r : RoundRobinStrategy T) :
  RoundRobin_size r = length (concat (queues_ r)).
Proof.
  unfold RoundRobin_size.
  assert (H : forall qs n,
             fold_left (fun total (q : list T) => (total + length q)%nat) qs n
             = (n + length (concat qs))%nat).
  { induction qs as [|q qs IH]; intros n; simpl; [lia|].
    rewrite IH, length_app. lia. }
  now rewrite H.
Qed.

Lemma RoundRobin_empty_concat (r : RoundRobinStrategy T) :
  RoundRobin_empty r = true <-> concat (queues_ r) = [].
Proof.
  unfold RoundRobin_empty. induction (queues_ r) as [|q qs IH]; simpl.
  - tauto.
  - destruct q; simpl; [exact IH|]. split; discriminate.
Qed.

Lemma RoundRobin_scan_Ok (n i : nat) (r : RoundRobinStrategy T) x r' :
  RoundRobin_scan n i r = Ok (x, r') ->
  exists idx q,
    (idx < length (queues_ r))%nat /\ queues_ r !! idx = Some (x :: q) /\
    r' = mkRoundRobin (<[idx := q]> (queues_ r))
                      ((idx + 1) mod length (queues_ r)).
Proof.
  revert i. induction n as [|n IH]; intros i; simpl; [discriminate|].
  destruct (queues_ r !! ((current_queue_ r + i) mod length (queues_ r))%nat)
    as [[|y q]|] eqn:E; try apply IH.
  intros [= <- <-]. eexists _, q. split; [|split; [exact E|reflexivity]].
  now apply lookup_lt_Some in E.
Qed.

Lemma PriorityItem_gt_total (a b : PriorityItem T) :
  PriorityItem_gt a b = false \/ PriorityItem_gt b a = false.
Proof. unfold PriorityItem_gt. rewrite !Z.ltb_ge. lia. Qed.

Lemma PriorityItem_gt_trans (a b c : PriorityItem T) :
  PriorityItem_gt a b = false -> PriorityItem_gt b c = false ->
  PriorityItem_gt a c = false.
Proof. unfold PriorityItem_gt. rewrite !Z.ltb_ge. lia. Qed.

Lemma Priority_pop_least (q : PriorityStrategy T) :
  elems q <> [] ->
  exists p, Priority_pop q = Ok (item p, pq_pop PriorityItem_gt q) /\
            elems q ≡ₚ p :: elems (pq_pop PriorityItem_gt q) /\
            forall p', p' ∈ elems q -> (priority p <= priority p')%Z.
Proof.
  intros Hne. unfold Priority_pop.
  assert (He : pq_empty q = false) by (unfold pq_empty; now destruct (elems q)).
  rewrite He.
  destruct (pq_top_is_Some PriorityItem_gt PriorityItem_gt_total
              PriorityItem_gt_trans q He) as [p Hp].
  rewrite Hp. exists p. split; [reflexivity|].
  destruct (pq_top_elems _ _ _ Hp) as [HP Hmin]. split; [exact HP|].
  intros p' Hp'. specialize (Hmin p' Hp'). unfold PriorityItem_gt in Hmin.
  now apply Z.ltb_ge in Hmin.
Qed.

Lemma Random_pop_any (r : RandomStrategy T) :
  items_ r <> [] ->
  exists x r', Random_pop r = Ok (x, r') /\ items_ r ≡ₚ x :: items_ r' /\
               items_ r !! (rng_ r (rng_used r) mod length (items_ r))%nat
               = Some x.
Proof.
  intros Hne. unfold Random_pop.
  set (idx := (rng_ r (rng_used r) mod length (items_ r))%nat).
  assert (Hidx : (idx < length (items_ r))%nat).
  { apply Nat.mod_upper_bound. now destruct (items_ r). }
  destruct (items_ r) as [|y l] eqn:E; [congruence|]. rewrite <- E in *.
  destruct (lookup_lt_is_Some_2 _ _ Hidx) as [x Hx]. rewrite Hx.
  destruct (last (items_ r)) as [back|] eqn:El.
  2:{ apply last_None in El. congruence. }
  exists x. eexists. split; [reflexivity|]. split; [|reflexivity]. simpl.
  apply last_Some in El as [l' El]. rewrite El in *.
  rewrite length_app in Hidx. simpl in Hidx.
  destruct (decide (idx = length l')) as [->|Hlt].
  - rewrite list_lookup_middle in Hx by reflexivity. injection Hx as <-.
    rewrite insert_app_r_alt by lia. rewrite Nat.sub_diag. simpl.
    rewrite removelast_last. now rewrite Permutation_app_comm.
  - rewrite lookup_app_l in Hx by lia.
    rewrite insert_app_l by lia. rewrite removelast_last.
    rewrite (insert_take_drop l' idx back) by lia.
    rewrite <- (take_drop_middle l' idx x Hx) at 1.
    solve_Permutation.
Qed.
End StrategyFacts.

Section BagFacts.
Context {T : Type}.

Lemma RoundRobin_scan_empty (n i : nat) (r : RoundRobinStrategy T) :
  concat (queues_ r) = [] -> RoundRobin_scan n i r = Throw runtime_error.
Proof.
  intros He. revert i. induction n as [|n IH]; intros i; simpl; [reflexivity|].
  destruct (queues_ r !! ((current_queue_ r + i) mod length (queues_ r))%nat)
    as [[|y q]|] eqn:E; auto.
  rewrite (concat_middle _ _ _ E) in He.
  apply app_eq_nil in He as [_ He]. discriminate.
Qed.

Lemma strategy_measures (s : QueueStrategy T) :
  QueueStrategy_size s = length (contents s) /\
  (QueueStrategy_empty s = true <-> QueueStrategy_size s = 0%nat).
Proof.
  destruct s as [q|q|q|q|q]; simpl.
  - unfold FIFO_size, FIFO_empty. split; [reflexivity|].
    destruct q; simpl; split; (discriminate || reflexivity).
  - unfold LIFO_size, LIFO_empty. split; [reflexivity|].
    destruct q; simpl; split; (discriminate || reflexivity).
  - unfold Random_size, Random_empty. split; [reflexivity|].
    destruct (items_ q); simpl; split; (discriminate || reflexivity).
  - unfold Priority_size, Priority_empty, pq_size, pq_empty.
    rewrite length_fmap. split; [reflexivity|].
    destruct (elems q); simpl; split; (discriminate || reflexivity).
  - rewrite RoundRobin_size_concat. split; [reflexivity|].
    rewrite RoundRobin_empty_concat. split.
    + now intros ->.
    + now apply nil_length_inv.
Qed.

Lemma strategy_push (s : QueueStrategy T) (x : T) :
  well_formed s ->
  well_formed (QueueStrategy_push x s) /\
  contents (QueueStrategy_push x s) ≡ₚ x :: contents s /\
  QueueStrategy_name (QueueStrategy_push x s) = QueueStrategy_name s.
Proof.
  destruct s as [q|q|q|q|q]; simpl; intros Hw.
  - unfold FIFO_push. repeat split. now rewrite Permutation_app_comm.
  - unfold LIFO_push. repeat split. now rewrite Permutation_app_comm.
  - repeat split. now rewrite Permutation_app_comm.
  - repeat split. rewrite fmap_app. simpl. now rewrite Permutation_app_comm.
  - rewrite length_alter. split; [|split; [|reflexivity]].
    + apply Nat.mod_upper_bound. lia.
    + now apply concat_alter_snoc.
Qed.

Lemma strategy_pop_empty (s : QueueStrategy T) :
  contents s = [] -> QueueStrategy_pop s = Throw runtime_error.
Proof.
  destruct s as [q|q|q|q|q]; simpl; intros He.
  - now rewrite He.
  - unfold LIFO_pop. now rewrite He.
  - unfold Random_pop. now rewrite He.
  - apply fmap_nil_inv in He. unfold Priority_pop, pq_empty. now rewrite He.
  - unfold RoundRobin_pop. now rewrite RoundRobin_scan_empty.
Qed.

Lemma strategy_pop (s : QueueStrategy T) :
  well_formed s -> contents s <> [] ->
  exists x s', QueueStrategy_pop s = Ok (x, s') /\ well_formed s' /\
               contents s ≡ₚ x :: contents s' /\
               QueueStrategy_name s' = QueueStrategy_name s.
Proof.
  destruct s as [q|q|q|q|q]; simpl; intros Hw Hne.
  - destruct q as [|x q]; [congruence|]. exists x, (of_FIFO q). simpl. auto.
  - unfold LIFO_pop. destruct (last q) as [x|] eqn:E.
    2:{ apply last_None in E. congruence. }
    apply last_Some in E as [l ->]. rewrite removelast_last.
    exists x, (of_LIFO l). simpl. repeat split.
    now rewrite Permutation_app_comm.
  - destruct (Random_pop_any q Hne) as (x & r' & -> & HP & _).
    exists x, (of_Random r'). simpl. auto.
  - assert (Hne' : elems q <> []) by (intros E; now rewrite E in Hne).
    destruct (Priority_pop_least q Hne') as (p & -> & HP & _).
    exists (item p), (of_Priority (pq_pop PriorityItem_gt q)). simpl.
    repeat split. now rewrite HP.
  - destruct (RoundRobin_pop q) as [[x r']|e] eqn:E.
    + unfold RoundRobin_pop in E.
      destruct (RoundRobin_scan_Ok _ _ _ _ _ E) as (idx & q' & Hi & Hq & ->).
      exists x. eexists. split; [reflexivity|]. simpl.
      rewrite length_insert. split; [|split; [|reflexivity]].
      * apply Nat.mod_upper_bound. lia.
      * now apply concat_insert_tail.
    + apply RoundRobin_pop_Throw, RoundRobin_empty_concat in E. congruence.
Qed.
End BagFacts.

(** X18.  Whatever the discipline, a strategy stores what is pushed until it
    is popped.  [size()] is the number of items held and [empty()] tells
    whether it is 0; [push] adds its item and nothing else; [pop] throws
    [runtime_error] exactly when the strategy is empty, and otherwise removes
    and returns one of the items held, leaving the others.  For
    [RoundRobinStrategy] this needs, and keeps, a cursor that indexes one of
    the sub-queues. *)
Theorem a_strategy_stores_what_is_pushed (T : Type) (s : QueueStrategy T) :
  well_formed s ->
  QueueStrategy_size s = length (contents s) /\
  (QueueStrategy_empty s = true <-> QueueStrategy_size s = 0%nat) /\
  (forall x,
      well_formed (QueueStrategy_push x s) /\
      contents (QueueStrategy_push x s) ≡ₚ x :: contents s /\
      QueueStrategy_size (QueueStrategy_push x s) = S (QueueStrategy_size s) /\
      QueueStrategy_name (QueueStrategy_push x s) = QueueStrategy_name s) /\
  (QueueStrategy_size s = 0%nat ->
   QueueStrategy_pop s = Throw runtime_error) /\
  (QueueStrategy_size s <> 0%nat ->
   exists x s',
     QueueStrategy_pop s = Ok (x, s') /\ well_formed s' /\
     contents s ≡ₚ x :: contents s' /\
     QueueStrategy_size s = S (QueueStrategy_size s') /\
     QueueStrategy_name s' = QueueStrategy_name s).
Proof.
  intros Hw. destruct (strategy_measures s) as [Hsize Hempty].
  split; [exact Hsize|]. split; [exact Hempty|]. split; [|split].
  - intros x. destruct (strategy_push s x Hw) as (H1 & H2 & H3).
    split; [exact H1|]. split; [exact H2|]. split; [|exact H3].
    destruct (strategy_measures (QueueStrategy_push x s)) as [-> _].
    now rewrite H2, Hsize.
  - intros H0. apply strategy_pop_empty.
    rewrite Hsize in H0. now apply nil_length_inv.
  - intros Hne. destruct (strategy_pop s Hw) as (x & s' & Hp & Hw' & HP & Hn).
    { intros E. rewrite Hsize, E in Hne. now apply Hne. }
    exists x, s'. split; [exact Hp|]. split; [exact Hw'|].
    split; [exact HP|]. split; [|exact Hn].
    destruct (strategy_measures s') as [-> _]. now rewrite Hsize, HP.
Qed.

Lemma a_strategy_stores_what_is_pushed_witness :
  QueueStrategy_size two_queues = length (contents two_queues) /\
  (QueueStrategy_empty two_queues = true <->
   QueueStrategy_size two_queues = 0%nat) /\
  (forall x,
      well_formed (QueueStrategy_push x two_queues) /\
      contents (QueueStrategy_push x two_queues)
      ≡ₚ x :: contents two_queues /\
      QueueStrategy_size (QueueStrategy_push x two_queues)
      = S (QueueStrategy_size two_queues) /\
      QueueStrategy_name (QueueStrategy_push x two_queues)
      = QueueStrategy_name two_queues) /\
  (QueueStrategy_size two_queues = 0%nat ->
   QueueStrategy_pop two_queues = Throw runtime_error) /\
  (QueueStrategy_size two_queues <> 0%nat ->
   exists x s',
     QueueStrategy_pop two_queues = Ok (x, s') /\ well_formed s' /\
     contents two_queues ≡ₚ x :: contents s' /\
     QueueStrategy_size two_queues = S (QueueStrategy_size s') /\
     QueueStrategy_name s' = QueueStrategy_name two_queues).
Proof.
  apply (a_strategy_stores_what_is_pushed nat two_queues).
  simpl. lia.
Defined.

Section OrderFacts.
Context {T : Type}.

Lemma released_nil (n : nat) : @released T n [] = replicate n (Throw runtime_error).
Proof. unfold released. rewrite take_nil. simpl. now rewrite Nat.sub_0_r. Qed.

Lemma released_cons (n : nat) (x : T) (l : list T) :
  released (S n) (x :: l) = Ok x :: released n l.
Proof. reflexivity. Qed.

Lemma FIFO_run_pops (n : nat) (q : FIFOStrategy T) :
  FIFO_run (replicate n Pop) q = released n q.
Proof.
  revert q. induction n as [|n IH]; intros q; [reflexivity|].
  destruct q as [|x q]; simpl.
  - rewrite IH, released_nil. now rewrite released_nil.
  - now rewrite IH.
Qed.

Lemma FIFO_run_pushes (xs : list T) (ops : list (op T)) (q : FIFOStrategy T) :
  FIFO_run (map Push xs ++ ops) q = FIFO_run ops (q ++ xs).
Proof.
  revert q. induction xs as [|x xs IH]; intros q; simpl.
  - now rewrite app_nil_r.
  - rewrite IH. unfold FIFO_push. now rewrite <- app_assoc.
Qed.

Lemma LIFO_pop_push (x : T) (q : LIFOStrategy T) :
  LIFO_pop (LIFO_push x q) = Ok (x, q).
Proof.
  unfold LIFO_pop, LIFO_push. now rewrite last_snoc, removelast_last.
Qed.

Lemma LIFO_run_pops (n : nat) (q : LIFOStrategy T) :
  LIFO_run (replicate n Pop) q = released n (rev q).
Proof.
  revert q. induction n as [|n IH]; intros q; [reflexivity|].
  destruct (last q) as [x|] eqn:E; simpl.
  - apply last_Some in E as [l ->].
    fold (LIFO_push x l). rewrite LIFO_pop_push, IH.
    unfold LIFO_push. now rewrite rev_unit.
  - apply last_None in E as ->. simpl. rewrite IH. simpl.
    now rewrite !released_nil.
Qed.

Lemma LIFO_run_pushes (xs : list T) (ops : list (op T)) (q : LIFOStrategy T) :
  LIFO_run (map Push xs ++ ops) q = LIFO_run ops (q ++ xs).
Proof.
  revert q. induction xs as [|x xs IH]; intros q; simpl.
  - now rewrite app_nil_r.
  - rewrite IH. unfold LIFO_push. now rewrite <- app_assoc.
Qed.
End OrderFacts.

(** X19.  [FIFOStrategy] is first in, first out: [n] pops after the items [xs]
    were pushed on a queue holding [q] return the first [n] items of [q]
    followed by [xs], oldest first, and [runtime_error] for every pop beyond
    the last item. *)
Theorem FIFO_releases_the_oldest_item_first (T : Type)
  (q : FIFOStrategy T) (xs : list T) (n : nat) :
  FIFO_run (map Push xs ++ replicate n Pop) q = released n (q ++ xs).
Proof. now rewrite FIFO_run_pushes, FIFO_run_pops. Qed.

(** X20.  [LIFOStrategy] is last in, first out: a [pop] right after a [push]
    returns the item pushed and leaves the stack as it was before; and [n]
    pops after the items [xs] were pushed on a stack holding [q] return the
    items of [q] followed by [xs] youngest first, then [runtime_error]. *)
Theorem LIFO_releases_the_youngest_item_first (T : Type)
  (q : LIFOStrategy T) (xs : list T) (n : nat) :
  (forall x, LIFO_pop (LIFO_push x q) = Ok (x, q)) /\
  LIFO_pop [] = @Throw (T * LIFOStrategy T) runtime_error /\
  LIFO_run (map Push xs ++ replicate n Pop) q = released n (rev (q ++ xs)).
Proof.
  split; [intros x; apply LIFO_pop_push|]. split; [reflexivity|].
  now rewrite LIFO_run_pushes, LIFO_run_pops.
Qed.

(** X21.  [PriorityStrategy::pop] returns an item of least priority value (the
    comparison of [PriorityItem] with [std::greater] makes the queue a
    min-heap): on an empty queue it throws [runtime_error]; otherwise it
    succeeds, the item returned is in the queue under a key that no key in
    the queue is below, and exactly that entry leaves the queue. *)
Theorem Priority_pop_returns_an_item_of_least_key (T : Type)
  (q : PriorityStrategy T) :
  (elems q = [] -> Priority_pop q = Throw runtime_error) /\
  (elems q <> [] ->
   exists p q',
     Priority_pop q = Ok (item p, q') /\ p ∈ elems q /\
     elems q ≡ₚ p :: elems q' /\
     forall p', p' ∈ elems q -> (priority p <= priority p')%Z).
Proof.
  split; [apply Priority_pop_empty|]. intros Hne.
  destruct (Priority_pop_least q Hne) as (p & Hp & HP & Hmin).
  exists p, (pq_pop PriorityItem_gt q). split; [exact Hp|].
  split; [rewrite HP; left|]. auto.
Qed.

Section RoundRobinOne.
Context {T : Type}.

Lemma RoundRobin_one_push (x : T) (q : list T) :
  RoundRobin_push x (mkRoundRobin [q] 0) = mkRoundRobin [q ++ [x]] 0.
Proof. reflexivity. Qed.

Lemma RoundRobin_one_pop (q : list T) :
  RoundRobin_pop (mkRoundRobin [q] 0)
  = match q with
    | [] => Throw runtime_error
    | x :: q' => Ok (x, mkRoundRobin [q'] 0)
    end.
Proof. now destruct q. Qed.

Lemma RoundRobin_one_run (ops : list (op T)) (q : list T) :
  snd (RoundRobin_run ops (mkRoundRobin [q] 0)) = FIFO_run ops q /\
  Forall (fun i => i = 0%nat) (fst (RoundRobin_run ops (mkRoundRobin [q] 0))).
Proof.
  revert q. induction ops as [|[x|] ops IH]; intros q;
    cbn [RoundRobin_run FIFO_run].
  - split; [reflexivity|constructor].
  - rewrite RoundRobin_one_push. unfold FIFO_push.
    destruct (IH (q ++ [x])) as [IH1 IH2].
    destruct (RoundRobin_run ops (mkRoundRobin [q ++ [x]] 0)) as [ds os].
    simpl in *. split; [exact IH1|]. now constructor.
  - rewrite RoundRobin_one_pop. destruct q as [|x q']; simpl FIFO_pop; cbv iota.
    + destruct (IH []) as [IH1 IH2].
      destruct (RoundRobin_run ops (mkRoundRobin [[]] 0)) as [ds os].
      simpl in *. split; [now f_equal|exact IH2].
    + destruct (IH q') as [IH1 IH2].
      destruct (RoundRobin_run ops (mkRoundRobin [q'] 0)) as [ds os].
      simpl in *. split; [now f_equal|exact IH2].
Qed.
End RoundRobinOne.

(** X22.  A round-robin strategy with a single sub-queue, which is what the
    default argument of its constructor gives, is a FIFO queue: on every
    schedule of pushes and pops its pops return what the pops of
    [FIFOStrategy] return, errors included, and every push goes to
    sub-queue 0. *)
Theorem RoundRobin_with_one_queue_is_FIFO (T : Type) (ops : list (op T)) :
  @new_RoundRobinStrategy T 1 = Ok (mkRoundRobin [[]] 0) /\
  snd (RoundRobin_run ops (mkRoundRobin [[]] 0)) = FIFO_run ops [] /\
  Forall (fun i => i = 0%nat)
         (fst (RoundRobin_run ops (mkRoundRobin [[]] 0))).
Proof. split; [reflexivity|apply RoundRobin_one_run]. Qed.

Lemma concat_replicate_nil {T : Type} (n : nat) :
  concat (replicate n (@nil T)) = [].
Proof. induction n; simpl; auto. Qed.

(** X23.  The factory creates the strategy it is asked for, empty.
    [create] throws [invalid_argument] only for [ROUND_ROBIN] with no
    sub-queue; every other call returns a strategy that holds no item, whose
    [name()] is the string [type_to_string] gives for the type, and which for
    [ROUND_ROBIN] has the number of sub-queues asked for.
    [get_all_types] lists every type once. *)
Theorem the_factory_creates_the_strategy_asked_for (T : Type)
  (type : QueueType) (round_robin_queues : nat) (rd heap : nat -> nat) :
  (@create T type round_robin_queues rd heap = Throw invalid_argument <->
   type = ROUND_ROBIN /\ round_robin_queues = 0%nat) /\
  (forall s,
      @create T type round_robin_queues rd heap = Ok s ->
      QueueStrategy_name s = type_to_string type /\
      contents s = [] /\ QueueStrategy_size s = 0%nat /\
      QueueStrategy_empty s = true /\
      QueueStrategy_pop s = Throw runtime_error /\
      well_formed s /\
      (type = ROUND_ROBIN -> sub_queue_count s = round_robin_queues)) /\
  type ∈ get_all_types /\ NoDup get_all_types.
Proof.
  split; [|split; [|split]].
  - destruct type; simpl; try (split; [discriminate|intros [? _]; discriminate]).
    unfold new_RoundRobinStrategy.
    destruct round_robin_queues; simpl; split; auto; try discriminate.
    intros [_ ?]. discriminate.
  - intros s Hs.
    assert (Hm : QueueStrategy_name s = type_to_string type /\
                 contents s = [] /\ well_formed s /\
                 (type = ROUND_ROBIN -> sub_queue_count s = round_robin_queues)).
    { destruct type; simpl in Hs; try (injection Hs as <-; simpl; auto;
                                        repeat split; auto; discriminate).
      unfold new_RoundRobinStrategy in Hs.
      destruct round_robin_queues as [|k]; [discriminate|].
      injection Hs as <-. simpl. rewrite concat_replicate_nil, length_replicate.
      repeat split; auto. lia. }
    destruct Hm as (H1 & H2 & H3 & H4).
    destruct (strategy_measures s) as [Hsize Hempty].
    rewrite H2 in Hsize. simpl in Hsize.
    split; [exact H1|]. split; [exact H2|]. split; [exact Hsize|].
    split; [now apply Hempty|]. split; [now apply strategy_pop_empty|]. auto.
  - unfold get_all_types. rewrite !elem_of_cons. destruct type; auto 6.
  - unfold get_all_types.
    repeat (apply NoDup_cons; split;
            [rewrite ?elem_of_cons, elem_of_nil; intuition discriminate|]).
    apply NoDup_nil_2.
Qed.

(** X24.  [string_to_queue_type] of the test harness inverts
    [type_to_string]: it maps the name of every type back to the type.  It
    also knows the aliases ["RAND"] and ["RoundRobin"], and maps every other
    string to [FIFO] without an error. *)
Theorem string_to_queue_type_inverts_type_to_string
  (type : QueueType) (str : string) :
  string_to_queue_type (type_to_string type) = type /\
  (string_to_queue_type str = LIFO <-> str = "LIFO") /\
  (string_to_queue_type str = RANDOM <-> str = "RANDOM" \/ str = "RAND") /\
  (string_to_queue_type str = PRIORITY <-> str = "PRIORITY") /\
  (string_to_queue_type str = ROUND_ROBIN <->
   str = "ROUND_ROBIN" \/ str = "RoundRobin") /\
  (string_to_queue_type str = FIFO <->
   str <> "LIFO" /\ str <> "RANDOM" /\ str <> "RAND" /\ str <> "PRIORITY" /\
   str <> "ROUND_ROBIN" /\ str <> "RoundRobin").
Proof.
  split; [now destruct type|].
  unfold string_to_queue_type.
  destruct (String.eqb_spec str "FIFO") as [->|H1];
    [repeat split; intros; try discriminate; intuition discriminate|].
  destruct (String.eqb_spec str "LIFO") as [->|H2];
    [repeat split; intros; try discriminate; intuition discriminate|].
  destruct (String.eqb_spec str "RANDOM") as [->|H3];
    [repeat split; intros; try discriminate; intuition discriminate|].
  destruct (String.eqb_spec str "RAND") as [->|H4];
    [repeat split; intros; try discriminate; intuition discriminate|].
  destruct (String.eqb_spec str "PRIORITY") as [->|H5];
    [repeat split; intros; try discriminate; intuition discriminate|].
  destruct (String.eqb_spec str "ROUND_ROBIN") as [->|H6];
    [repeat split; intros; try discriminate; intuition discriminate|].
  destruct (String.eqb_spec str "RoundRobin") as [->|H7];
    [repeat split; intros; try discriminate; intuition discriminate|].
  simpl. repeat split; intros; try discriminate; intuition congruence.
Qed.

(** X25.  [clone()] copies the discipline, not the items.  The clone of a
    strategy is an empty strategy of the same class: [name()] is the same,
    [size()] is 0, and a round-robin clone has as many sub-queues as the
    original, its cursor back at the first one.  Cloning a well-formed
    strategy never throws. *)
Theorem a_clone_is_an_empty_strategy_of_the_same_class (T : Type)
  (s : QueueStrategy T) (rd heap : nat -> nat) :
  well_formed s ->
  exists s',
    QueueStrategy_clone s rd heap = Ok s' /\
    contents s' = [] /\ QueueStrategy_size s' = 0%nat /\
    QueueStrategy_name s' = QueueStrategy_name s /\
    well_formed s' /\ sub_queue_count s' = sub_queue_count s.
Proof.
  intros Hw.
  assert (H : exists s',
             QueueStrategy_clone s rd heap = Ok s' /\ contents s' = [] /\
             QueueStrategy_name s' = QueueStrategy_name s /\
             well_formed s' /\ sub_queue_count s' = sub_queue_count s).
  { destruct s as [q|q|q|q|q]; simpl in *;
      try (eexists; split; [reflexivity|]; simpl; now auto).
    unfold RoundRobin_clone, new_RoundRobinStrategy.
    destruct (length (queues_ q)) as [|k] eqn:E; [lia|]. simpl.
    eexists; split; [reflexivity|]. simpl.
    rewrite concat_replicate_nil, length_replicate. repeat split; auto. lia. }
  destruct H as (s' & H1 & H2 & H3 & H4 & H5). exists s'.
  destruct (strategy_measures s') as [Hsize _]. rewrite H2 in Hsize.
  auto 10.
Qed.

Lemma a_clone_is_an_empty_strategy_of_the_same_class_witness :
  exists s',
    QueueStrategy_clone two_queues (fun n => n) (fun n => n) = Ok s' /\
    contents s' = [] /\ QueueStrategy_size s' = 0%nat /\
    QueueStrategy_name s' = QueueStrategy_name two_queues /\
    well_formed s' /\ sub_queue_count s' = sub_queue_count two_queues.
Proof.
  apply (a_clone_is_an_empty_strategy_of_the_same_class nat two_queues).
  simpl. lia.
Defined.

Lemma erlang_loop_sum (n : nat) (sum : Q) (s : Source) :
  (fst (erlang_loop n sum s)
   == sum + Qsum (map (draws s) (seq (used s) n)))%Q /\
  snd (erlang_loop n sum s) = advance n s.
Proof.
  revert sum s. induction n as [|n IH]; intros sum s.
  - simpl. split; [lra|]. unfold advance. rewrite Nat.add_0_r. now destruct s.
  - cbn [erlang_loop]. unfold draw.
    destruct (IH (sum + draws s (used s))%Q
                (mkSource (draws s) (S (used s)))) as [H1 H2].
    rewrite H1, H2. cbn [draws used seq map Qsum fold_right]. split.
    + unfold Qsum. lra.
    + unfold advance. simpl. f_equal. lia.
Qed.

(** X26.  [ErlangGenerator::generate] returns the sum of the next [k_] values
    of its exponential distribution and advances its engine by [k_] draws;
    with [k_ = 1] it returns what an [ExponentialGenerator] on the same
    engine returns.  Its [mean()] and [variance()] are [k_] times those of
    the exponential generator of the same rate. *)
Theorem Erlang_adds_up_k_exponential_draws (k : Z) (lambda : Q) (s : Source) :
  (fst (generate (ErlangGenerator k lambda s))
   == Qsum (map (draws s) (seq (used s) (Z.to_nat k))))%Q /\
  snd (generate (ErlangGenerator k lambda s))
  = ErlangGenerator k lambda (advance (Z.to_nat k) s) /\
  (fst (generate (ErlangGenerator 1 lambda s))
   == fst (generate (ExponentialGenerator lambda s)))%Q /\
  (mean (ErlangGenerator k lambda s)
   == inject_Z k * mean (ExponentialGenerator lambda s))%Q /\
  (variance (ErlangGenerator k lambda s)
   == inject_Z k * variance (ExponentialGenerator lambda s))%Q.
Proof.
  simpl generate.
  destruct (erlang_loop_sum (Z.to_nat k) 0 s) as [H1 H2].
  destruct (erlang_loop (Z.to_nat k) 0 s) as [x s'] eqn:E. simpl in *.
  split; [rewrite H1; lra|]. split; [now rewrite H2|].
  split; [unfold draw; simpl; lra|].
  unfold Qdiv. split; lra.
Qed.

Lemma valid_constructed :
  (forall lambda rd g, new_ExponentialGenerator lambda rd = Ok g -> valid g) /\
  (forall a b rd g, new_UniformGenerator a b rd = Ok g -> valid g) /\
  (forall v g, new_DeterministicGenerator v = Ok g -> valid g) /\
  (forall k lambda rd g, new_ErlangGenerator k lambda rd = Ok g -> valid g).
Proof.
  repeat split.
  - intros lambda rd g.
    destruct (new_ExponentialGenerator_cases lambda rd) as [[_ ->]|[H ->]];
      [discriminate|now intros [= <-]].
  - intros a b rd g.
    destruct (new_UniformGenerator_cases a b rd) as [[_ ->]|[H ->]];
      [discriminate|now intros [= <-]].
  - now intros v g [= <-].
  - intros k lambda rd g.
    destruct (new_ErlangGenerator_cases k lambda rd) as [[_ ->]|[H ->]];
      [discriminate|now intros [= <-]].
Qed.

Lemma valid_generate (g : RandomGenerator) :
  valid g -> valid (snd (generate g)).
Proof.
  destruct g as [l s|a b s|v|k l s]; simpl; auto.
  - destruct (erlang_loop (Z.to_nat k) 0 s). auto.
Qed.

(** X28.  A clone continues the stream of the original.  For a generator whose
    parameters pass the checks of its constructor, [clone()] does not throw,
    and the clone has the class, the parameters and the engine state of the
    original (the fresh seed is overwritten), so that both return the same
    values from then on, independently of each other. *)
Theorem a_cloned_generator_continues_the_same_stream
  (g : RandomGenerator) (rd : nat -> Q) :
  valid g ->
  clone g rd = Ok g /\
  forall g', clone g rd = Ok g' -> forall n, samples n g' = samples n g.
Proof.
  intros Hv.
  assert (H : clone g rd = Ok g).
  { destruct g as [l s|a b s|v|k l s]; simpl in *.
    - destruct (new_ExponentialGenerator_cases l rd) as [[H _]|[_ ->]];
        [lra|reflexivity].
    - destruct (new_UniformGenerator_cases a b rd) as [[H _]|[_ ->]];
        [lra|reflexivity].
    - reflexivity.
    - destruct (new_ErlangGenerator_cases k l rd) as [[[H|H] _]|[_ ->]];
        [lia|lra|reflexivity]. }
  split; [exact H|]. intros g' Hg'. rewrite H in Hg'. now injection Hg' as <-.
Qed.

Lemma a_cloned_generator_continues_the_same_stream_witness :
  clone (ErlangGenerator 2 2 (mkSource (fun n => inject_Z (Z.of_nat n)) 3))
        (fun _ => 0%Q)
  = Ok (ErlangGenerator 2 2 (mkSource (fun n => inject_Z (Z.of_nat n)) 3)) /\
  forall g',
    clone (ErlangGenerator 2 2 (mkSource (fun n => inject_Z (Z.of_nat n)) 3))
          (fun _ => 0%Q) = Ok g' ->
    forall n,
      samples n g'
      = samples n (ErlangGenerator 2 2
                     (mkSource (fun n => inject_Z (Z.of_nat n)) 3)).
Proof.
  apply (a_cloned_generator_continues_the_same_stream
           (ErlangGenerator 2 2 (mkSource (fun n => inject_Z (Z.of_nat n)) 3))).
  split; reflexivity.
Defined.

Lemma create_exponential_Ok (lambda : Q) (rd : nat -> Q) :
  (0 < lambda)%Q ->
  create_exponential lambda rd = Ok (ExponentialGenerator lambda (seed rd)).
Proof.
  intros H. unfold create_exponential.
  destruct (new_ExponentialGenerator_cases lambda rd) as [[H' _]|[_ ->]];
    [lra|reflexivity].
Qed.

(** X29.  [get_all_distributions(lambda)] throws [invalid_argument] when
    [lambda <= 0]; otherwise it returns five configurations with valid
    generators, Poisson arrivals of rate [lambda] and a declared mean service
    time of 1.  The service generator has the declared mean in the first
    four (exponential, uniform, deterministic, Erlang), with variances 1,
    1/12, 0 and 1/2; in the fifth, named hyper-exponential, it is an
    exponential generator of rate 3/2 whose mean is 2/3, not the 1
    declared. *)
Theorem the_test_distributions_share_their_mean_but_for_the_last
  (lambda : Q) (rd : nat -> nat -> Q) :
  ((lambda <= 0)%Q -> get_all_distributions lambda rd = Throw invalid_argument) /\
  ((0 < lambda)%Q ->
   exists c1 c2 c3 c4 c5,
     get_all_distributions lambda rd = Ok [c1; c2; c3; c4; c5] /\
     Forall (well_configured lambda) [c1; c2; c3; c4; c5] /\
     Forall mean_as_declared [c1; c2; c3; c4] /\
     (variance (service_gen c1) == 1)%Q /\
     (variance (service_gen c2) == 1 # 12)%Q /\
     (variance (service_gen c3) == 0)%Q /\
     (variance (service_gen c4) == 1 # 2)%Q /\
     service_gen c5 = ExponentialGenerator (3 # 2) (seed (rd 8%nat)) /\
     (mean (service_gen c5) == 2 # 3)%Q /\ ~ mean_as_declared c5) /\
  ((0 < lambda)%Q ->
   exists c, get_exponential lambda rd = Ok c /\
             well_configured lambda c /\ mean_as_declared c).
Proof.
  split; [|split].
  - intros H. unfold get_all_distributions, create_exponential.
    destruct (new_ExponentialGenerator_cases lambda (rd 0%nat))
      as [[_ ->]|[H' _]]; [reflexivity|lra].
  - intros H. unfold get_all_distributions.
    rewrite !(create_exponential_Ok lambda) by exact H.
    cbn [bind].
    do 5 eexists. split; [reflexivity|].
    assert (Ha : (1 / lambda == 1 / lambda)%Q) by reflexivity.
    split; [|split].
    + repeat constructor; simpl; auto; try reflexivity; try lia.
    + repeat constructor; unfold mean_as_declared; simpl; reflexivity.
    + repeat split; try reflexivity. unfold mean_as_declared. simpl.
      intros E. apply Qeq_bool_iff in E. discriminate.
  - intros H. unfold get_exponential.
    rewrite (create_exponential_Ok lambda) by exact H. cbn [bind].
    eexists. split; [reflexivity|].
    split; [|unfold mean_as_declared; simpl; reflexivity].
    repeat split; simpl; auto; reflexivity.
Qed.

(* ===================================================================== *)
(** * What [generate] returns                                               *)
(* ===================================================================== *)







(* ===================================================================== *)
(** * A negative buffer capacity                                            *)
(* ===================================================================== *)

Lemma consistent_with_capacity (c : Z) (s : Simulator) :
  consistent s -> consistent (with_capacity c s).
Proof.
  intros [B1 B2 B3 B4 B5 B6 B7 B8 B9 B10 B11 B12 B13].
  constructor; assumption.
Qed.

Lemma popped_with_capacity (c : Z) (e : Event) (s : Simulator) :
  popped e (with_capacity c s) = with_capacity c (popped e s).
Proof.
  unfold popped, update_busy_statistics. simpl.
  destruct (Qlt_bool (last_busy_check_time_ s) (time e)); reflexivity.
Qed.

Lemma buffer_full_zero (s : Simulator) :
  buffer_capacity_ s = 0%Z -> job_queue_ s = [] -> buffer_full s = true.
Proof. intros Hc Hq. unfold buffer_full. now rewrite Hc, Hq. Qed.

(** One iteration of the loop does the same with a negative capacity as with
    capacity 0. *)
Lemma loop_body_with_capacity (s s' : Simulator) :
  consistent s ->
  (buffer_capacity_ s < 0)%Z -> buffer_capacity_ s <> (-1)%Z ->
  job_queue_ s = [] ->
  loop_body s = Ok s' ->
  loop_body (with_capacity 0 s) = Ok (with_capacity 0 s').
Proof.
  intros B Hneg Hne Hq Hs.
  destruct (loop_body_handled _ _ B Hs) as (e & He & Hh).
  assert (Hfull : buffer_full (popped e s) = true).
  { rewrite popped_buffer_full. now apply buffer_full_negative. }
  assert (Hpq : job_queue_ (popped e s) = []).
  { destruct (popped_frame e s)
      as (H1&H2&H3&H4&H5&H6&H7&H8&H9&H10&H11&H12&H13&H14&H15&H16).
    congruence. }
  pose proof (consistent_with_capacity 0 s B) as B0.
  assert (Hne0 : pq_empty (event_queue_ (with_capacity 0 s)) = false).
  { simpl. destruct (pq_empty (event_queue_ s)) eqn:E; [|reflexivity].
    rewrite (pq_top_empty _ _ E) in He. discriminate. }
  destruct (loop_body_consistent _ B0 Hne0) as (z' & e0 & Hz & _ & He0 & _).
  destruct (loop_body_handled _ _ B0 Hz) as (e1 & He1 & Hh1).
  simpl in He0, He1.
  assert (e1 = e) by congruence. subst e1.
  rewrite popped_with_capacity in Hh1.
  rewrite Hz. f_equal.
  assert (Hfull0 : buffer_full (with_capacity 0 (popped e s)) = true)
    by (apply buffer_full_zero; [reflexivity|exact Hpq]).
  inversion Hh as [A1 A2 A3 A4 A5|A1 A2 A3 A4 A5|A1 A2 A3 A4 A5
                  |job A1 A2 A3 A4 A5 A6|job head waiting q A1 A2 A3 A4 A5];
    inversion Hh1 as [C1 C2 C3 C4 C5|C1 C2 C3 C4 C5|C1 C2 C3 C4 C5
                     |job1 C1 C2 C3 C4 C5 C6
                     |job1 head1 waiting1 q1 C1 C2 C3 C4 C5];
    simpl in *; try congruence; try reflexivity;
    try (change (find_free_core (with_capacity 0 (popped e s)))
           with (find_free_core (popped e s)) in *; lia).
  replace job1 with job by congruence. reflexivity.
Qed.

Lemma main_loop_with_capacity (continue : Simulator -> bool) (fuel : nat)
  (s s' : Simulator) :
  (forall s, continue (with_capacity 0 s) = continue s) ->
  consistent s ->
  (buffer_capacity_ s < 0)%Z -> buffer_capacity_ s <> (-1)%Z ->
  job_queue_ s = [] ->
  main_loop continue fuel s = Ok s' ->
  main_loop continue fuel (with_capacity 0 s) = Ok (with_capacity 0 s').
Proof.
  intros Hcont. revert s.
  induction fuel as [|fuel IH]; intros s B Hneg Hne Hq; simpl; rewrite Hcont.
  - destruct (negb (pq_empty (event_queue_ s)) && continue s);
      intros [= <-]; reflexivity.
  - destruct (negb (pq_empty (event_queue_ s)) && continue s) eqn:E;
      [|intros [= <-]; reflexivity].
    apply andb_true_iff in E as [E _]. apply negb_true_iff in E.
    destruct (loop_body_consistent s B E) as (s1 & e & Hs1 & B1 & _ & _).
    rewrite Hs1, (loop_body_with_capacity s s1 B Hneg Hne Hq Hs1). simpl.
    destruct (loop_body_losses _ _ Hs1) as (Hc & Hcase).
    apply IH; [exact B1|congruence|congruence|].
    destruct Hcase as [(_ & [G|G])|[(_ & _ & G)|(G1 & _)]].
    + congruence.
    + rewrite G, Hq. reflexivity.
    + congruence.
    + rewrite buffer_full_negative in G1; [discriminate|lia|exact Hne|exact Hq].
Qed.

Lemma start_with_capacity (c : Z) (s : Simulator) :
  schedule_next_arrival (initialize (with_capacity c s))
  = with_capacity c (schedule_next_arrival (initialize s)).
Proof.
  unfold schedule_next_arrival. simpl.
  destruct (generate (arrival_generator_ s)). reflexivity.
Qed.

Lemma final_with_capacity (c : Z) (s : Simulator) :
  update_busy_statistics (with_capacity c s)
  = with_capacity c (update_busy_statistics s).
Proof.
  unfold update_busy_statistics. simpl.
  destruct (Qlt_bool (last_busy_check_time_ s) (current_time_ s)); reflexivity.
Qed.

(** A run with a negative capacity is, state by state, the run with capacity
    0. *)
Lemma runs_with_capacity (s0 : Simulator) :
  configured s0 ->
  (buffer_capacity_ s0 < 0)%Z -> buffer_capacity_ s0 <> (-1)%Z ->
  (forall T s, run T s0 = Ok s ->
               run T (with_capacity 0 s0) = Ok (with_capacity 0 s)) /\
  (forall K s, run_until_jobs K s0 = Ok s ->
               run_until_jobs K (with_capacity 0 s0) = Ok (with_capacity 0 s)).
Proof.
  intros Hc Hneg Hne.
  pose proof (consistent_start s0 Hc) as B.
  destruct (boundary_negative_capacity s0 _ Hneg Hne (boundary_start s0))
    as [Hcap Hq].
  split.
  - intros T s. unfold run. rewrite start_with_capacity.
    generalize (Z.to_nat MAX_ITERATIONS). intros n.
    destruct (main_loop _ _ (schedule_next_arrival (initialize s0)))
      as [s1|] eqn:E; [|discriminate].
    simpl. intros [= <-].
    rewrite (main_loop_with_capacity _ _ _ s1); auto; try congruence.
    simpl. now rewrite final_with_capacity.
  - intros K s. unfold run_until_jobs. rewrite start_with_capacity.
    generalize (Z.to_nat MAX_ITERATIONS). intros n.
    destruct (main_loop _ _ (schedule_next_arrival (initialize s0)))
      as [s1|] eqn:E; [|discriminate].
    simpl. intros [= <-].
    rewrite (main_loop_with_capacity _ _ _ s1); auto; try congruence.
    simpl. now rewrite final_with_capacity.
Qed.

Lemma consistent_lost_when_busy (s : Simulator) :
  consistent s -> regular s -> job_queue_ s = [] -> lost_when_busy s.
Proof.
  intros B R Hq. split; [apply (rg_arrivals _ R)|].
  pose proof (bk_counters _ _ B) as H1.
  pose proof (bk_size _ _ B) as H2.
  pose proof (bk_busy_count _ _ B) as H3.
  rewrite Hq in H2. simpl in H2.
  unfold jobs_lost, total_arrivals, jobs_completed. lia.
Qed.

Lemma lost_when_busy_final (s : Simulator) :
  lost_when_busy s -> lost_when_busy (update_busy_statistics s).
Proof.
  unfold lost_when_busy, jobs_lost, total_arrivals, jobs_completed,
    count_busy_cores.
  destruct (update_busy_statistics_frame s)
    as (H1&H2&H3&H4&H5&H6&H7&H8&H9&H10&H11&H12&H13&H14&H15&H16).
  now rewrite H2, H3, H5, H12, H16.
Qed.

Lemma boundary_no_buffer (s0 s : Simulator) :
  configured s0 ->
  (buffer_capacity_ s0 < 0)%Z -> buffer_capacity_ s0 <> (-1)%Z ->
  boundary s0 s -> no_buffer s.
Proof.
  intros Hcf Hneg Hne Hb.
  destruct (boundary_negative_capacity _ _ Hneg Hne Hb) as [Hc Hq].
  pose proof (boundary_consistent _ _ Hcf Hb) as B.
  assert (Hfull : buffer_full s = true)
    by (apply buffer_full_negative; congruence).
  split; [exact Hfull|]. split; [exact Hq|]. split.
  { unfold queue_length. now rewrite Hq. }
  split.
  { apply consistent_lost_when_busy; auto. now apply (boundary_regular s0). }
  intros e He Ht Hfree.
  assert (Hne0 : pq_empty (event_queue_ s) = false).
  { destruct (pq_empty (event_queue_ s)) eqn:E; [|reflexivity].
    rewrite (pq_top_empty _ _ E) in He. discriminate. }
  destruct (loop_body_consistent s B Hne0) as (s' & e0 & Hs & _ & He0 & _).
  assert (e0 = e) by congruence. subst e0.
  exists s'. split; [exact Hs|].
  destruct (loop_body_outcome _ _ Hs) as (e' & He' & _ & _ & _ & _ & Hp).
  assert (e' = e) by congruence. subst e'. rewrite Ht in Hp.
  destruct (process_arrival_cases _ _ Hp)
    as [(G & _)|[(_ & _ & ->)|(_ & G & _)]].
  - rewrite popped_find_free_core in G. contradiction.
  - destruct (popped_frame e s)
      as (H1&H2&H3&H4&H5&H6&H7&H8&H9&H10&H11&H12&H13&H14&H15&H16).
    unfold jobs_lost, total_arrivals, count_busy_cores, queue_length. simpl.
    rewrite H3, H5, H11, H12, Hq. auto.
  - rewrite popped_buffer_full in G. congruence.
Qed.

(** C10.  A negative buffer capacity other than -1 is accepted by the
    constructor (given a positive number of cores), and the simulator then
    behaves as with capacity 0.  At every event boundary [buffer_full] is
    true and the buffer is empty; every arrival is counted and each one that
    finds no core free is counted as lost, so that the lost jobs are the
    arrivals less the jobs completed or in service; and every run returns
    the state the same run of the simulator constructed with capacity 0
    returns, the capacity itself apart. *)
Theorem negative_capacity_behaves_as_zero
  (ag sg : RandomGenerator) (num_cores buffer_cap : Z) (heap : nat -> nat) :
  (0 < num_cores)%Z -> (buffer_cap < 0)%Z -> buffer_cap <> (-1)%Z ->
  exists s0 z0,
    new_Simulator ag sg num_cores buffer_cap heap = Ok s0 /\
    new_Simulator ag sg num_cores 0 heap = Ok z0 /\
    (forall s, boundary s0 s -> no_buffer s) /\
    (forall T, exists s,
        run T s0 = Ok s /\ run T z0 = Ok (with_capacity 0 s) /\
        buffer_full s = true /\ queue_length s = 0%Z /\ lost_when_busy s) /\
    (forall K, exists s,
        run_until_jobs K s0 = Ok s /\
        run_until_jobs K z0 = Ok (with_capacity 0 s) /\
        buffer_full s = true /\ queue_length s = 0%Z /\ lost_when_busy s).
Proof.
  intros Hn Hneg Hne.
  destruct (new_Simulator_cases ag sg num_cores buffer_cap heap)
    as [[H _]|[_ Hs0]]; [lia|].
  destruct (new_Simulator_cases ag sg num_cores 0 heap)
    as [[H _]|[_ Hz0]]; [lia|].
  eexists. eexists. split; [exact Hs0|]. split; [exact Hz0|].
  pose proof (new_Simulator_configured _ _ _ _ _ _ Hs0) as Hc.
  match type of Hc with configured ?x => set (s0 := x) in * end.
  assert (Hcap : buffer_capacity_ s0 = buffer_cap) by reflexivity.
  destruct (runs_with_capacity s0 Hc) as [Hrun Hjobs]; [lia|congruence|].
  assert (Hfinal : forall s, boundary s0 s ->
            buffer_full (update_busy_statistics s) = true /\
            queue_length (update_busy_statistics s) = 0%Z /\
            lost_when_busy (update_busy_statistics s)).
  { intros s Hb.
    destruct (boundary_no_buffer s0 s) as (G1 & G2 & G3 & G4 & _);
      [exact Hc|lia|congruence|exact Hb|].
    split; [|split; [|now apply lost_when_busy_final]].
    - unfold buffer_full in *.
      destruct (update_busy_statistics_frame s)
        as (H1&H2&H3&H4&H5&H6&H7&H8&H9&H10&H11&H12&H13&H14&H15&H16).
      now rewrite H9, H11.
    - unfold queue_length in *.
      destruct (update_busy_statistics_frame s)
        as (H1&H2&H3&H4&H5&H6&H7&H8&H9&H10&H11&H12&H13&H14&H15&H16).
      now rewrite H11. }
  split; [|split].
  - intros s Hb.
    apply (boundary_no_buffer s0); [exact Hc|lia|congruence|exact Hb].
  - intros T. destruct (run_boundary T s0 Hc) as (s & Hb & Hr & _).
    exists (update_busy_statistics s). split; [exact Hr|].
    split; [exact (Hrun T _ Hr)|]. now apply Hfinal.
  - intros K. destruct (run_until_jobs_boundary K s0 Hc) as (s & Hb & Hr & _).
    exists (update_busy_statistics s). split; [exact Hr|].
    split; [exact (Hjobs K _ Hr)|]. now apply Hfinal.
Qed.

(** Once the loop has stopped of itself, more iterations change nothing. *)
Lemma main_loop_enough (continue : Simulator -> bool) (n m : nat)
  (s s' : Simulator) :
  main_loop continue n s = Ok s' ->
  negb (pq_empty (event_queue_ s')) && continue s' = false ->
  main_loop continue (n + m) s = Ok s'.
Proof.
  revert s. induction n as [|n IH]; intros s; simpl.
  - destruct (negb (pq_empty (event_queue_ s)) && continue s) eqn:E;
      intros [= <-] Hstop; [congruence|].
    destruct m; simpl; now rewrite E.
  - destruct (negb (pq_empty (event_queue_ s)) && continue s) eqn:E;
      [|intros [= <-] _; reflexivity].
    destruct (loop_body s) as [s1|]; [|discriminate]. simpl. apply IH.
Qed.

(** [run 10] of [negative_engine]: ten arrivals, of which two jobs were
    completed, seven were lost and one is in service; none is buffered. *)
Lemma negative_engine_run :
  observe (run 10 negative_engine) = Some (10, 2, 7, 1, 1, 0)%Z.
Proof.
  set (start := schedule_next_arrival (initialize negative_engine)).
  set (continue := fun s => Qlt_bool (current_time_ s) 10).
  assert (Hobs : on_result
                   (fun s => (negb (pq_empty (event_queue_ s)) && continue s,
                              observe (Ok (update_busy_statistics s))))
                   (main_loop continue 20 start)
                 = Some (false, Some (10, 2, 7, 1, 1, 0)%Z))
    by (vm_compute; reflexivity).
  destruct (main_loop continue 20 start) as [s1|] eqn:Hs1; [|discriminate].
  cbn [on_result] in Hobs. injection Hobs as Hstop G1 G2 G3 G4 G5 G6.
  unfold run. fold start. fold continue.
  assert (Hfuel : exists m, Z.to_nat MAX_ITERATIONS = (20 + m)%nat).
  { exists (Z.to_nat (MAX_ITERATIONS - 20)). unfold MAX_ITERATIONS. lia. }
  destruct Hfuel as [m ->].
  rewrite (main_loop_enough continue 20 m start s1 Hs1 Hstop).
  change (Some (total_arrivals (update_busy_statistics s1),
                jobs_completed (update_busy_statistics s1),
                jobs_lost (update_busy_statistics s1),
                jobs_in_system (update_busy_statistics s1),
                count_busy_cores (update_busy_statistics s1),
                queue_length (update_busy_statistics s1))
          = Some (10, 2, 7, 1, 1, 0)%Z).
  now rewrite G1, G2, G3, G4, G5, G6.
Qed.

Lemma negative_capacity_behaves_as_zero_witness :
  (exists s0 z0,
    new_Simulator (DeterministicGenerator 1) (DeterministicGenerator 3) 1 (-5)
                  (fun n => n) = Ok s0 /\
    new_Simulator (DeterministicGenerator 1) (DeterministicGenerator 3) 1 0
                  (fun n => n) = Ok z0 /\
    (forall s, boundary s0 s -> no_buffer s) /\
    (forall T, exists s,
        run T s0 = Ok s /\ run T z0 = Ok (with_capacity 0 s) /\
        buffer_full s = true /\ queue_length s = 0%Z /\ lost_when_busy s) /\
    (forall K, exists s,
        run_until_jobs K s0 = Ok s /\
        run_until_jobs K z0 = Ok (with_capacity 0 s) /\
        buffer_full s = true /\ queue_length s = 0%Z /\ lost_when_busy s)) /\
  new_Simulator (DeterministicGenerator 1) (DeterministicGenerator 3) 1 (-5)
                (fun n => n) = Ok negative_engine /\
  observe (run 10 negative_engine) = Some (10, 2, 7, 1, 1, 0)%Z.
Proof.
  split; [|split; [reflexivity|exact negative_engine_run]].
  apply negative_capacity_behaves_as_zero;
    [reflexivity|reflexivity|discriminate].
Defined.

(* ===================================================================== *)
(** * Magnitudes                                                            *)
(* ===================================================================== *)

Lemma scale_positive : (0 < scale)%Q.
Proof. reflexivity. Qed.

Lemma reach_S (n : nat) : (reach (S n) == reach n + scale)%Q.
Proof.
  unfold reach. rewrite Nat2Z.inj_succ. unfold Z.succ.
  rewrite inject_Z_plus. ring.
Qed.

Lemma reach_0 : (reach 0 == 0)%Q.
Proof. unfold reach. simpl. ring. Qed.

Lemma reach_mono (n m : nat) : (n <= m)%nat -> (reach n <= reach m)%Q.
Proof.
  intros H. unfold reach. apply Qmult_le_compat_r.
  - rewrite <- Zle_Qle. lia.
  - apply Qlt_le_weak, scale_positive.
Qed.

Lemma reach_cap (n : nat) :
  (Z.of_nat n <= MAX_ITERATIONS)%Z -> (reach (S n) <= inject_Z (2 ^ 987))%Q.
Proof.
  intros H. unfold reach, scale. rewrite <- inject_Z_mult, <- Zle_Qle.
  unfold MAX_ITERATIONS in H.
  replace (2 ^ 987)%Z with (2 ^ 27 * 2 ^ 960)%Z
    by (rewrite <- Z.pow_add_r by lia; reflexivity).
  apply Z.mul_le_mono_nonneg_r; [apply Z.pow_nonneg; lia|].
  change (2 ^ 27)%Z with 134217728%Z. lia.
Qed.

Lemma moderate_generate (g : RandomGenerator) :
  moderate g ->
  within scale (fst (generate g)) /\ moderate (snd (generate g)).
Proof.
  intros H. split.
  - specialize (H 1%nat). simpl in H.
    destruct (generate g) as [x g']. now apply Forall_cons in H as [H _].
  - intros n. specialize (H (S n)). simpl in H.
    destruct (generate g) as [x g']. now apply Forall_cons in H as [_ H].
Qed.

Lemma moderate_Deterministic (v : Q) :
  within scale v -> moderate (DeterministicGenerator v).
Proof.
  intros H n. induction n as [|n IH]; simpl; constructor; auto.
Qed.

Lemma within_weaken (a b x : Q) : (a <= b)%Q -> within a x -> within b x.
Proof. unfold within. intros H [H1 H2]. split; lra. Qed.

Lemma on_scale_start (s0 : Simulator) :
  moderate (arrival_generator_ s0) ->
  moderate (service_generator_ s0) ->
  on_scale (schedule_next_arrival (initialize s0)).
Proof.
  intros Ha Hs. destruct (moderate_generate _ Ha) as [Hx Hg].
  unfold schedule_next_arrival.
  change (arrival_generator_ (initialize s0)) with (arrival_generator_ s0).
  destruct (generate (arrival_generator_ s0)) as [x g]. simpl in *.
  pose proof reach_0 as R0. pose proof (reach_S 0) as R1.
  constructor; simpl; auto.
  - unfold within. lra.
  - intros e He. apply list_elem_of_singleton in He as ->. simpl.
    unfold within in *. lra.
  - intros e He. inversion He.
  - intros k j Hk. now rewrite lookup_empty in Hk.
Qed.

Lemma on_scale_step (s s' : Simulator) (e : Event) :
  on_scale s ->
  pq_top Event_gt (event_queue_ s) = Some e ->
  handled e (popped e s) s' -> on_scale s'.
Proof.
  intros [Sa Ss Sc Sp Sh Ssv] He Hh.
  destruct (Event_top_least _ _ He) as [HP _].
  popped_fields e s.
  assert (Hin : e ∈ elems (event_queue_ s)) by (rewrite HP; left).
  pose proof (Sp e Hin) as Hle.
  set (n := length (history_ s)) in *.
  assert (Hlen : length (history_ s ++ [e]) = S n)
    by (rewrite length_app; simpl; lia).
  pose proof (reach_S n) as R1. pose proof (reach_S (S n)) as R2.
  pose proof scale_positive as Hpos.
  assert (Hrest : forall e', e' ∈ elems (event_queue_ (popped e s)) ->
                             within (reach (S (S n))) (time e')).
  { intros e' He'. apply (within_weaken (reach (S n))); [lra|].
    apply Sp. rewrite Pqueue in He'. rewrite HP. now right. }
  assert (Hhist : forall e', e' ∈ history_ s ++ [e] ->
                             within (reach (S n)) (time e')).
  { intros e' He'. apply elem_of_app in He' as [He'|He'].
    - apply (within_weaken (reach n)); [lra|]. now apply Sh.
    - now apply list_elem_of_singleton in He' as ->. }
  rewrite <- Pag in Sa. rewrite <- Psg in Ss. rewrite <- Ptable in Ssv.
  destruct (moderate_generate _ Sa) as [Hia Sa'].
  destruct (moderate_generate _ Ss) as [Hst Ss'].
  assert (Hnew : forall x, within scale x ->
                           within (reach (S (S n))) (time e + x)).
  { intros x Hx. unfold within in *. lra. }
  destruct Hh as [Et Hr Hfree Hfresh|Et Hc Hf Hfresh|Et Hc Hf Hfresh
                 |job Et Hjob Hr Hbusy Hq
                 |job head waiting q Et Hjob Hr Hbusy Hq Hw Hne Hid];
    constructor; simpl; rewrite ?Pclock, ?Phistory, ?Hlen; auto.
  all: try (intros e' He';
            rewrite ?elem_of_app, ?list_elem_of_singleton in He';
            repeat match goal with
                   | H : _ \/ _ |- _ => destruct H as [H|H]
                   end;
            subst; simpl; first [now apply Hrest | now apply Hnew]).
  all: try (intros k j Hk; apply lookup_delete_Some in Hk as [_ Hk];
            now eauto).
  all: try (intros k j; rewrite lookup_insert; case_decide;
    [intros [= <-]; simpl; auto
    |intros Hk; try apply lookup_delete_Some in Hk as [_ Hk]; eauto]).
  - specialize (Ssv _ _ Hw). intros e' He'.
    rewrite elem_of_app, list_elem_of_singleton in He'.
    destruct He' as [He'| ->]; [now apply Hrest|simpl; now apply Hnew].
  - exact (Ssv _ _ Hw).
Qed.

Lemma boundary_on_scale (s0 s : Simulator) :
  configured s0 ->
  moderate (arrival_generator_ s0) ->
  moderate (service_generator_ s0) ->
  boundary s0 s -> on_scale s.
Proof.
  intros Hc Ha Hs.
  apply boundary_invariant; [exact Hc|now apply on_scale_start|].
  intros s1 e s' _ R He Hh _. exact (on_scale_step s1 s' e R He Hh).
Qed.

Lemma on_scale_in_double_range (s : Simulator) :
  on_scale s -> (Z.of_nat (length (history_ s)) <= MAX_ITERATIONS)%Z ->
  in_double_range s.
Proof.
  intros [Sa Ss Sc Sp Sh Ssv] Hmax.
  pose proof (reach_cap _ Hmax) as Hcap.
  pose proof (reach_S (length (history_ s))) as R1.
  pose proof scale_positive as Hpos.
  split; [|split].
  - apply (within_weaken (reach (length (history_ s)))); [lra|exact Sc].
  - intros e He. apply (within_weaken (reach (length (history_ s)))); [lra|].
    now apply Sh.
  - intros e He. apply (within_weaken (reach (S (length (history_ s)))));
      [lra|]. now apply Sp.
Qed.

Lemma in_double_range_final (s : Simulator) :
  in_double_range s -> in_double_range (update_busy_statistics s).
Proof.
  unfold in_double_range, current_time.
  destruct (update_busy_statistics_frame s)
    as (H1&H2&H3&H4&H5&H6&H7&H8&H9&H10&H11&H12&H13&H14&H15&H16).
  now rewrite H1, H10, H16.
Qed.

(** The runs of a simulator with moderate generators end in states that
    satisfy what holds at every event boundary, with all time stamps in the
    range of [double]. *)
Lemma moderate_runs (P : Simulator -> Prop) (s0 : Simulator) :
  configured s0 ->
  moderate (arrival_generator_ s0) ->
  moderate (service_generator_ s0) ->
  (forall s, boundary s0 s -> P s) ->
  (forall s, P s -> P (update_busy_statistics s)) ->
  (forall T, exists s, run T s0 = Ok s /\ P s /\ in_double_range s) /\
  (forall K, exists s, run_until_jobs K s0 = Ok s /\ P s /\ in_double_range s).
Proof.
  intros Hc Ha Hs Hb Hf. split.
  - intros T. destruct (run_boundary T s0 Hc) as (s & Hbs & Hr & Hmax).
    exists (update_busy_statistics s). split; [exact Hr|]. split; [auto|].
    apply in_double_range_final, on_scale_in_double_range; [|exact Hmax].
    now apply (boundary_on_scale s0).
  - intros K.
    destruct (run_until_jobs_boundary K s0 Hc) as (s & Hbs & Hr & Hmax).
    exists (update_busy_statistics s). split; [exact Hr|]. split; [auto|].
    apply in_double_range_final, on_scale_in_double_range; [|exact Hmax].
    now apply (boundary_on_scale s0).
Qed.

(** C4, as the code has it.  With Deterministic(d) arrivals, Deterministic(v)
    service, one core and the unbounded buffer, if [d >= v] and both values
    lie within [scale] = 2^960, then no job ever waits: at every event
    boundary of a run and in the state every run returns, all recorded
    waiting times are 0 and [avg_wait_time] is 0, and every time stamp lies
    within 2^987, so that none has left the range of [double].  This holds
    for [d = v] as well, and for every order in which the event heap
    releases a departure and an arrival of equal timestamp ([heap] is
    arbitrary). *)
Theorem deterministic_single_server_never_waits
  (d v : Q) (heap : nat -> nat) (s0 : Simulator) :
  (v <= d)%Q -> within scale d -> within scale v ->
  new_Simulator (DeterministicGenerator d) (DeterministicGenerator v) 1 (-1)
                heap = Ok s0 ->
  (forall s, boundary s0 s ->
             (Z.of_nat (length (history_ s)) <= MAX_ITERATIONS)%Z ->
             never_waited s /\ in_double_range s) /\
  (forall T, exists s, run T s0 = Ok s /\ never_waited s /\
                       in_double_range s) /\
  (forall K, exists s, run_until_jobs K s0 = Ok s /\ never_waited s /\
                       in_double_range s).
Proof.
  intros Hv Hd Hvs Hs0.
  pose proof (new_Simulator_configured _ _ _ _ _ _ Hs0) as Hc.
  assert (Hcfg : det_config d v s0).
  { unfold new_Simulator in Hs0. simpl in Hs0. injection Hs0 as <-.
    repeat split. }
  destruct Hcfg as (Ha & Hs & _).
  assert (Hma : moderate (arrival_generator_ s0))
    by (rewrite Ha; now apply moderate_Deterministic).
  assert (Hms : moderate (service_generator_ s0))
    by (rewrite Hs; now apply moderate_Deterministic).
  assert (Hall : forall s, boundary s0 s -> never_waited s).
  { intros s Hb. apply waits_zero_never_waited, (punctual_waits_zero d v).
    apply (boundary_punctual d v s0); auto.
    unfold new_Simulator in Hs0. simpl in Hs0. injection Hs0 as <-.
    repeat split. }
  split.
  - intros s Hb Hmax. split; [now apply Hall|].
    apply on_scale_in_double_range; [|exact Hmax].
    now apply (boundary_on_scale s0).
  - apply (moderate_runs never_waited s0 Hc Hma Hms Hall never_waited_final).
Qed.

Lemma deterministic_single_server_never_waits_witness :
  (forall s, boundary tied_engine s ->
             (Z.of_nat (length (history_ s)) <= MAX_ITERATIONS)%Z ->
             never_waited s /\ in_double_range s) /\
  (forall T, exists s, run T tied_engine = Ok s /\ never_waited s /\
                       in_double_range s) /\
  (forall K, exists s, run_until_jobs K tied_engine = Ok s /\ never_waited s /\
                       in_double_range s).
Proof.
  apply (deterministic_single_server_never_waits 1 1 (fun n => n)).
  - apply Qle_bool_iff. reflexivity.
  - split; apply Qle_bool_iff; reflexivity.
  - split; apply Qle_bool_iff; reflexivity.
  - reflexivity.
Defined.

(** X9.  With generators that return no negative value and no value above
    [scale] = 2^960, the recorded samples are sound: for every completed job
    the waiting time recorded is not negative and not longer than the system
    time recorded for it.  Hence [min_wait_time()] and [avg_wait_time()] are
    not negative and [avg_wait_time() <= avg_system_time()].  Every time
    stamp of the run lies within 2^987, so that none has left the range of
    [double]. *)
Theorem waiting_time_within_system_time (s0 : Simulator) :
  configured s0 ->
  non_negative (arrival_generator_ s0) ->
  non_negative (service_generator_ s0) ->
  moderate (arrival_generator_ s0) ->
  moderate (service_generator_ s0) ->
  (forall s, boundary s0 s ->
             (Z.of_nat (length (history_ s)) <= MAX_ITERATIONS)%Z ->
             waits_within_sojourns s /\ in_double_range s) /\
  (forall T, exists s, run T s0 = Ok s /\ waits_within_sojourns s /\
                       in_double_range s) /\
  (forall K, exists s, run_until_jobs K s0 = Ok s /\
                       waits_within_sojourns s /\ in_double_range s).
Proof.
  intros Hc Ha Hs Hma Hms.
  assert (Hb : forall s, boundary s0 s -> waits_within_sojourns s).
  { intros s Hb. apply waits_within_sojourns_boundary.
    now apply (boundary_jobs_timed s0 s Hc Ha Hs Hb). }
  split.
  - intros s Hbs Hmax. split; [now apply Hb|].
    apply on_scale_in_double_range; [|exact Hmax].
    now apply (boundary_on_scale s0).
  - apply moderate_runs; auto.
    intros s H. final_statistics s. exact H.
Qed.

Lemma waiting_time_within_system_time_witness :
  (forall s, boundary demo_engine s ->
             (Z.of_nat (length (history_ s)) <= MAX_ITERATIONS)%Z ->
             waits_within_sojourns s /\ in_double_range s) /\
  (forall T, exists s, run T demo_engine = Ok s /\ waits_within_sojourns s /\
                       in_double_range s) /\
  (forall K, exists s, run_until_jobs K demo_engine = Ok s /\
                       waits_within_sojourns s /\ in_double_range s).
Proof.
  apply (waiting_time_within_system_time demo_engine).
  - split; reflexivity.
  - apply demo_engine_non_negative.
  - apply demo_engine_non_negative.
  - apply moderate_Deterministic. split; apply Qle_bool_iff; reflexivity.
  - apply moderate_Deterministic. split; apply Qle_bool_iff; reflexivity.
Defined.

Lemma up_to_date_no_update (s : Simulator) :
  up_to_date s -> update_busy_statistics s = s.
Proof. intros H. unfold update_busy_statistics. now rewrite H. Qed.

Lemma Qlt_bool_irrefl (x : Q) : Qlt_bool x x = false.
Proof.
  destruct (Qlt_bool x x) eqn:E; [|reflexivity].
  apply Qlt_bool_true in E. lra.
Qed.

Lemma popped_up_to_date (e : Event) (s : Simulator) : up_to_date (popped e s).
Proof.
  unfold up_to_date, popped, update_busy_statistics. simpl.
  destruct (Qlt_bool (last_busy_check_time_ s) (time e)) eqn:E; simpl.
  - apply Qlt_bool_irrefl.
  - exact E.
Qed.

Lemma up_to_date_start (s0 : Simulator) :
  up_to_date (schedule_next_arrival (initialize s0)).
Proof.
  unfold up_to_date, schedule_next_arrival.
  destruct (generate (arrival_generator_ (initialize s0))) as [x g].
  reflexivity.
Qed.

Lemma up_to_date_step (s s' : Simulator) (e : Event) :
  handled e (popped e s) s' -> up_to_date s'.
Proof.
  intros Hh. pose proof (popped_up_to_date e s) as H.
  unfold up_to_date in *. destruct Hh; simpl; exact H.
Qed.

(** X8.  The busy-time statistics are up to date at every event boundary,
    whatever the generators return: [update_busy_statistics()] would change
    nothing there, and the call of it that ends [run] and [run_until_jobs]
    never changes the state the loop has left. *)
Theorem busy_statistics_are_up_to_date (s0 : Simulator) :
  configured s0 ->
  (forall s, boundary s0 s ->
             up_to_date s /\ update_busy_statistics s = s) /\
  (forall T, exists s, boundary s0 s /\ run T s0 = Ok s /\ up_to_date s) /\
  (forall K, exists s, boundary s0 s /\ run_until_jobs K s0 = Ok s /\
                       up_to_date s).
Proof.
  intros Hc.
  assert (Hb : forall s, boundary s0 s -> up_to_date s).
  { apply boundary_invariant; [exact Hc|apply up_to_date_start|].
    intros s e s' _ _ _ Hh _. exact (up_to_date_step s s' e Hh). }
  split; [|split].
  - intros s Hs. split; [now apply Hb|]. now apply up_to_date_no_update, Hb.
  - intros T. destruct (run_boundary T s0 Hc) as (s & Hs & Hr & _).
    exists s. rewrite (up_to_date_no_update s (Hb s Hs)) in Hr. auto.
  - intros K. destruct (run_until_jobs_boundary K s0 Hc) as (s & Hs & Hr & _).
    exists s. rewrite (up_to_date_no_update s (Hb s Hs)) in Hr. auto.
Qed.

Lemma busy_statistics_are_up_to_date_witness :
  (forall s, boundary demo_engine s ->
             up_to_date s /\ update_busy_statistics s = s) /\
  (forall T, exists s, boundary demo_engine s /\ run T demo_engine = Ok s /\
                       up_to_date s) /\
  (forall K, exists s, boundary demo_engine s /\
                       run_until_jobs K demo_engine = Ok s /\ up_to_date s).
Proof.
  apply (busy_statistics_are_up_to_date demo_engine). split; reflexivity.
Defined.

(* ===================================================================== *)
(** * Runs on doubles                                                       *)
(* ===================================================================== *)

Lemma Double_main_loop_enough (continue : Double.Simulator -> bool)
  (n m : nat) (s s' : Double.Simulator) :
  Double.main_loop continue n s = Ok s' ->
  negb (pq_empty (Double.event_queue_ s')) && continue s' = false ->
  Double.main_loop continue (n + m) s = Ok s'.
Proof.
  revert s. induction n as [|n IH]; intros s; simpl.
  - destruct (negb (pq_empty (Double.event_queue_ s)) && continue s) eqn:E;
      intros [= <-] Hstop; [congruence|].
    destruct m; simpl; now rewrite E.
  - destruct (negb (pq_empty (Double.event_queue_ s)) && continue s) eqn:E;
      [|intros [= <-] _; reflexivity].
    destruct (Double.loop_body s) as [s1|]; [|discriminate]. simpl. apply IH.
Qed.

(** [run_until_jobs(2)] with Deterministic(2^1023) arrivals and service: the
    second arrival is due at 2^1023 + 2^1023, which is infinite in [double];
    the second job arrives and starts at infinity, and its waiting time,
    infinity less infinity, is not a number. *)
Lemma overflowing_engine_run :
  on_result (fun s => (map Double.time (Double.history_ s),
                       Double.wait_times_ s, Double.system_times_ s,
                       Double.avg_wait_time s))
            (Double.run_until_jobs 2 overflowing_engine)
  = Some ([huge; Double.infinity; Double.infinity; Double.infinity],
          [Double.zero; Double.nan], [Double.infinity; Double.nan],
          Double.nan).
Proof.
  set (start := Double.schedule_next_arrival
                  (Double.initialize overflowing_engine)).
  set (continue := fun s => (Double.jobs_completed_ s <? 2)%Z).
  assert (Hobs : on_result
                   (fun s =>
                      (negb (pq_empty (Double.event_queue_ s)) && continue s,
                       (map Double.time (Double.history_ s),
                        Double.wait_times_ s, Double.system_times_ s,
                        Double.avg_wait_time s),
                       Double.update_busy_statistics s))
                   (Double.main_loop continue 4 start)
                 = on_result
                     (fun s => (false,
                                ([huge; Double.infinity; Double.infinity;
                                  Double.infinity],
                                 [Double.zero; Double.nan],
                                 [Double.infinity; Double.nan], Double.nan),
                                s))
                     (Double.main_loop continue 4 start))
    by (vm_compute; reflexivity).
  destruct (Double.main_loop continue 4 start) as [s1|] eqn:Hs1;
    [|vm_compute in Hs1; discriminate].
  cbn [on_result] in Hobs. injection Hobs as Hstop Hh Hw Hu Ha Hf.
  unfold Double.run_until_jobs. fold start. fold continue.
  assert (Hfuel : exists m, Z.to_nat MAX_ITERATIONS = (4 + m)%nat).
  { exists (Z.to_nat (MAX_ITERATIONS - 4)). unfold MAX_ITERATIONS. lia. }
  destruct Hfuel as [m ->].
  rewrite (Double_main_loop_enough continue 4 m start s1 Hs1 Hstop).
  cbn [bind on_result]. rewrite Hf. now rewrite Hh, Hw, Hu, Ha.
Qed.

Lemma overflowing_engine_constructed :
  Double.new_Simulator (Double.DeterministicGenerator huge)
                       (Double.DeterministicGenerator huge) 1 (-1)
                       (fun n => n) = Ok overflowing_engine.
Proof. reflexivity. Qed.

(** C4, as stated, fails on doubles: with [d = v = 2^1023] the time stamps
    overflow, and [avg_wait_time()] is not a number after
    [run_until_jobs(2)]. *)
Lemma deterministic_single_server_overflow :
  ~ (forall d v heap s0 K s,
        Double.leb v d = true ->
        Double.new_Simulator (Double.DeterministicGenerator d)
                             (Double.DeterministicGenerator v) 1 (-1) heap
        = Ok s0 ->
        Double.run_until_jobs K s0 = Ok s ->
        Double.eqb (Double.avg_wait_time s) Double.zero = true).
Proof.
  intros H. pose proof overflowing_engine_run as Hrun.
  destruct (Double.run_until_jobs 2 overflowing_engine) as [s|] eqn:Hs;
    [|discriminate Hrun].
  cbn [on_result] in Hrun. injection Hrun as _ _ _ Ha.
  specialize (H huge huge (fun n => n) overflowing_engine 2%Z s eq_refl
                overflowing_engine_constructed Hs).
  rewrite Ha in H. discriminate H.
Qed.

(** Eight iterations with Deterministic(0.1) arrivals and service on
    doubles.  The time stamps are rounded sums, as the system times show
    (the second is above 0.1, the third below), but a job that is buffered
    starts at the very double at which it arrived: every waiting time is
    exactly 0. *)
Example tied_engine_on_doubles_eight_events :
  on_result (fun s => (map Double.type (Double.history_ s),
                       Double.wait_times_ s, Double.system_times_ s))
            (Double.main_loop (fun _ => true) 8
               (Double.schedule_next_arrival
                  (Double.initialize tied_engine_on_doubles)))
  = Some ([ARRIVAL; ARRIVAL; DEPARTURE; DEPARTURE;
           ARRIVAL; ARRIVAL; DEPARTURE; DEPARTURE],
          [Double.zero; Double.zero; Double.zero; Double.zero],
          [tenth; S754_finite false 7205759403792796 (-56);
           S754_finite false 7205759403792792 (-56);
           S754_finite false 7205759403792792 (-56)]).
Proof. vm_compute. reflexivity. Qed.

Lemma sub_diag_finite (x : Double.double) :
  Double.is_finite x = true -> Double.sub x x = Double.zero.
Proof.
  destruct x as [[]|[]| |s m e]; intros H; try discriminate H.
  - reflexivity.
  - reflexivity.
  - unfold Double.sub, SFsub. rewrite Z.sub_diag. reflexivity.
Qed.

Lemma max_thousandth_finite (x : Double.double) :
  Double.is_finite x = true ->
  exists m e, Double.max x Double.thousandth = S754_finite false m e.
Proof.
  destruct x as [[]|[]| |[] m e]; intros H; try discriminate H.
  - unfold Double.max. cbn. eauto.
  - unfold Double.max. cbn. eauto.
  - unfold Double.max. cbn. eauto.
  - unfold Double.max. destruct (Double.ltb _ _); eauto.
Qed.

(** X17.  The check of Little's formula that [print_statistics] prints
    compares a value with itself.  Once the clock has left 0,
    [avg_queue_length()] is the very product [lambdaW] it is compared with,
    so the deviation printed is 0 when that product is finite, and not a
    number when it is infinite or not a number; no other deviation is ever
    printed. *)
Theorem the_check_of_Littles_formula_compares_a_value_with_itself
  (s : Double.Simulator) :
  Double.eqb (Double.current_time_ s) Double.zero = false ->
  exists x deviation,
    Double.little_check s = (x, x, deviation) /\
    x = Double.mul (Double.div Double.one
                      (Double.mean (Double.arrival_generator_ s)))
                   (Double.avg_wait_time s) /\
    Double.avg_queue_length s = x /\
    deviation = (if Double.is_finite x then Double.zero else Double.nan).
Proof.
  intros Ht. unfold Double.little_check, Double.avg_queue_length. rewrite Ht.
  set (x := Double.mul _ _).
  exists x. eexists. split; [reflexivity|]. split; [reflexivity|].
  split; [reflexivity|].
  destruct (Double.is_finite x) eqn:Ef.
  - rewrite (sub_diag_finite x Ef).
    destruct (max_thousandth_finite x Ef) as (m & e & ->). reflexivity.
  - destruct x as [[]|[]| |? ? ?]; try discriminate; reflexivity.
Qed.

Lemma the_check_of_Littles_formula_compares_a_value_with_itself_witness :
  exists x deviation,
    Double.little_check sampled_engine = (x, x, deviation) /\
    x = Double.mul (Double.div Double.one
                      (Double.mean (Double.arrival_generator_ sampled_engine)))
                   (Double.avg_wait_time sampled_engine) /\
    Double.avg_queue_length sampled_engine = x /\
    deviation = (if Double.is_finite x then Double.zero else Double.nan).
Proof.
  apply (the_check_of_Littles_formula_compares_a_value_with_itself
           sampled_engine).
  reflexivity.
Defined.
